(** * easy-crypto: a shallow embedding of [index.js]

    The module wraps Node's [crypto] primitives: AES through
    [createCipheriv]/[createDecipheriv], raw (unpadded) RSA through
    [publicEncrypt]/[privateDecrypt], and a home-made filler generator
    built on [Math.random].

    Conventions of the embedding.
    - A JavaScript string is the list of its UTF-16 code units.
    - A [Buffer] is a list of bytes.
    - A JavaScript number that the module computes with ([keyLength],
      [size], [length], [restLength]) is an exact rational: [keyLength/8]
      is a true division, as in JavaScript.  Engine limits on the size of
      a string or of a Buffer are not modelled.
    - An exception is the [Throw] outcome of a [completion].
    - The ciphers behind [createCipheriv] and [createDecipheriv] are AES
      (FIPS 197) in the modes ECB, CBC, CTR and GCM, as OpenSSL runs
      them; the ciphers of other names are a parameter.
    - [Math.random] is an oracle: the value of its k-th call; the number
      of calls made so far is threaded through the functions that draw. *)

From Stdlib Require Import Ascii String.
From Stdlib Require Import ZArith Znumtheory Zpow_facts NArith QArith Qround List Bool Lia Ring.
From Stdlib Require Import Zmod.ZmodInv.
From Stdlib Require Import Init.Byte Strings.Byte.
Import ListNotations.

Local Open Scope Z_scope.

(** ** JavaScript values *)

Module JS.

(** UTF-16 code units. *)
Definition code_unit := N.
Definition jsstring := list code_unit.

(** A string literal of the source, as its code units. *)
Definition lit (s : string) : jsstring :=
  map N_of_ascii (list_ascii_of_string s).

(** The values [rsaDecrypt] may return: a string, or [undefined] when the
    array index is out of range. *)
Inductive value :=
| Undefined
| Str (s : jsstring).

(** [ToString] on the two kinds of value that occur. *)
Definition ToString (v : value) : jsstring :=
  match v with
  | Undefined => lit "undefined"
  | Str s => s
  end.

(** The exceptions of the runtime that the module can run into. *)
Inductive error :=
| RangeError_size (received : Q) (* Buffer.alloc: the value of "size" is
                                   out of range, with the value received *)
| Error_ENOENT               (* fs.readFileSync: no such file *)
| Error_key                  (* the file does not hold a usable key *)
| Error_data_too_large_for_key_size
| Error_data_too_small_for_key_size
| Error_data_too_large_for_modulus
| Error_data_greater_than_mod_len
| Error_data_too_small
| Error_unknown_cipher       (* createCipheriv: no cipher of that name *)
| Error_invalid_iv           (* createCipheriv: invalid initialization vector *)
| Error_invalid_key_length   (* createCipheriv: invalid key length *)
| Error_wrong_final_block_length (* final(): the data is not a whole number
                                    of blocks *)
| Error_bad_decrypt          (* final(): the padding is rejected *)
| Error_unable_to_authenticate.  (* final(): unsupported state or unable to
                                    authenticate data *)

Inductive completion (A : Type) :=
| Normal (a : A)
| Throw (e : error).
Arguments Normal {A} a.
Arguments Throw {A} e.

(** [s.charAt]-like indexing [s[i]]: a one-unit string, or [undefined]. *)
Definition index_string (s : jsstring) (i : Z) : value :=
  if i <? 0 then Undefined
  else match nth_error s (Z.to_nat i) with
       | Some c => Str [c]
       | None => Undefined
       end.

(** [a[i]] on an array of strings. *)
Definition index_array (a : list jsstring) (i : nat) : value :=
  match nth_error a i with
  | Some s => Str s
  | None => Undefined
  end.

End JS.
Import JS.

(** ** Computations that draw from [Math.random] and may throw *)

(** The state is the number of calls of [Math.random] made so far. *)
Definition M (A : Type) : Type := nat -> completion (A * nat).

Definition ret {A} (a : A) : M A := fun calls => Normal (a, calls).

Definition bind {A B} (m : M A) (k : A -> M B) : M B :=
  fun calls =>
    match m calls with
    | Normal (a, calls') => k a calls'
    | Throw e => Throw e
    end.

Definition lift {A} (c : completion A) : M A :=
  fun calls =>
    match c with
    | Normal a => Normal (a, calls)
    | Throw e => Throw e
    end.

Declare Scope js_scope.
Delimit Scope js_scope with js.
Notation "x <- m ;; k" := (bind m (fun x => k))
  (at level 61, m at next level, right associativity) : js_scope.

(** Comparison of JavaScript numbers. *)
Definition Qltb (a b : Q) : bool := negb (Qle_bool b a).


(** ** Bytes *)

Definition byte_of_N (n : N) : byte :=
  match Byte.of_N (n mod 256) with
  | Some b => b
  | None => x00
  end.

(** The 26 letters, as code units 0x61..0x7a. *)
Definition is_lower_letter (c : N) : bool :=
  ((97 <=? c) && (c <=? 122))%N.

Definition is_lower_letter_byte (b : byte) : bool :=
  is_lower_letter (Byte.to_N b).

Definition not_letter_byte (b : byte) : Prop := is_lower_letter_byte b = false.

(** ** UTF-8, the default encoding of [Buffer.from] and [buffer.write] *)

Definition is_high_surrogate (c : N) : bool := ((55296 <=? c) && (c <=? 56319))%N.
Definition is_low_surrogate (c : N) : bool := ((56320 <=? c) && (c <=? 57343))%N.

(** The encoding of U+FFFD, written for a surrogate without its pair. *)
Definition utf8_replacement : list byte := [xef; xbf; xbd].

Definition utf8_of_code_point (cp : N) : list byte :=
  (if cp <? 128 then [byte_of_N cp]
   else if cp <? 2048 then
     [byte_of_N (N.lor 192 (N.shiftr cp 6));
      byte_of_N (N.lor 128 (N.land cp 63))]
   else if cp <? 65536 then
     [byte_of_N (N.lor 224 (N.shiftr cp 12));
      byte_of_N (N.lor 128 (N.land (N.shiftr cp 6) 63));
      byte_of_N (N.lor 128 (N.land cp 63))]
   else
     [byte_of_N (N.lor 240 (N.shiftr cp 18));
      byte_of_N (N.lor 128 (N.land (N.shiftr cp 12) 63));
      byte_of_N (N.lor 128 (N.land (N.shiftr cp 6) 63));
      byte_of_N (N.lor 128 (N.land cp 63))])%N.

(** The bytes of each character of a string, one group per character; a
    surrogate pair is one character. *)
Fixpoint utf8_chunks (s : jsstring) : list (list byte) :=
  match s with
  | [] => []
  | c :: s' =>
    if is_high_surrogate c then
      match s' with
      | d :: s'' =>
        if is_low_surrogate d
        then utf8_of_code_point (65536 + (c - 55296) * 1024 + (d - 56320))%N
             :: utf8_chunks s''
        else utf8_replacement :: utf8_chunks s'
      | [] => [utf8_replacement]
      end
    else if is_low_surrogate c then utf8_replacement :: utf8_chunks s'
    else utf8_of_code_point c :: utf8_chunks s'
  end.

Definition utf8_encode (s : jsstring) : list byte := concat (utf8_chunks s).

(** ** Buffer *)

Definition Buffer := list byte.

(** [Buffer.alloc(size)]: a zero-filled buffer; a negative size is a
    [RangeError]; a fractional size is truncated. *)
Definition Buffer_alloc (size : Q) : completion Buffer :=
  if Qltb size 0 then Throw (RangeError_size size)
  else Normal (repeat x00 (Z.to_nat (Qfloor size))).

(** The whole characters that fit in [room] bytes. *)
Fixpoint utf8_fit (chunks : list (list byte)) (room : nat) : list byte :=
  match chunks with
  | [] => []
  | c :: cs =>
    if (length c <=? room)%nat then c ++ utf8_fit cs (room - length c)
    else []
  end.

(** [buffer.write(str)]: the UTF-8 bytes of [str] are written from offset
    0, as many whole characters as fit; the rest of the buffer is kept.
    The result is the buffer after the write. *)
Definition Buffer_write (buffer : Buffer) (str : jsstring) : Buffer :=
  let written := utf8_fit (utf8_chunks str) (length buffer) in
  written ++ skipn (length written) buffer.

(** [Buffer.from(string)] with the default encoding. *)
Definition Buffer_from (s : jsstring) : Buffer := utf8_encode s.

(** [Buffer.concat(list)]. *)
Definition Buffer_concat (l : list Buffer) : Buffer := concat l.

(** ** The filler generator *)

Section RandomSource.

(** The value returned by the k-th call of [Math.random].  The product
    by 26 is taken exactly.  In floating point it is rounded, by less
    than the distance between two neighbouring doubles, and for a value
    below 1 it stays below 26; the index that the runtime computes is
    therefore the index computed here for some value of [0, 1), and what
    is proved for every such oracle holds for every run. *)
Variable Math_random : nat -> Q.

Definition letters : jsstring := lit "abcdefghijklmnopqrstuvwxyz".

(** The [while] loop of [getRandomString].  One unit of [fuel] is one
    test of the loop condition. *)
Fixpoint getRandomString_loop (fuel : nat) (length : Q)
         (str : jsstring) (count : Z) (calls : nat) : jsstring * nat :=
  match fuel with
  | O => (str, calls)
  | S fuel' =>
    if Qltb (inject_Z count) length then
      let r := Math_random calls in
      let str := str ++ ToString (index_string letters (Qfloor (r * 26))) in
      getRandomString_loop fuel' length str (count + 1) (S calls)
    else (str, calls)
  end.

(** The loop body runs once for each integer of [0, length): the fuel
    given covers these and the last, failing, test. *)
Definition getRandomString (length : Q) : M jsstring :=
  fun calls =>
    Normal (getRandomString_loop (S (Z.to_nat (Qceiling length))) length [] 0 calls).

Definition getRandomBytes (size : Q) : M Buffer :=
  (buffer <- lift (Buffer_alloc size) ;;
   str <- getRandomString size ;;
   ret (Buffer_write buffer str))%js.

(** ** AES key material *)

Record AESKeyAndIv := { key : Buffer; iv : Buffer }.

(** [keyLength = 256] when the argument is left out. *)
Definition genAESKeyAndIv (keyLength : option Q) : M AESKeyAndIv :=
  let keyLength := match keyLength with Some k => k | None => 256%Q end in
  (k <- getRandomBytes (keyLength / 8) ;;
   i <- getRandomBytes (128 / 8) ;;
   ret {| key := k; iv := i |})%js.

(** What the draws contribute to the string: the unit appended by the
    k-th call, and the units appended by [n] calls from [calls] on. *)
Definition drawn (k : nat) : jsstring :=
  ToString (index_string letters (Qfloor (Math_random k * 26))).

Definition draws (calls n : nat) : jsstring := flat_map drawn (seq calls n).

(** [Math.random] returns a number of the interval [0, 1). *)
Definition unit_interval : Prop :=
  forall k, (0 <= Math_random k)%Q /\ (Math_random k < 1)%Q.

(** The letter of the k-th call, as a byte. *)
Definition letter_byte (k : nat) : byte :=
  byte_of_N (97 + Z.to_N (Qfloor (Math_random k * 26))).

End RandomSource.

(** ** Encodings of [buf.toString(encoding)] and [Buffer.from(string, encoding)] *)

Inductive encoding := utf8 | latin1 | ascii | hex | base64.

(** *** UTF-8 decoding: the decoder of the Encoding Standard, one byte at
    a time; an ill-formed sequence gives U+FFFD. *)

Record utf8_state := {
  needed : nat;      (* continuation bytes of the current character *)
  seen : nat;        (* ... of which already read *)
  code_point : N;
  lower : N;         (* bounds on the next continuation byte *)
  upper : N
}.

Definition utf8_init : utf8_state :=
  {| needed := 0; seen := 0; code_point := 0; lower := 128; upper := 191 |}.

(** A code point as UTF-16: itself, or a surrogate pair. *)
Definition utf16_of_code_point (cp : N) : jsstring :=
  (if cp <? 65536 then [cp]
   else [55296 + (cp - 65536) / 1024; 56320 + (cp - 65536) mod 1024])%N.

Definition utf8_lead (b : N) : utf8_state * jsstring :=
  (if b <=? 127 then (utf8_init, [b])
   else if (194 <=? b) && (b <=? 223) then
     ({| needed := 1; seen := 0; code_point := N.land b 31;
         lower := 128; upper := 191 |}, [])
   else if (224 <=? b) && (b <=? 239) then
     ({| needed := 2; seen := 0; code_point := N.land b 15;
         lower := if b =? 224 then 160 else 128;
         upper := if b =? 237 then 159 else 191 |}, [])
   else if (240 <=? b) && (b <=? 244) then
     ({| needed := 3; seen := 0; code_point := N.land b 7;
         lower := if b =? 240 then 144 else 128;
         upper := if b =? 244 then 143 else 191 |}, [])
   else (utf8_init, [65533]))%N.

Definition utf8_step (st : utf8_state) (b : N) : utf8_state * jsstring :=
  match needed st with
  | O => utf8_lead b
  | S _ =>
    if ((lower st <=? b) && (b <=? upper st))%N then
      let cp := N.lor (N.shiftl (code_point st) 6) (N.land b 63) in
      if (S (seen st) =? needed st)%nat then (utf8_init, utf16_of_code_point cp)
      else ({| needed := needed st; seen := S (seen st); code_point := cp;
               lower := 128; upper := 191 |}, [])
    else
      (* the byte ends the ill-formed sequence and is read again *)
      let (st', out) := utf8_lead b in (st', 65533%N :: out)
  end.

Fixpoint utf8_run (st : utf8_state) (bs : list byte) : utf8_state * jsstring :=
  match bs with
  | [] => (st, [])
  | b :: bs' =>
    let (st1, out1) := utf8_step st (Byte.to_N b) in
    let (st2, out2) := utf8_run st1 bs' in
    (st2, out1 ++ out2)
  end.

(** At the end of the input an unfinished character gives U+FFFD. *)
Definition utf8_flush (st : utf8_state) : jsstring :=
  match needed st with
  | O => []
  | S _ => [65533%N]
  end.

Definition utf8_decode (bs : list byte) : jsstring :=
  let (st, out) := utf8_run utf8_init bs in out ++ utf8_flush st.

(** Well-formed UTF-16: code units below 65536, surrogates in pairs. *)
Fixpoint well_formed (s : jsstring) : bool :=
  match s with
  | [] => true
  | c :: s' =>
    if is_high_surrogate c then
      match s' with
      | d :: s'' => is_low_surrogate d && well_formed s''
      | [] => false
      end
    else negb (is_low_surrogate c) && (c <? 65536)%N && well_formed s'
  end.

(** *** Hexadecimal *)

Definition hex_digit (n : N) : N := (if n <? 10 then 48 + n else 87 + n)%N.

Definition hex_encode (b : list byte) : jsstring :=
  flat_map (fun x => [hex_digit (Byte.to_N x / 16); hex_digit (Byte.to_N x mod 16)]%N) b.

Definition unhex (c : N) : option N :=
  (if (48 <=? c) && (c <=? 57) then Some (c - 48)
   else if (97 <=? c) && (c <=? 102) then Some (c - 87)
   else if (65 <=? c) && (c <=? 70) then Some (c - 55)
   else None)%N.

(** Decoding stops at the first pair that is not two hex digits; a last
    digit without a pair is dropped.  Of a code unit only the low byte
    is read. *)
Fixpoint hex_decode (s : jsstring) : list byte :=
  match s with
  | c1 :: c2 :: s' =>
    match unhex (c1 mod 256), unhex (c2 mod 256) with
    | Some h, Some l => byte_of_N (16 * h + l) :: hex_decode s'
    | _, _ => []
    end
  | _ => []
  end.

(** *** Base64 *)

Definition base64_char (n : N) : N :=
  (if n <? 26 then 65 + n
   else if n <? 52 then 71 + n
   else if n <? 62 then n - 4
   else if n =? 62 then 43
   else 47)%N.

Definition base64_pad : N := 61%N.

Fixpoint base64_encode (b : list byte) : jsstring :=
  match b with
  | [] => []
  | [b0] =>
    let n0 := Byte.to_N b0 in
    [base64_char (n0 / 4); base64_char (n0 mod 4 * 16); base64_pad; base64_pad]%N
  | [b0; b1] =>
    let n0 := Byte.to_N b0 in
    let n1 := Byte.to_N b1 in
    [base64_char (n0 / 4); base64_char (n0 mod 4 * 16 + n1 / 16);
     base64_char (n1 mod 16 * 4); base64_pad]%N
  | b0 :: b1 :: b2 :: rest =>
    let n0 := Byte.to_N b0 in
    let n1 := Byte.to_N b1 in
    let n2 := Byte.to_N b2 in
    [base64_char (n0 / 4); base64_char (n0 mod 4 * 16 + n1 / 16);
     base64_char (n1 mod 16 * 4 + n2 / 64); base64_char (n2 mod 64)]%N
    ++ base64_encode rest
  end.

(** Both the standard and the URL-safe alphabet are read. *)
Definition unbase64 (c : N) : option N :=
  (if (65 <=? c) && (c <=? 90) then Some (c - 65)
   else if (97 <=? c) && (c <=? 122) then Some (c - 71)
   else if (48 <=? c) && (c <=? 57) then Some (c + 4)
   else if (c =? 43) || (c =? 45) then Some 62
   else if (c =? 47) || (c =? 95) then Some 63
   else None)%N.

(** The 6-bit values of a base64 text: of a code unit only the low byte
    is read; reading stops at the first [=]; a character outside the
    alphabet is skipped. *)
Fixpoint sextets (s : jsstring) : list N :=
  match s with
  | [] => []
  | c :: s' =>
    let c := (c mod 256)%N in
    if (c =? base64_pad)%N then []
    else match unbase64 c with
         | Some v => v :: sextets s'
         | None => sextets s'
         end
  end.

Fixpoint bytes_of_sextets (l : list N) : list byte :=
  match l with
  | s0 :: s1 :: s2 :: s3 :: rest =>
    [byte_of_N (s0 * 4 + s1 / 16); byte_of_N (s1 mod 16 * 16 + s2 / 4);
     byte_of_N (s2 mod 4 * 64 + s3)]%N ++ bytes_of_sextets rest
  | [s0; s1; s2] =>
    [byte_of_N (s0 * 4 + s1 / 16); byte_of_N (s1 mod 16 * 16 + s2 / 4)]%N
  | [s0; s1] => [byte_of_N (s0 * 4 + s1 / 16)]%N
  | _ => []
  end.

Definition base64_decode (s : jsstring) : list byte := bytes_of_sextets (sextets s).

(** *** The two conversions *)

(** [buf.toString(encoding)]. *)
Definition Buffer_toString (b : Buffer) (enc : encoding) : jsstring :=
  match enc with
  | utf8 => utf8_decode b
  | latin1 => map Byte.to_N b
  | ascii => map (fun x => N.land (Byte.to_N x) 127) b
  | hex => hex_encode b
  | base64 => base64_encode b
  end.

(** [Buffer.from(string, encoding)]. *)
Definition Buffer_from_encoded (s : jsstring) (enc : encoding) : Buffer :=
  match enc with
  | utf8 => utf8_encode s
  | latin1 | ascii => map byte_of_N s
  | hex => hex_decode s
  | base64 => base64_decode s
  end.

(** ** [String.prototype.split] with a string separator and no limit *)

(** [prefixb R S]: the separator [R] matches at the start of [S]
    (SplitMatcher at the current position). *)
Fixpoint prefixb (R S : jsstring) : bool :=
  match R, S with
  | [], _ => true
  | _ :: _, [] => false
  | r :: R', c :: S' => (r =? c)%N && prefixb R' S'
  end.

(** The scan for a non-empty separator: [cur] is the segment read since
    the last match, [skip] the number of code units of a matched
    separator still to pass over. *)
Fixpoint split_scan (R : jsstring) (skip : nat) (cur : jsstring)
         (S : jsstring) : list jsstring :=
  match S with
  | [] => [cur]
  | c :: S' =>
    match skip with
    | S k => split_scan R k cur S'
    | O =>
      if prefixb R S then cur :: split_scan R (length R - 1) [] S'
      else split_scan R 0 (cur ++ [c]) S'
    end
  end.

(** The empty separator splits between code units (and the empty string
    into no segment at all). *)
Definition split (S R : jsstring) : list jsstring :=
  match R with
  | [] => map (fun c => [c]) S
  | _ :: _ => split_scan R 0 [] S
  end.

(** The separator occurs in a text. *)
Definition occurs {A} (R S : list A) : Prop :=
  exists pre post, S = pre ++ R ++ post.

(** The part of a text before the first occurrence of the separator (the
    whole text when there is none), and the part after it. *)
Fixpoint before_first (R S : jsstring) : jsstring :=
  match S with
  | [] => []
  | c :: S' => if prefixb R S then [] else c :: before_first R S'
  end.

Fixpoint after_first (R S : jsstring) : option jsstring :=
  match S with
  | [] => if prefixb R [] then Some [] else None
  | c :: S' => if prefixb R S then Some (skipn (length R) S) else after_first R S'
  end.

(** ** Raw RSA *)

(** What a key file holds, once parsed. *)
Inductive file :=
| PEM_public (n e : Z)
| PEM_private (n e d : Z)
| NotAKey (content : list byte).

Inductive padding := RSA_NO_PADDING.

(** The size of the modulus, in bytes. *)
Definition RSA_size (n : Z) : nat := Z.to_nat ((Z.log2 n + 8) / 8).

(** Big-endian bytes to integer, and back on [k] bytes. *)
Definition OS2IP (bs : list byte) : Z :=
  fold_left (fun acc b => acc * 256 + Z.of_N (Byte.to_N b)) bs 0.

Fixpoint I2OSP (k : nat) (x : Z) : list byte :=
  match k with
  | O => []
  | S k' => I2OSP k' (x / 256) ++ [byte_of_N (Z.to_N (x mod 256))]
  end.

(** Without padding the block must have exactly the size of the modulus
    and, as a number, lie below it. *)
Definition rsa_public_raw (n e : Z) (data : Buffer) : completion Buffer :=
  let k := RSA_size n in
  if (k <? length data)%nat then Throw Error_data_too_large_for_key_size
  else if (length data <? k)%nat then Throw Error_data_too_small_for_key_size
  else
    let m := OS2IP data in
    if n <=? m then Throw Error_data_too_large_for_modulus
    else Normal (I2OSP k (Zpow_mod m e n)).

Definition rsa_private_raw (n d : Z) (data : Buffer) : completion Buffer :=
  let k := RSA_size n in
  if (k <? length data)%nat then Throw Error_data_greater_than_mod_len
  else if (length data <? 1)%nat then Throw Error_data_too_small
  else
    let c := OS2IP data in
    if n <=? c then Throw Error_data_too_large_for_modulus
    else Normal (I2OSP k (Zpow_mod c d n)).

(** [crypto.publicEncrypt({key, padding}, buffer)]; a private key holds
    the public one. *)
Definition publicEncrypt (key : file) (p : padding) (buffer : Buffer)
  : completion Buffer :=
  match key with
  | PEM_public n e => rsa_public_raw n e buffer
  | PEM_private n e _ => rsa_public_raw n e buffer
  | NotAKey _ => Throw Error_key
  end.

(** [crypto.privateDecrypt({key, padding}, buffer)]. *)
Definition privateDecrypt (key : file) (p : padding) (buffer : Buffer)
  : completion Buffer :=
  match key with
  | PEM_private n _ d => rsa_private_raw n d buffer
  | _ => Throw Error_key
  end.

(** ** The RSA padding protocol *)

Record rsaEncryptOptions := {
  enc_splitBar : jsstring;
  pubKeyPath : jsstring;
  keyLength : Q;
  enc_outputEncoding : option encoding     (* default: base64 *)
}.

Record rsaDecryptOptions := {
  dec_splitBar : jsstring;
  priKeyPath : jsstring;
  dec_outputEncoding : option encoding;    (* default: utf8 *)
  dec_inputEncoding : option encoding      (* default: base64 *)
}.

Definition default {A} (d : A) (o : option A) : A :=
  match o with
  | Some a => a
  | None => d
  end.

Section RSA.

Variable Math_random : nat -> Q.

(** The files of the machine: [None] where there is no file. *)
Variable fs : jsstring -> option file.

Definition readFileSync (path : jsstring) : completion file :=
  match fs path with
  | Some f => Normal f
  | None => Throw Error_ENOENT
  end.

(** [restLength] of [rsaEncrypt]. *)
Definition restLength (content : Buffer) (o : rsaEncryptOptions) : Q :=
  let splitBarBuffer := Buffer_from (enc_splitBar o) in
  keyLength o / 8 - inject_Z (Z.of_nat (length splitBarBuffer))
  - inject_Z (Z.of_nat (length content)).

(** [contentNeedCrypt] of [rsaEncrypt]: the block handed to the cipher. *)
Definition contentNeedCrypt (content : Buffer) (o : rsaEncryptOptions) : M Buffer :=
  let splitBarBuffer := Buffer_from (enc_splitBar o) in
  (filler <- getRandomBytes Math_random (restLength content o) ;;
   ret (Buffer_concat [filler; splitBarBuffer; content]))%js.

Definition rsaEncrypt (content : Buffer) (o : rsaEncryptOptions) : M jsstring :=
  let outputEncoding := default base64 (enc_outputEncoding o) in
  (block <- contentNeedCrypt content o ;;
   key <- lift (readFileSync (pubKeyPath o)) ;;
   res <- lift (publicEncrypt key RSA_NO_PADDING block) ;;
   ret (Buffer_toString res outputEncoding))%js.

(** [decryptedData] of [rsaDecrypt]: the recovered block, as text. *)
Definition decryptedData (content : jsstring) (o : rsaDecryptOptions)
  : completion jsstring :=
  let outputEncoding := default utf8 (dec_outputEncoding o) in
  let inputEncoding := default base64 (dec_inputEncoding o) in
  let contentNeedDecrypt := Buffer_from_encoded content inputEncoding in
  match readFileSync (priKeyPath o) with
  | Throw e => Throw e
  | Normal key =>
    match privateDecrypt key RSA_NO_PADDING contentNeedDecrypt with
    | Throw e => Throw e
    | Normal plain => Normal (Buffer_toString plain outputEncoding)
    end
  end.

Definition rsaDecrypt (content : jsstring) (o : rsaDecryptOptions)
  : completion value :=
  match decryptedData content o with
  | Throw e => Throw e
  | Normal text =>
    let res := index_array (split text (dec_splitBar o)) 1 in
    Normal res
  end.

End RSA.

(** ** The AES functions *)

(** The ciphers of the platform, as [crypto.createCipheriv] and
    [crypto.createDecipheriv] give access to them: an object is made for
    an algorithm, a key and an initialization vector (or the call
    throws), [update] is fed data and returns the output that is ready,
    [final] returns the rest (or throws). *)
Record cipher_suite := {
  cipher : Type;
  createCipher : jsstring -> Buffer -> Buffer -> completion cipher;
  updateCipher : cipher -> Buffer -> cipher * Buffer;
  finalCipher : cipher -> completion Buffer;
  decipher : Type;
  createDecipher : jsstring -> Buffer -> Buffer -> completion decipher;
  updateDecipher : decipher -> Buffer -> decipher * Buffer;
  finalDecipher : decipher -> completion Buffer
}.

(** The [StringDecoder] by which [update] and [final] render their
    output: it keeps what cannot be rendered yet, an unfinished UTF-8
    character or the bytes of an unfinished base64 group. *)
Inductive string_decoder :=
| SD_utf8 (st : utf8_state)
| SD_base64 (pending : list byte)
| SD_plain (enc : encoding).

Definition StringDecoder (enc : encoding) : string_decoder :=
  match enc with
  | utf8 => SD_utf8 utf8_init
  | base64 => SD_base64 []
  | latin1 | ascii | hex => SD_plain enc
  end.

Definition decoder_write (sd : string_decoder) (chunk : Buffer)
  : jsstring * string_decoder :=
  match sd with
  | SD_utf8 st => let (st', out) := utf8_run st chunk in (out, SD_utf8 st')
  | SD_base64 pending =>
    let all := pending ++ chunk in
    let n := (3 * (length all / 3))%nat in
    (base64_encode (firstn n all), SD_base64 (skipn n all))
  | SD_plain enc => (Buffer_toString chunk enc, sd)
  end.

Definition decoder_end (sd : string_decoder) (chunk : Buffer) : jsstring :=
  match sd with
  | SD_utf8 st => let (st', out) := utf8_run st chunk in out ++ utf8_flush st'
  | SD_base64 pending => base64_encode (pending ++ chunk)
  | SD_plain enc => Buffer_toString chunk enc
  end.

(** [content] is a Buffer or a string. *)
Inductive data :=
| OfBuffer (b : Buffer)
| OfString (s : jsstring).

(** The bytes fed to [update]: a string is read in the input encoding,
    in UTF-8 when there is none. *)
Definition data_bytes (content : data) (inputEncoding : option encoding) : Buffer :=
  match content with
  | OfBuffer b => b
  | OfString s => Buffer_from_encoded s (default utf8 inputEncoding)
  end.

Record aesOptions := {
  algorithm : jsstring;
  aes_key : Buffer;
  aes_iv : Buffer;
  inputEncoding : option encoding;
  outputEncoding : option encoding
}.

Section AES.

Variable suite : cipher_suite.

(** [inputEncoding = ''] and [outputEncoding = 'base64'] by default. *)
Definition aesEncrypt (content : data) (o : aesOptions) : completion jsstring :=
  let outputEncoding := default base64 (outputEncoding o) in
  match createCipher suite (algorithm o) (aes_key o) (aes_iv o) with
  | Throw e => Throw e
  | Normal cipheriv =>
    let (cipheriv, out) :=
      updateCipher suite cipheriv (data_bytes content (inputEncoding o)) in
    let (encryptedData, decoder) := decoder_write (StringDecoder outputEncoding) out in
    match finalCipher suite cipheriv with
    | Throw e => Throw e
    | Normal out => Normal (encryptedData ++ decoder_end decoder out)
    end
  end.

(** [inputEncoding = 'base64'] and [outputEncoding = 'utf8'] by default. *)
Definition aesDecrypt (content : data) (o : aesOptions) : completion jsstring :=
  let inputEncoding := default base64 (inputEncoding o) in
  let outputEncoding := default utf8 (outputEncoding o) in
  match createDecipher suite (algorithm o) (aes_key o) (aes_iv o) with
  | Throw e => Throw e
  | Normal decipheriv =>
    let (decipheriv, out) :=
      updateDecipher suite decipheriv (data_bytes content (Some inputEncoding)) in
    let (decryptedData, decoder) := decoder_write (StringDecoder outputEncoding) out in
    match finalDecipher suite decipheriv with
    | Throw e => Throw e
    | Normal out => Normal (decryptedData ++ decoder_end decoder out)
    end
  end.

(** What is shown below of the ciphers that are modelled, for the
    algorithms, keys and vectors that allow it: both objects are made,
    and what the decipher returns for the output of the cipher is the
    data the cipher was fed. *)
Definition decipher_undoes_cipher (alg : jsstring) (key iv : Buffer) : Prop :=
  exists c0 d0,
    createCipher suite alg key iv = Normal c0
    /\ createDecipher suite alg key iv = Normal d0
    /\ forall plain,
        exists out2 p2,
          finalCipher suite (fst (updateCipher suite c0 plain)) = Normal out2
          /\ finalDecipher suite
               (fst (updateDecipher suite d0
                                    (snd (updateCipher suite c0 plain) ++ out2)))
             = Normal p2
          /\ snd (updateDecipher suite d0
                                 (snd (updateCipher suite c0 plain) ++ out2)) ++ p2
             = plain.

End AES.

Fixpoint jsstring_eqb (a b : jsstring) : bool :=
  match a, b with
  | [], [] => true
  | x :: a', y :: b' => (x =? y)%N && jsstring_eqb a' b'
  | _, _ => false
  end.

(** ** The block cipher: AES (FIPS 197) *)

(** Bytes as elements of GF(2^8): addition is the exclusive or of the
    bits, [xtime] is multiplication by x modulo x^8 + x^4 + x^3 + x + 1. *)
Definition bits8 : Type :=
  (bool * (bool * (bool * (bool * (bool * (bool * (bool * bool)))))))%type.

Definition bits_xor (a b : bits8) : bits8 :=
  let '(a0, (a1, (a2, (a3, (a4, (a5, (a6, a7))))))) := a in
  let '(b0, (b1, (b2, (b3, (b4, (b5, (b6, b7))))))) := b in
  (xorb a0 b0, (xorb a1 b1, (xorb a2 b2, (xorb a3 b3,
   (xorb a4 b4, (xorb a5 b5, (xorb a6 b6, xorb a7 b7))))))).

Definition bits_xtime (a : bits8) : bits8 :=
  let '(a0, (a1, (a2, (a3, (a4, (a5, (a6, a7))))))) := a in
  (a7, (xorb a0 a7, (a1, (xorb a2 a7, (xorb a3 a7, (a4, (a5, a6))))))).

Definition byte_xor (a b : byte) : byte :=
  Byte.of_bits (bits_xor (Byte.to_bits a) (Byte.to_bits b)).

Definition xtime (a : byte) : byte := Byte.of_bits (bits_xtime (Byte.to_bits a)).

(** [xor_bytes a k]: the bytes of [a], each added to the byte of [k] at
    its place (bytes of [a] beyond the end of [k] are kept). *)
Fixpoint xor_bytes (a k : list byte) : list byte :=
  match a, k with
  | x :: a', y :: k' => byte_xor x y :: xor_bytes a' k'
  | _, _ => a
  end.

Definition sbox_table : list byte :=
  [x63; x7c; x77; x7b; xf2; x6b; x6f; xc5; x30; x01; x67; x2b; xfe; xd7; xab; x76;
   xca; x82; xc9; x7d; xfa; x59; x47; xf0; xad; xd4; xa2; xaf; x9c; xa4; x72; xc0;
   xb7; xfd; x93; x26; x36; x3f; xf7; xcc; x34; xa5; xe5; xf1; x71; xd8; x31; x15;
   x04; xc7; x23; xc3; x18; x96; x05; x9a; x07; x12; x80; xe2; xeb; x27; xb2; x75;
   x09; x83; x2c; x1a; x1b; x6e; x5a; xa0; x52; x3b; xd6; xb3; x29; xe3; x2f; x84;
   x53; xd1; x00; xed; x20; xfc; xb1; x5b; x6a; xcb; xbe; x39; x4a; x4c; x58; xcf;
   xd0; xef; xaa; xfb; x43; x4d; x33; x85; x45; xf9; x02; x7f; x50; x3c; x9f; xa8;
   x51; xa3; x40; x8f; x92; x9d; x38; xf5; xbc; xb6; xda; x21; x10; xff; xf3; xd2;
   xcd; x0c; x13; xec; x5f; x97; x44; x17; xc4; xa7; x7e; x3d; x64; x5d; x19; x73;
   x60; x81; x4f; xdc; x22; x2a; x90; x88; x46; xee; xb8; x14; xde; x5e; x0b; xdb;
   xe0; x32; x3a; x0a; x49; x06; x24; x5c; xc2; xd3; xac; x62; x91; x95; xe4; x79;
   xe7; xc8; x37; x6d; x8d; xd5; x4e; xa9; x6c; x56; xf4; xea; x65; x7a; xae; x08;
   xba; x78; x25; x2e; x1c; xa6; xb4; xc6; xe8; xdd; x74; x1f; x4b; xbd; x8b; x8a;
   x70; x3e; xb5; x66; x48; x03; xf6; x0e; x61; x35; x57; xb9; x86; xc1; x1d; x9e;
   xe1; xf8; x98; x11; x69; xd9; x8e; x94; x9b; x1e; x87; xe9; xce; x55; x28; xdf;
   x8c; xa1; x89; x0d; xbf; xe6; x42; x68; x41; x99; x2d; x0f; xb0; x54; xbb; x16].

Definition inv_sbox_table : list byte :=
  [x52; x09; x6a; xd5; x30; x36; xa5; x38; xbf; x40; xa3; x9e; x81; xf3; xd7; xfb;
   x7c; xe3; x39; x82; x9b; x2f; xff; x87; x34; x8e; x43; x44; xc4; xde; xe9; xcb;
   x54; x7b; x94; x32; xa6; xc2; x23; x3d; xee; x4c; x95; x0b; x42; xfa; xc3; x4e;
   x08; x2e; xa1; x66; x28; xd9; x24; xb2; x76; x5b; xa2; x49; x6d; x8b; xd1; x25;
   x72; xf8; xf6; x64; x86; x68; x98; x16; xd4; xa4; x5c; xcc; x5d; x65; xb6; x92;
   x6c; x70; x48; x50; xfd; xed; xb9; xda; x5e; x15; x46; x57; xa7; x8d; x9d; x84;
   x90; xd8; xab; x00; x8c; xbc; xd3; x0a; xf7; xe4; x58; x05; xb8; xb3; x45; x06;
   xd0; x2c; x1e; x8f; xca; x3f; x0f; x02; xc1; xaf; xbd; x03; x01; x13; x8a; x6b;
   x3a; x91; x11; x41; x4f; x67; xdc; xea; x97; xf2; xcf; xce; xf0; xb4; xe6; x73;
   x96; xac; x74; x22; xe7; xad; x35; x85; xe2; xf9; x37; xe8; x1c; x75; xdf; x6e;
   x47; xf1; x1a; x71; x1d; x29; xc5; x89; x6f; xb7; x62; x0e; xaa; x18; xbe; x1b;
   xfc; x56; x3e; x4b; xc6; xd2; x79; x20; x9a; xdb; xc0; xfe; x78; xcd; x5a; xf4;
   x1f; xdd; xa8; x33; x88; x07; xc7; x31; xb1; x12; x10; x59; x27; x80; xec; x5f;
   x60; x51; x7f; xa9; x19; xb5; x4a; x0d; x2d; xe5; x7a; x9f; x93; xc9; x9c; xef;
   xa0; xe0; x3b; x4d; xae; x2a; xf5; xb0; xc8; xeb; xbb; x3c; x83; x53; x99; x61;
   x17; x2b; x04; x7e; xba; x77; xd6; x26; xe1; x69; x14; x63; x55; x21; x0c; x7d].

Definition sbox (b : byte) : byte := nth (N.to_nat (Byte.to_N b)) sbox_table x00.
Definition inv_sbox (b : byte) : byte :=
  nth (N.to_nat (Byte.to_N b)) inv_sbox_table x00.

(** The state is the block, column after column.  The four
    transformations of a round and their inverses. *)
Definition SubBytes (s : list byte) : list byte := map sbox s.
Definition InvSubBytes (s : list byte) : list byte := map inv_sbox s.

Definition ShiftRows (s : list byte) : list byte :=
  match s with
  | [s0; s1; s2; s3; s4; s5; s6; s7; s8; s9; s10; s11; s12; s13; s14; s15] =>
    [s0; s5; s10; s15; s4; s9; s14; s3; s8; s13; s2; s7; s12; s1; s6; s11]
  | _ => s
  end.

Definition InvShiftRows (s : list byte) : list byte :=
  match s with
  | [s0; s1; s2; s3; s4; s5; s6; s7; s8; s9; s10; s11; s12; s13; s14; s15] =>
    [s0; s13; s10; s7; s4; s1; s14; s11; s8; s5; s2; s15; s12; s9; s6; s3]
  | _ => s
  end.

Definition mul2 (a : byte) : byte := xtime a.
Definition mul3 (a : byte) : byte := byte_xor (xtime a) a.
Definition mul9 (a : byte) : byte := byte_xor (xtime (xtime (xtime a))) a.
Definition mul11 (a : byte) : byte :=
  byte_xor (byte_xor (xtime (xtime (xtime a))) (xtime a)) a.
Definition mul13 (a : byte) : byte :=
  byte_xor (byte_xor (xtime (xtime (xtime a))) (xtime (xtime a))) a.
Definition mul14 (a : byte) : byte :=
  byte_xor (byte_xor (xtime (xtime (xtime a))) (xtime (xtime a))) (xtime a).

Definition xor4 (a b c d : byte) : byte := byte_xor (byte_xor (byte_xor a b) c) d.

Definition mix_column (a0 a1 a2 a3 : byte) : list byte :=
  [xor4 (mul2 a0) (mul3 a1) a2 a3;
   xor4 a0 (mul2 a1) (mul3 a2) a3;
   xor4 a0 a1 (mul2 a2) (mul3 a3);
   xor4 (mul3 a0) a1 a2 (mul2 a3)].

Definition inv_mix_column (a0 a1 a2 a3 : byte) : list byte :=
  [xor4 (mul14 a0) (mul11 a1) (mul13 a2) (mul9 a3);
   xor4 (mul9 a0) (mul14 a1) (mul11 a2) (mul13 a3);
   xor4 (mul13 a0) (mul9 a1) (mul14 a2) (mul11 a3);
   xor4 (mul11 a0) (mul13 a1) (mul9 a2) (mul14 a3)].

Fixpoint MixColumns (s : list byte) : list byte :=
  match s with
  | a0 :: a1 :: a2 :: a3 :: s' => mix_column a0 a1 a2 a3 ++ MixColumns s'
  | _ => s
  end.

Fixpoint InvMixColumns (s : list byte) : list byte :=
  match s with
  | a0 :: a1 :: a2 :: a3 :: s' => inv_mix_column a0 a1 a2 a3 ++ InvMixColumns s'
  | _ => s
  end.

Definition AddRoundKey (s k : list byte) : list byte := xor_bytes s k.

(** The key schedule: [Nk] words of key are expanded to [4 * (Nr + 1)]
    words, [Nr = Nk + 6]; a round key is four words. *)
Definition RotWord (w : list byte) : list byte :=
  match w with
  | a :: w' => w' ++ [a]
  | [] => []
  end.

Definition SubWord (w : list byte) : list byte := map sbox w.

Fixpoint Rcon (i : nat) : byte :=
  match i with
  | O => x00
  | S O => x01
  | S i' => xtime (Rcon i')
  end.

Fixpoint chunks (size count : nat) (l : list byte) : list (list byte) :=
  match count with
  | O => []
  | S count' => firstn size l :: chunks size count' (skipn size l)
  end.

Fixpoint expand_words (count Nk : nat) (w : list (list byte)) : list (list byte) :=
  match count with
  | O => w
  | S count' =>
    let i := length w in
    let prev := nth (i - 1) w [] in
    let temp :=
      if (i mod Nk =? 0)%nat
      then xor_bytes (SubWord (RotWord prev)) [Rcon (i / Nk)]
      else if (6 <? Nk)%nat && (i mod Nk =? 4)%nat then SubWord prev
           else prev in
    expand_words count' Nk (w ++ [xor_bytes (nth (i - Nk) w []) temp])
  end.

Definition KeyExpansion (key : list byte) : list (list byte) :=
  let Nk := (length key / 4)%nat in
  let Nr := (Nk + 6)%nat in
  let w := expand_words (4 * (Nr + 1) - Nk) Nk (chunks 4 Nk key) in
  chunks 16 (Nr + 1) (concat w).

(** [Cipher] and [InvCipher], on the list of the round keys. *)
Fixpoint rounds (s : list byte) (keys : list (list byte)) : list byte :=
  match keys with
  | [] => s
  | [k] => AddRoundKey (ShiftRows (SubBytes s)) k
  | k :: keys' => rounds (AddRoundKey (MixColumns (ShiftRows (SubBytes s))) k) keys'
  end.

Definition Cipher (keys : list (list byte)) (block : list byte) : list byte :=
  match keys with
  | [] => block
  | k0 :: keys' => rounds (AddRoundKey block k0) keys'
  end.

Fixpoint inv_rounds (s : list byte) (keys : list (list byte)) : list byte :=
  match keys with
  | [] => s
  | [k] => InvSubBytes (InvShiftRows (AddRoundKey s k))
  | k :: keys' =>
    InvSubBytes (InvShiftRows (InvMixColumns (AddRoundKey (inv_rounds s keys') k)))
  end.

Definition InvCipher (keys : list (list byte)) (block : list byte) : list byte :=
  match keys with
  | [] => block
  | k0 :: keys' => AddRoundKey (inv_rounds block keys') k0
  end.

(** ** The ciphers of the platform that are modelled: AES in the modes ECB,
    CBC, CTR and GCM, as OpenSSL runs them for [createCipheriv] and
    [createDecipheriv] *)

Inductive aes_mode := ECB | CBC | CTR | GCM.

(** The names, with the number of bytes of the key. *)
Definition aes_names : list (string * (nat * aes_mode)) :=
  [("aes-128-ecb", (16, ECB)); ("aes-192-ecb", (24, ECB)); ("aes-256-ecb", (32, ECB));
   ("aes-128-cbc", (16, CBC)); ("aes-192-cbc", (24, CBC)); ("aes-256-cbc", (32, CBC));
   ("aes-128-ctr", (16, CTR)); ("aes-192-ctr", (24, CTR)); ("aes-256-ctr", (32, CTR));
   ("aes-128-gcm", (16, GCM)); ("aes-192-gcm", (24, GCM)); ("aes-256-gcm", (32, GCM))
  ]%string%nat.

Definition parse_algorithm (name : jsstring) : option (nat * aes_mode) :=
  option_map snd (find (fun entry => jsstring_eqb name (lit (fst entry))) aes_names).

(** *** The block modes: ECB and CBC, with PKCS#7 padding *)

(** What enters the block cipher (and what leaves the inverse cipher) is
    added to the previous block of ciphertext in CBC mode. *)
Definition chain (m : aes_mode) (block prev : list byte) : list byte :=
  match m with
  | CBC => xor_bytes block prev
  | _ => block
  end.

Fixpoint encrypt_blocks (m : aes_mode) (keys : list (list byte)) (n : nat)
         (prev data : list byte) : list byte * list byte :=
  match n with
  | O => ([], prev)
  | S n' =>
    let c := Cipher keys (chain m (firstn 16 data) prev) in
    let (out, last) := encrypt_blocks m keys n' c (skipn 16 data) in
    (c ++ out, last)
  end.

Fixpoint decrypt_blocks (m : aes_mode) (keys : list (list byte)) (n : nat)
         (prev data : list byte) : list byte * list byte :=
  match n with
  | O => ([], prev)
  | S n' =>
    let c := firstn 16 data in
    let p := chain m (InvCipher keys c) prev in
    let (out, last) := decrypt_blocks m keys n' c (skipn 16 data) in
    (p ++ out, last)
  end.

Definition byte_of_nat (n : nat) : byte := byte_of_N (N.of_nat n).
Definition nat_of_byte (b : byte) : nat := N.to_nat (Byte.to_N b).

(** *** The counter modes: CTR, and the encryption of GCM *)

(** A number, least significant byte first, plus one. *)
Fixpoint increment (l : list byte) : list byte :=
  match l with
  | [] => []
  | b :: l' =>
    if (Byte.to_N b =? 255)%N then x00 :: increment l'
    else byte_of_N (Byte.to_N b + 1) :: l'
  end.

(** The last [width] bytes of the counter block, as a number with the
    most significant byte first, plus one (modulo 256 ^ width). *)
Definition next_counter (width : nat) (counter : list byte) : list byte :=
  let fixed := (length counter - width)%nat in
  firstn fixed counter ++ rev (increment (rev (skipn fixed counter))).

(** The data added to the key stream; [keystream] is what is left of the
    last block of key stream. *)
Fixpoint stream_xor (width : nat) (keys : list (list byte))
         (counter keystream data : list byte)
  : list byte * (list byte * list byte) :=
  match data with
  | [] => ([], (counter, keystream))
  | b :: data' =>
    match keystream with
    | k :: keystream' =>
      let (out, st) := stream_xor width keys counter keystream' data' in
      (byte_xor b k :: out, st)
    | [] =>
      match Cipher keys counter with
      | k :: keystream' =>
        let (out, st) :=
          stream_xor width keys (next_counter width counter) keystream' data' in
        (byte_xor b k :: out, st)
      | [] =>
        let (out, st) := stream_xor width keys counter [] data' in
        (b :: out, st)
      end
    end
  end.

(** GCM (SP 800-38D): multiplication in GF(2^128), blocks read as
    numbers with the most significant byte first; [GHASH]; the counter
    block [J0] made from the vector. *)
Definition block_number (b : list byte) : N :=
  fold_left (fun acc x => (acc * 256 + Byte.to_N x)%N) b 0%N.

Fixpoint number_bytes (count : nat) (n : N) : list byte :=
  match count with
  | O => []
  | S count' => number_bytes count' (n / 256) ++ [byte_of_N n]
  end.

Fixpoint gf128_loop (bits : nat) (x z v : N) : N :=
  match bits with
  | O => z
  | S bits' =>
    let z' := if N.testbit x (N.of_nat bits') then N.lxor z v else z in
    let v' := if N.testbit v 0
              then N.lxor (N.shiftr v 1) (N.shiftl 225 120)
              else N.shiftr v 1 in
    gf128_loop bits' x z' v'
  end.

Definition gf128_mul (x y : N) : N := gf128_loop 128 x 0 y.

Fixpoint GHASH (H : N) (blocks : nat) (y : N) (data : list byte) : N :=
  match blocks with
  | O => y
  | S blocks' =>
    GHASH H blocks' (gf128_mul (N.lxor y (block_number (firstn 16 data))) H)
          (skipn 16 data)
  end.

Definition J0 (keys : list (list byte)) (iv : list byte) : list byte :=
  if (length iv =? 12)%nat then iv ++ [x00; x00; x00; x01]
  else
    let H := block_number (Cipher keys (repeat x00 16)) in
    let blocks := ((length iv + 15) / 16)%nat in
    let padded :=
      iv ++ repeat x00 (16 * blocks - length iv + 8)
         ++ number_bytes 8 (N.of_nat (8 * length iv)) in
    number_bytes 16 (GHASH H (blocks + 1) 0 padded).

(** *** The objects of [createCipheriv] and [createDecipheriv] *)

(** [position] is the previous block of ciphertext (CBC) or the counter
    block (CTR, GCM); [pending] is the input that waits for a full block
    (ECB, CBC) or the key stream that is left (CTR, GCM). *)
Record aes_cipher := {
  c_mode : aes_mode;
  c_keys : list (list byte);
  c_position : list byte;
  c_pending : list byte
}.

(** A decipher in a block mode keeps the last block it decrypted back
    for [final], which takes the padding off. *)
Record aes_decipher := {
  d_mode : aes_mode;
  d_keys : list (list byte);
  d_position : list byte;
  d_pending : list byte;
  d_held : list byte
}.

Definition counter_width (m : aes_mode) : nat :=
  match m with
  | GCM => 4
  | _ => 16
  end.

(** The checks of [createCipheriv]: the vector, then the key. *)
Definition aes_init (name : nat * aes_mode) (key iv : Buffer)
  : completion (aes_mode * list (list byte) * list byte) :=
  let (key_bytes, m) := name in
  let iv_bytes := match m with ECB => 0 | CBC | CTR => 16 | GCM => 12 end%nat in
  let authenticated := match m with GCM => true | _ => false end in
  let has_iv := negb (length iv =? 0)%nat in
  if negb has_iv && negb (iv_bytes =? 0)%nat then Throw Error_invalid_iv
  else if negb authenticated && has_iv && negb (length iv =? iv_bytes)%nat
  then Throw Error_invalid_iv
  else if negb (length key =? key_bytes)%nat then Throw Error_invalid_key_length
  else
    let keys := KeyExpansion key in
    Normal (m, keys,
            match m with
            | ECB => []
            | CBC | CTR => iv
            | GCM => next_counter 4 (J0 keys iv)
            end).

Definition aes_update_cipher (c : aes_cipher) (data : Buffer) : aes_cipher * Buffer :=
  match c_mode c with
  | ECB | CBC =>
    let all := c_pending c ++ data in
    let n := (length all / 16)%nat in
    let (out, last) := encrypt_blocks (c_mode c) (c_keys c) n (c_position c) all in
    ({| c_mode := c_mode c; c_keys := c_keys c; c_position := last;
        c_pending := skipn (16 * n) all |}, out)
  | CTR | GCM =>
    let '(out, (counter, keystream)) :=
      stream_xor (counter_width (c_mode c)) (c_keys c) (c_position c)
                 (c_pending c) data in
    ({| c_mode := c_mode c; c_keys := c_keys c; c_position := counter;
        c_pending := keystream |}, out)
  end.

(** In a block mode [final] pads what is pending to a full block, with
    bytes that all hold their number. *)
Definition aes_final_cipher (c : aes_cipher) : completion Buffer :=
  match c_mode c with
  | ECB | CBC =>
    let n := (16 - length (c_pending c))%nat in
    Normal (fst (encrypt_blocks (c_mode c) (c_keys c) 1 (c_position c)
                                (c_pending c ++ repeat (byte_of_nat n) n)))
  | CTR | GCM => Normal []
  end.

Definition aes_update_decipher (d : aes_decipher) (data : Buffer)
  : aes_decipher * Buffer :=
  match d_mode d with
  | ECB | CBC =>
    let all := d_pending d ++ data in
    let n := (length all / 16)%nat in
    let (out, last) := decrypt_blocks (d_mode d) (d_keys d) n (d_position d) all in
    let rest := skipn (16 * n) all in
    let ready := d_held d ++ out in
    let emitted :=
      match rest with
      | [] => (length ready - 16)%nat
      | _ :: _ => length ready
      end in
    ({| d_mode := d_mode d; d_keys := d_keys d; d_position := last;
        d_pending := rest; d_held := skipn emitted ready |},
     firstn emitted ready)
  | CTR | GCM =>
    let '(out, (counter, keystream)) :=
      stream_xor (counter_width (d_mode d)) (d_keys d) (d_position d)
                 (d_pending d) data in
    ({| d_mode := d_mode d; d_keys := d_keys d; d_position := counter;
        d_pending := keystream; d_held := [] |}, out)
  end.

(** In a block mode [final] wants a block kept back and nothing pending,
    and takes off the padding it finds well formed.  In GCM mode it
    wants the authentication tag, which only [setAuthTag] provides. *)
Definition aes_final_decipher (d : aes_decipher) : completion Buffer :=
  match d_mode d with
  | ECB | CBC =>
    if negb (length (d_pending d) =? 0)%nat || (length (d_held d) =? 0)%nat
    then Throw Error_wrong_final_block_length
    else
      let n := nat_of_byte (last (d_held d) x00) in
      if (n =? 0)%nat || (16 <? n)%nat then Throw Error_bad_decrypt
      else if forallb (fun b => (nat_of_byte b =? n)%nat) (skipn (16 - n) (d_held d))
           then Normal (firstn (16 - n) (d_held d))
           else Throw Error_bad_decrypt
  | CTR => Normal []
  | GCM => Throw Error_unable_to_authenticate
  end.

(** The suite: the AES modes above, and for every other name the
    ciphers [others] of the platform, about which nothing is assumed. *)
Definition openssl (others : cipher_suite) : cipher_suite :=
  {| cipher := aes_cipher + cipher others;
     createCipher := fun alg key iv =>
       match parse_algorithm alg with
       | Some name =>
         match aes_init name key iv with
         | Normal (m, keys, start) =>
           Normal (inl {| c_mode := m; c_keys := keys; c_position := start;
                          c_pending := [] |})
         | Throw e => Throw e
         end
       | None =>
         match createCipher others alg key iv with
         | Normal c => Normal (inr c)
         | Throw e => Throw e
         end
       end;
     updateCipher := fun c data =>
       match c with
       | inl a => let (a', out) := aes_update_cipher a data in (inl a', out)
       | inr o => let (o', out) := updateCipher others o data in (inr o', out)
       end;
     finalCipher := fun c =>
       match c with
       | inl a => aes_final_cipher a
       | inr o => finalCipher others o
       end;
     decipher := aes_decipher + decipher others;
     createDecipher := fun alg key iv =>
       match parse_algorithm alg with
       | Some name =>
         match aes_init name key iv with
         | Normal (m, keys, start) =>
           Normal (inl {| d_mode := m; d_keys := keys; d_position := start;
                          d_pending := []; d_held := [] |})
         | Throw e => Throw e
         end
       | None =>
         match createDecipher others alg key iv with
         | Normal c => Normal (inr c)
         | Throw e => Throw e
         end
       end;
     updateDecipher := fun c data =>
       match c with
       | inl a => let (a', out) := aes_update_decipher a data in (inl a', out)
       | inr o => let (o', out) := updateDecipher others o data in (inr o', out)
       end;
     finalDecipher := fun c =>
       match c with
       | inl a => aes_final_decipher a
       | inr o => finalDecipher others o
       end |}.

(** A platform with no cipher but the ones modelled. *)
Definition no_other_cipher : cipher_suite :=
  {| cipher := unit;
     createCipher := fun _ _ _ => Throw Error_unknown_cipher;
     updateCipher := fun c _ => (c, []);
     finalCipher := fun _ => Normal [];
     decipher := unit;
     createDecipher := fun _ _ _ => Throw Error_unknown_cipher;
     updateDecipher := fun c _ => (c, []);
     finalDecipher := fun _ => Normal [] |}.

Definition node_crypto : cipher_suite := openssl no_other_cipher.

(** The triples for which the round trip is claimed: an AES mode without
    authentication, a key of the size the name gives and a vector of the
    size of a block (none in ECB mode). *)
Definition unauthenticated_aes (alg : jsstring) (key iv : Buffer) : bool :=
  match parse_algorithm alg with
  | Some (key_bytes, ECB) => (length key =? key_bytes)%nat && (length iv =? 0)%nat
  | Some (key_bytes, (CBC | CTR)) =>
    (length key =? key_bytes)%nat && (length iv =? 16)%nat
  | Some (_, GCM) | None => false
  end.

(** A key, a vector and options to run the functions on. *)
Definition toy_algorithm : jsstring := lit "aes-256-cbc".
Definition toy_key : Buffer := Buffer_from (lit "abcdefghijklmnopqrstuvwxyzabcdef").
Definition toy_iv : Buffer := Buffer_from (lit "abcdefghijklmnop").



Definition bytes_of_hex (s : string) : Buffer := hex_decode (lit s).

(** What [update] and [final] of a fresh cipher return for one piece of
    data, and the same for a decipher. *)
Definition cipher_outputs (alg : string) (key iv data : Buffer)
  : completion (Buffer * completion Buffer) :=
  match createCipher node_crypto (lit alg) key iv with
  | Throw e => Throw e
  | Normal c =>
    let (c', out) := updateCipher node_crypto c data in
    Normal (out, finalCipher node_crypto c')
  end.

Definition decipher_outputs (alg : string) (key iv data : Buffer)
  : completion (Buffer * completion Buffer) :=
  match createDecipher node_crypto (lit alg) key iv with
  | Throw e => Throw e
  | Normal d =>
    let (d', out) := updateDecipher node_crypto d data in
    Normal (out, finalDecipher node_crypto d')
  end.

(** A payload is kept by an encoding when rendering its bytes gives it
    back. *)
Definition representable (x : jsstring) (enc : encoding) : Prop :=
  Buffer_toString (Buffer_from_encoded x enc) enc = x.

(** ** Notions used to state the round trips *)

(** Encodings that render every buffer by a text from which
    [Buffer.from] recovers it. *)
Definition binary_safe (enc : encoding) : bool :=
  match enc with
  | base64 | hex | latin1 => true
  | utf8 | ascii => false
  end.

(** Encodings that render an ASCII byte by the code unit of the same
    value. *)
Definition renders_ascii (enc : encoding) : bool :=
  match enc with
  | utf8 | latin1 | ascii => true
  | hex | base64 => false
  end.

Definition is_ascii (c : N) : bool := (c <? 128)%N.

(** The private exponent undoes the public one, modulo [n]. *)
Definition rsa_key_pair (n e d : Z) : Prop :=
  forall m, 0 <= m < n -> Zpow_mod (Zpow_mod m e n) d n = m.

(** ** A small machine to run the functions on *)

(** A 40-bit key pair: the modulus is 1048573 * 1048367. *)
Definition toy_n : Z := 1099289330291.
Definition toy_e : Z := 65537.
Definition toy_d : Z := 183133466801.

Definition toy_fs (path : jsstring) : option file :=
  if jsstring_eqb path (lit "pub.pem") then Some (PEM_public toy_n toy_e)
  else if jsstring_eqb path (lit "pri.pem") then Some (PEM_private toy_n toy_e toy_d)
  else None.

(** The base64 text of a 5-byte block encrypted under the toy key. *)
Definition toy_ciphertext (block : jsstring) : jsstring :=
  match publicEncrypt (PEM_public toy_n toy_e) RSA_NO_PADDING (Buffer_from block) with
  | Normal res => Buffer_toString res base64
  | Throw _ => []
  end.

Definition toy_decrypt_options (splitBar : jsstring) : rsaDecryptOptions :=
  {| dec_splitBar := splitBar; priKeyPath := lit "pri.pem";
     dec_outputEncoding := None; dec_inputEncoding := None |}.

Definition toy_encrypt_options (splitBar : jsstring) (keyLength : Q)
  : rsaEncryptOptions :=
  {| enc_splitBar := splitBar; pubKeyPath := lit "pub.pem";
     keyLength := keyLength; enc_outputEncoding := None |}.

(** A [Math.random] that walks through the alphabet. *)
Definition toy_random (k : nat) : Q := inject_Z (Z.of_nat (k mod 26)) / 26.

(** ** Key pairs that can be checked *)

Definition product (ps : list Z) : Z := fold_right Z.mul 1 ps.

(** The factors are listed in increasing order. *)
Fixpoint increasing (ps : list Z) : bool :=
  match ps with
  | [] => true
  | p :: rest =>
    match rest with
    | [] => true
    | q :: _ => (p <? q) && increasing rest
    end
  end.

(** [e d = 1] modulo [p - 1], for each prime factor [p] of the modulus. *)
Definition exponents_match (e d : Z) (ps : list Z) : bool :=
  (0 <? e * d) && forallb (fun p => (e * d - 1) mod (p - 1) =? 0) ps.

(** No number from 2 to the square root of [p] divides [p]. *)
Definition prime_by_trial (p : Z) : bool :=
  (1 <? p)
  && forallb (fun k => negb (p mod Z.of_nat k =? 0))
             (seq 2 (Z.to_nat (Z.sqrt p) - 1)).

(** A modulus of 2048 bits whose factors are small enough to be checked:
    the primes from 3 to 1459, and 5179. *)
Definition big_primes : list Z :=
  [3; 5; 7; 11; 13; 17; 19; 23; 29; 31; 37; 41; 43; 47; 53; 59; 61; 67;
   71; 73; 79; 83; 89; 97; 101; 103; 107; 109; 113; 127; 131; 137; 139;
   149; 151; 157; 163; 167; 173; 179; 181; 191; 193; 197; 199; 211; 223;
   227; 229; 233; 239; 241; 251; 257; 263; 269; 271; 277; 281; 283; 293;
   307; 311; 313; 317; 331; 337; 347; 349; 353; 359; 367; 373; 379; 383;
   389; 397; 401; 409; 419; 421; 431; 433; 439; 443; 449; 457; 461; 463;
   467; 479; 487; 491; 499; 503; 509; 521; 523; 541; 547; 557; 563; 569;
   571; 577; 587; 593; 599; 601; 607; 613; 617; 619; 631; 641; 643; 647;
   653; 659; 661; 673; 677; 683; 691; 701; 709; 719; 727; 733; 739; 743;
   751; 757; 761; 769; 773; 787; 797; 809; 811; 821; 823; 827; 829; 839;
   853; 857; 859; 863; 877; 881; 883; 887; 907; 911; 919; 929; 937; 941;
   947; 953; 967; 971; 977; 983; 991; 997; 1009; 1013; 1019; 1021; 1031;
   1033; 1039; 1049; 1051; 1061; 1063; 1069; 1087; 1091; 1093; 1097;
   1103; 1109; 1117; 1123; 1129; 1151; 1153; 1163; 1171; 1181; 1187;
   1193; 1201; 1213; 1217; 1223; 1229; 1231; 1237; 1249; 1259; 1277;
   1279; 1283; 1289; 1291; 1297; 1301; 1303; 1307; 1319; 1321; 1327;
   1361; 1367; 1373; 1381; 1399; 1409; 1423; 1427; 1429; 1433; 1439;
   1447; 1451; 1453; 1459; 5179].

Definition big_n : Z := product big_primes.
Definition big_e : Z := 65537.
Definition big_d : Z :=
  92728425100314011166183677531047813592268989427857682406365665228759626168332892057117924337768620303198983850403714848755523244647697865473.

Definition big_fs (path : jsstring) : option file :=
  if jsstring_eqb path (lit "pub.pem") then Some (PEM_public big_n big_e)
  else if jsstring_eqb path (lit "pri.pem") then Some (PEM_private big_n big_e big_d)
  else None.

(** The filler and the block of [rsaEncrypt] when there is room for the
    payload, in terms of the calls of [Math.random] that draw them. *)
Definition filler_bytes (Math_random : nat -> Q) (content : Buffer)
           (o : rsaEncryptOptions) (calls : nat) : Buffer :=
  map (letter_byte Math_random)
      (seq calls (Z.to_nat (Qfloor (restLength content o)))).

Definition padded_block (Math_random : nat -> Q) (content : Buffer)
           (o : rsaEncryptOptions) (calls : nat) : Buffer :=
  filler_bytes Math_random content o calls
  ++ Buffer_from (enc_splitBar o) ++ content.


(** * Properties *)

Lemma Qltb_lt (a b : Q) : Qltb a b = true <-> (a < b)%Q.
Proof.
  unfold Qltb. rewrite negb_true_iff.
  split; intro H.
  - apply Qnot_le_lt. intro Hle. apply Qle_bool_iff in Hle. congruence.
  - destruct (Qle_bool b a) eqn:E; [|reflexivity].
    apply Qle_bool_iff in E. exfalso. exact (Qlt_not_le _ _ H E).
Qed.

Lemma Qltb_ge (a b : Q) : Qltb a b = false <-> (b <= a)%Q.
Proof.
  unfold Qltb. rewrite negb_false_iff. apply Qle_bool_iff.
Qed.

(** ** Known values *)

Example split_two_segments :
  split (lit "abc||hello") (lit "||") = [lit "abc"; lit "hello"].
Proof. reflexivity. Qed.

Example split_three_bars :
  split (lit "abc|||hel") (lit "||") = [lit "abc"; lit "|hel"].
Proof. reflexivity. Qed.

Example split_trailing_separator :
  split (lit "a||b||") (lit "||") = [lit "a"; lit "b"; []].
Proof. reflexivity. Qed.

Example split_overlapping : split (lit "aaa") (lit "aa") = [[]; lit "a"].
Proof. reflexivity. Qed.

Example split_no_separator : split (lit "abc") (lit "||") = [lit "abc"].
Proof. reflexivity. Qed.

Example split_empty_text : split [] (lit "||") = [[]] /\ split [] [] = [].
Proof. split; reflexivity. Qed.

Example split_empty_separator :
  split (lit "abc") [] = [lit "a"; lit "b"; lit "c"].
Proof. reflexivity. Qed.

Example base64_hello :
  Buffer_toString (Buffer_from (lit "hello")) base64 = lit "aGVsbG8="
  /\ Buffer_from_encoded (lit "aGVsbG8=") base64 = Buffer_from (lit "hello").
Proof. split; reflexivity. Qed.

Example hex_hello :
  Buffer_toString (Buffer_from (lit "hello")) hex = lit "68656c6c6f"
  /\ Buffer_from_encoded (lit "68656C6c6f") hex = Buffer_from (lit "hello").
Proof. split; reflexivity. Qed.

(** U+00E9, U+20AC, U+1F600 as a surrogate pair, and a surrogate alone. *)
(** Of a code unit above 255 the low byte is read: U+0131 as [1],
    U+0151 as [Q]. *)
Example hex_low_byte :
  Buffer_from_encoded [305%N; 50%N] hex = [x12].
Proof. reflexivity. Qed.

Example base64_low_byte :
  Buffer_from_encoded [337%N; 81%N; 61%N; 61%N] base64
  = Buffer_from_encoded (lit "QQ==") base64.
Proof. reflexivity. Qed.

Example utf8_encode_known :
  Buffer_from [233; 8364; 55357; 56832; 55357]%N
  = [xc3; xa9; xe2; x82; xac; xf0; x9f; x98; x80; xef; xbf; xbd].
Proof. reflexivity. Qed.

Example utf8_decode_known :
  Buffer_toString [xc3; xa9; xe2; x82; xac; xf0; x9f; x98; x80] utf8
  = [233; 8364; 55357; 56832]%N
  /\ Buffer_toString [xff; x41; xe2; x82; x41; xc0; x80] utf8
     = [65533; 65; 65533; 65; 65533; 65533]%N.
Proof. split; reflexivity. Qed.

(** A fractional size: two bytes are allocated, three letters drawn. *)
Example getRandomBytes_fraction :
  getRandomBytes (fun _ => 0%Q) (5 # 2) 0%nat = Normal (["a"; "a"]%byte, 3%nat).
Proof. reflexivity. Qed.

(** ** Numbers *)

Lemma Qlt_ceiling_iff (count : Z) (length : Q) :
  (inject_Z count < length)%Q <-> count < Qceiling length.
Proof.
  split; intro H.
  - rewrite Zlt_Qlt. eapply Qlt_le_trans; [exact H|]. apply Qle_ceiling.
  - apply Qle_lt_trans with (inject_Z (Qceiling length - 1)).
    + rewrite <- Zle_Qle. lia.
    + apply Qceiling_lt.
Qed.

Lemma Qfloor_nonneg (q : Q) : (0 <= q)%Q -> 0 <= Qfloor q.
Proof.
  intro H. change 0 with (Qfloor (inject_Z 0)) at 1.
  apply Qfloor_resp_le. exact H.
Qed.

Lemma Qfloor_le_ceiling (q : Q) : Qfloor q <= Qceiling q.
Proof.
  rewrite Zle_Qle.
  apply Qle_trans with q; [apply Qfloor_le | apply Qle_ceiling].
Qed.

(** ** Strings and bytes *)

Lemma to_N_byte_of_N (n : N) : Byte.to_N (byte_of_N n) = (n mod 256)%N.
Proof.
  unfold byte_of_N.
  destruct (Byte.of_N (n mod 256)) as [b|] eqn:E.
  - apply Byte.to_of_N in E. exact E.
  - apply Byte.of_N_None_iff in E.
    pose proof (N.mod_upper_bound n 256). lia.
Qed.

Lemma byte_of_N_to_N (b : byte) : byte_of_N (Byte.to_N b) = b.
Proof.
  unfold byte_of_N.
  pose proof (Byte.to_N_bounded b) as Hb.
  rewrite N.mod_small by lia.
  rewrite Byte.of_to_N. reflexivity.
Qed.

Lemma nth_error_letters (k : nat) :
  (k < 26)%nat -> nth_error letters k = Some (97 + N.of_nat k)%N.
Proof.
  intro H.
  do 26 (destruct k as [|k]; [reflexivity|]).
  lia.
Qed.

Lemma index_string_letters (i : Z) :
  0 <= i < 26 -> index_string letters i = Str [(97 + Z.to_N i)%N].
Proof.
  intros [H0 H1]. unfold index_string.
  destruct (Z.ltb_spec i 0) as [Hneg|_]; [lia|].
  rewrite nth_error_letters by lia.
  rewrite Z_nat_N. reflexivity.
Qed.

(** ** Lists *)

Lemma firstn_seq_le (n m start : nat) :
  (n <= m)%nat -> firstn n (seq start m) = seq start n.
Proof.
  revert m start. induction n as [|n IH]; intros m start H; [reflexivity|].
  destruct m as [|m]; [lia|].
  cbn [seq firstn]. rewrite IH by lia. reflexivity.
Qed.

(** ** Writing ASCII text into a buffer *)

Lemma utf8_chunks_ascii (s : jsstring) :
  Forall (fun c => (c <? 128)%N = true) s ->
  utf8_chunks s = map (fun c => [byte_of_N c]) s.
Proof.
  induction 1 as [|c s Hc _ IH]; [reflexivity|].
  apply N.ltb_lt in Hc as Hlt.
  cbn [utf8_chunks map].
  assert (is_high_surrogate c = false) as ->.
  { unfold is_high_surrogate. apply andb_false_iff. left. apply N.leb_gt. lia. }
  assert (is_low_surrogate c = false) as ->.
  { unfold is_low_surrogate. apply andb_false_iff. left. apply N.leb_gt. lia. }
  unfold utf8_of_code_point. rewrite Hc, IH. reflexivity.
Qed.

Lemma utf8_fit_singletons {A} (f : A -> byte) (l : list A) (room : nat) :
  utf8_fit (map (fun c => [f c]) l) room = map f (firstn room l).
Proof.
  revert room. induction l as [|a l IH]; intro room.
  - destruct room; reflexivity.
  - destruct room as [|room]; [reflexivity|].
    cbn [map utf8_fit length firstn Nat.leb app Nat.sub].
    rewrite Nat.sub_0_r, IH. reflexivity.
Qed.

Lemma Buffer_write_ascii (buffer : Buffer) (str : jsstring) :
  Forall (fun c => (c <? 128)%N = true) str ->
  Buffer_write buffer str
  = map byte_of_N (firstn (length buffer) str)
    ++ skipn (length (map byte_of_N (firstn (length buffer) str))) buffer.
Proof.
  intro H. unfold Buffer_write.
  rewrite utf8_chunks_ascii by exact H.
  rewrite utf8_fit_singletons. reflexivity.
Qed.

Lemma utf8_encode_ascii (s : jsstring) :
  Forall (fun c => (c <? 128)%N = true) s ->
  utf8_encode s = map byte_of_N s.
Proof.
  intro H. unfold utf8_encode. rewrite utf8_chunks_ascii by exact H.
  induction s as [|c s IH]; [reflexivity|].
  cbn [map concat app]. f_equal. apply IH. inversion H; assumption.
Qed.

Lemma utf8_fit_length (chunks : list (list byte)) (room : nat) :
  (length (utf8_fit chunks room) <= room)%nat.
Proof.
  revert room. induction chunks as [|c cs IH]; intro room; cbn [utf8_fit].
  - cbn. lia.
  - destruct (Nat.leb_spec (length c) room) as [Hfit|Hno]; [|cbn; lia].
    rewrite length_app. specialize (IH (room - length c)%nat). lia.
Qed.

(** A write never changes the size of the buffer. *)
Lemma Buffer_write_length (buffer : Buffer) (str : jsstring) :
  length (Buffer_write buffer str) = length buffer.
Proof.
  unfold Buffer_write.
  pose proof (utf8_fit_length (utf8_chunks str) (length buffer)) as H.
  rewrite length_app, length_skipn. lia.
Qed.

(** ** Sizes that are whole numbers *)

Lemma Qdiv8_inject (n : Z) : (inject_Z (8 * n) / 8 == inject_Z n)%Q.
Proof.
  unfold Qdiv. change (/ 8)%Q with (1 # 8)%Q.
  unfold Qeq, Qmult, inject_Z. cbn [Qnum Qden Pos.mul]. lia.
Qed.

(** ** The filler generator *)

Section RandomSourceFacts.

Variable Math_random : nat -> Q.

(** With enough fuel the loop leaves by its condition: it has appended
    one unit per integer of [count, length). *)
Lemma getRandomString_loop_spec (fuel : nat) (length : Q) :
  forall (str : jsstring) (count : Z) (calls : nat),
    (Z.to_nat (Qceiling length - count) < fuel)%nat ->
    getRandomString_loop Math_random fuel length str count calls
    = (str ++ draws Math_random calls (Z.to_nat (Qceiling length - count)),
       (calls + Z.to_nat (Qceiling length - count))%nat).
Proof.
  induction fuel as [|fuel IH]; intros str count calls Hfuel; [lia|].
  cbn [getRandomString_loop].
  destruct (Qltb (inject_Z count) length) eqn:Hc.
  - apply Qltb_lt, Qlt_ceiling_iff in Hc.
    rewrite IH by lia.
    replace (Z.to_nat (Qceiling length - count))
      with (S (Z.to_nat (Qceiling length - (count + 1)))) by lia.
    unfold draws. cbn [seq flat_map].
    rewrite <- app_assoc. f_equal. lia.
  - apply Qltb_ge in Hc.
    assert (~ count < Qceiling length) as Hn.
    { intro Hlt. apply Qlt_ceiling_iff in Hlt.
      exact (Qlt_not_le _ _ Hlt Hc). }
    replace (Z.to_nat (Qceiling length - count)) with O by lia.
    unfold draws. cbn. rewrite app_nil_r. f_equal. lia.
Qed.

(** More fuel than the loop needs changes nothing. *)
Lemma getRandomString_loop_fuel (fuel extra : nat) (length : Q)
      (str : jsstring) (count : Z) (calls : nat) :
  (Z.to_nat (Qceiling length - count) < fuel)%nat ->
  getRandomString_loop Math_random (fuel + extra) length str count calls
  = getRandomString_loop Math_random fuel length str count calls.
Proof.
  intro H. rewrite !getRandomString_loop_spec by lia. reflexivity.
Qed.

Lemma getRandomString_spec (length : Q) (calls : nat) :
  getRandomString Math_random length calls
  = Normal (draws Math_random calls (Z.to_nat (Qceiling length)),
            (calls + Z.to_nat (Qceiling length))%nat).
Proof.
  unfold getRandomString.
  rewrite getRandomString_loop_spec by lia.
  rewrite Z.sub_0_r. reflexivity.
Qed.

(** Whatever [Math.random] returns, the buffer has the size asked for
    (rounded down). *)
Lemma getRandomBytes_length (size : Q) (calls : nat) :
  (0 <= size)%Q ->
  exists buffer,
    getRandomBytes Math_random size calls
    = Normal (buffer, (calls + Z.to_nat (Qceiling size))%nat)
    /\ length buffer = Z.to_nat (Qfloor size).
Proof.
  intro Hsize.
  unfold getRandomBytes, bind, lift, ret, Buffer_alloc.
  apply Qltb_ge in Hsize as Hge. rewrite Hge.
  rewrite getRandomString_spec.
  eexists. split; [reflexivity|].
  rewrite Buffer_write_length, repeat_length. reflexivity.
Qed.

Lemma getRandomBytes_negative (size : Q) (calls : nat) :
  (size < 0)%Q ->
  getRandomBytes Math_random size calls = Throw (RangeError_size size).
Proof.
  intro Hsize.
  unfold getRandomBytes, bind, lift, Buffer_alloc.
  apply Qltb_lt in Hsize. rewrite Hsize. reflexivity.
Qed.

Hypothesis Math_random_range : unit_interval Math_random.

Lemma letter_index_range (k : nat) : 0 <= Qfloor (Math_random k * 26) < 26.
Proof.
  destruct (Math_random_range k) as [H0 H1]. split.
  - apply Qfloor_nonneg. apply Qmult_le_0_compat; [exact H0|discriminate].
  - rewrite Zlt_Qlt.
    apply Qle_lt_trans with (Math_random k * 26)%Q; [apply Qfloor_le|].
    change (inject_Z 26) with (1 * 26)%Q.
    apply Qmult_lt_compat_r; [reflexivity|exact H1].
Qed.

Lemma drawn_letter (k : nat) :
  drawn Math_random k = [(97 + Z.to_N (Qfloor (Math_random k * 26)))%N].
Proof.
  unfold drawn. rewrite index_string_letters by apply letter_index_range.
  reflexivity.
Qed.

Lemma draws_letters (calls n : nat) :
  draws Math_random calls n
  = map (fun k => (97 + Z.to_N (Qfloor (Math_random k * 26)))%N) (seq calls n).
Proof.
  unfold draws. induction (seq calls n) as [|k l IH]; [reflexivity|].
  cbn [flat_map map]. rewrite drawn_letter, IH. reflexivity.
Qed.

(** The write of [getRandomBytes]: one byte per letter, as many letters
    as the buffer has room for. *)
Lemma getRandomBytes_spec (size : Q) (calls : nat) :
  (0 <= size)%Q ->
  getRandomBytes Math_random size calls
  = Normal (map (letter_byte Math_random) (seq calls (Z.to_nat (Qfloor size))),
            (calls + Z.to_nat (Qceiling size))%nat).
Proof.
  intro Hsize.
  unfold getRandomBytes, bind, lift, ret, Buffer_alloc.
  apply Qltb_ge in Hsize as Hge. rewrite Hge.
  rewrite getRandomString_spec, draws_letters.
  set (lc := Z.to_nat (Qceiling size)). set (lf := Z.to_nat (Qfloor size)).
  assert (lf <= lc)%nat as Hle.
  { pose proof (Qfloor_le_ceiling size). lia. }
  rewrite Buffer_write_ascii.
  - rewrite repeat_length, skipn_all2.
    2:{ rewrite length_map, length_firstn, length_map, length_seq, repeat_length.
        lia. }
    rewrite app_nil_r, firstn_map, firstn_seq_le by exact Hle.
    rewrite map_map. reflexivity.
  - apply Forall_forall. intros c Hc. apply in_map_iff in Hc.
    destruct Hc as [k [<- _]].
    pose proof (letter_index_range k). apply N.ltb_lt. lia.
Qed.

Lemma letter_byte_is_letter (k : nat) :
  is_lower_letter_byte (letter_byte Math_random k) = true.
Proof.
  unfold is_lower_letter_byte, letter_byte, is_lower_letter.
  rewrite to_N_byte_of_N.
  pose proof (letter_index_range k) as H.
  rewrite N.mod_small by lia.
  apply andb_true_iff. split; apply N.leb_le; lia.
Qed.

End RandomSourceFacts.

(** C6. For every non-negative integer [size], [getRandomBytes(size)]
    returns a buffer of exactly [size] bytes, each of them one of the 26
    lowercase ASCII letters (the letters drawn by the [size] calls of
    [Math.random] it makes); for [size = 0] it returns the empty buffer
    and throws nothing. *)
Theorem getRandomBytes_exact_size_letters
        (Math_random : nat -> Q) (size calls : nat) :
  unit_interval Math_random ->
  let buffer := map (letter_byte Math_random) (seq calls size) in
  getRandomBytes Math_random (inject_Z (Z.of_nat size)) calls
  = Normal (buffer, (calls + size)%nat)
  /\ length buffer = size
  /\ Forall (fun b => is_lower_letter_byte b = true) buffer
  /\ getRandomBytes Math_random 0 calls = Normal ([], calls).
Proof.
  intros Hrange buffer. subst buffer.
  assert (forall n : nat,
             getRandomBytes Math_random (inject_Z (Z.of_nat n)) calls
             = Normal (map (letter_byte Math_random) (seq calls n),
                       (calls + n)%nat)) as Hrun.
  { intro n. rewrite getRandomBytes_spec.
    - rewrite Qfloor_Z, Qceiling_Z, Nat2Z.id. reflexivity.
    - exact Hrange.
    - change 0%Q with (inject_Z 0). rewrite <- Zle_Qle. lia. }
  split; [apply Hrun|].
  split; [rewrite length_map, length_seq; reflexivity|].
  split.
  - apply Forall_forall. intros b Hb. apply in_map_iff in Hb.
    destruct Hb as [k [<- _]]. apply letter_byte_is_letter. exact Hrange.
  - specialize (Hrun O). cbn [seq map] in Hrun. rewrite Nat.add_0_r in Hrun.
    exact Hrun.
Qed.

Lemma getRandomBytes_exact_size_letters_witness :
  unit_interval (fun _ => 1 # 2)%Q /\
  getRandomBytes (fun _ => 1 # 2)%Q 3%Q 0%nat
  = Normal (["n"; "n"; "n"]%byte, 3%nat).
Proof.
  assert (unit_interval (fun _ => 1 # 2)%Q) as H.
  { intro k. split; [discriminate|reflexivity]. }
  split; [exact H|].
  exact (proj1 (getRandomBytes_exact_size_letters (fun _ => 1 # 2)%Q 3%nat 0%nat H)).
Defined.

(** C7. For every [keyLength] that is a multiple of 8, [genAESKeyAndIv]
    returns a key of exactly [keyLength / 8] bytes and an initialization
    vector of exactly 16 bytes; with the default [keyLength] of 256 the
    key has 32 bytes, and for 128 it has 16. *)
Theorem genAESKeyAndIv_sizes (Math_random : nat -> Q) (n calls : nat) :
  (exists res calls',
      genAESKeyAndIv Math_random (Some (inject_Z (8 * Z.of_nat n))) calls
      = Normal (res, calls')
      /\ length (key res) = n /\ length (iv res) = 16%nat)
  /\ (exists res calls',
         genAESKeyAndIv Math_random None calls = Normal (res, calls')
         /\ length (key res) = 32%nat /\ length (iv res) = 16%nat)
  /\ (exists res calls',
         genAESKeyAndIv Math_random (Some 128%Q) calls = Normal (res, calls')
         /\ length (key res) = 16%nat /\ length (iv res) = 16%nat).
Proof.
  assert (forall (keyLength : Q) (m : nat),
             (keyLength / 8 == inject_Z (Z.of_nat m))%Q ->
             exists res calls',
               genAESKeyAndIv Math_random (Some keyLength) calls
               = Normal (res, calls')
               /\ length (key res) = m /\ length (iv res) = 16%nat) as Hgen.
  { intros keyLength m Hm.
    assert (0 <= keyLength / 8)%Q as Hpos.
    { rewrite Hm. change 0%Q with (inject_Z 0). rewrite <- Zle_Qle. lia. }
    unfold genAESKeyAndIv, bind.
    destruct (getRandomBytes_length Math_random (keyLength / 8) calls Hpos)
      as [k [-> Hk]].
    assert (0 <= 128 / 8)%Q as Hpos16 by discriminate.
    destruct (getRandomBytes_length Math_random (128 / 8)
                (calls + Z.to_nat (Qceiling (keyLength / 8))) Hpos16)
      as [i [-> Hi]].
    unfold ret. eexists. eexists. split; [reflexivity|]. cbn [key iv].
    split; [|exact Hi].
    rewrite Hk, Hm, Qfloor_Z, Nat2Z.id. reflexivity. }
  split; [|split].
  - apply Hgen. apply Qdiv8_inject.
  - apply (Hgen 256%Q 32%nat). reflexivity.
  - apply (Hgen 128%Q 16%nat). reflexivity.
Qed.

(** ** Splitting a text on a separator *)

Lemma prefixb_app (R post : jsstring) : prefixb R (R ++ post) = true.
Proof.
  induction R as [|r R IH]; [reflexivity|].
  cbn [prefixb app]. rewrite N.eqb_refl, IH. reflexivity.
Qed.

Lemma prefixb_true (R S : jsstring) :
  prefixb R S = true -> S = R ++ skipn (length R) S.
Proof.
  revert S. induction R as [|r R IH]; intros S H; [reflexivity|].
  destruct S as [|c S]; [discriminate|].
  cbn [prefixb] in H. apply andb_true_iff in H. destruct H as [Hrc HR].
  apply N.eqb_eq in Hrc. subst c.
  cbn [app length skipn]. f_equal. apply IH. exact HR.
Qed.

Lemma prefixb_false_at_head (R S : jsstring) :
  prefixb R S = false -> forall post, S <> R ++ post.
Proof.
  intros H post ->. rewrite prefixb_app in H. discriminate.
Qed.

Lemma occurs_head (R S : jsstring) : prefixb R S = true -> occurs R S.
Proof.
  intro H. exists [], (skipn (length R) S). apply prefixb_true. exact H.
Qed.

Lemma occurs_cons (R S : jsstring) (c : N) : occurs R S -> occurs R (c :: S).
Proof.
  intros [pre [post ->]]. exists (c :: pre), post. reflexivity.
Qed.

Lemma occurs_cons_inv (R S : jsstring) (c : N) :
  occurs R (c :: S) -> prefixb R (c :: S) = false -> occurs R S.
Proof.
  intros [pre [post H]] Hp.
  destruct pre as [|c' pre].
  - exfalso. cbn [app] in H. rewrite H, prefixb_app in Hp. discriminate.
  - cbn [app] in H. injection H as _ ->. exists pre, post. reflexivity.
Qed.

Lemma after_first_None_iff (R S : jsstring) :
  after_first R S = None <-> ~ occurs R S.
Proof.
  induction S as [|c S IH]; cbn [after_first].
  - destruct R as [|r R]; cbn [prefixb]; split; intro H.
    + discriminate.
    + exfalso. apply H. exists [], []. reflexivity.
    + intros [pre [post Hocc]]. destruct pre; discriminate.
    + reflexivity.
  - destruct (prefixb R (c :: S)) eqn:Hp; split; intro H.
    + discriminate.
    + exfalso. apply H. apply occurs_head. exact Hp.
    + intro Hocc. apply IH in H. apply H.
      exact (occurs_cons_inv _ _ _ Hocc Hp).
    + apply IH. intro Hocc. apply H. apply occurs_cons. exact Hocc.
Qed.

Lemma before_first_no_occurrence (R S : jsstring) :
  ~ occurs R S -> before_first R S = S.
Proof.
  induction S as [|c S IH]; intro H; [reflexivity|].
  cbn [before_first].
  destruct (prefixb R (c :: S)) eqn:Hp.
  - exfalso. apply H. apply occurs_head. exact Hp.
  - f_equal. apply IH. intro Hocc. apply H. apply occurs_cons. exact Hocc.
Qed.

(** [after_first] and [before_first] cut the text at one occurrence... *)
Lemma after_first_Some (R S rest : jsstring) :
  after_first R S = Some rest -> S = before_first R S ++ R ++ rest.
Proof.
  revert rest. induction S as [|c S IH]; intros rest H; cbn [after_first] in H.
  - destruct R as [|r R]; cbn [prefixb] in H; [|discriminate].
    injection H as <-. reflexivity.
  - cbn [before_first].
    destruct (prefixb R (c :: S)) eqn:Hp.
    + injection H as <-. cbn [app]. apply prefixb_true. exact Hp.
    + cbn [app]. f_equal. apply IH. exact H.
Qed.

(** ... and this occurrence is the first one. *)
Lemma before_first_minimal (R pre post : jsstring) :
  (length (before_first R (pre ++ R ++ post)) <= length pre)%nat.
Proof.
  induction pre as [|c pre IH].
  - cbn [app]. destruct (R ++ post) as [|c S] eqn:E; [cbn; lia|].
    cbn [before_first]. rewrite <- E, prefixb_app. cbn. lia.
  - cbn [app before_first].
    destruct (prefixb R (c :: pre ++ R ++ post)); cbn [length]; lia.
Qed.

Lemma before_first_shorter (R S : jsstring) :
  R <> [] -> occurs R S -> (length (before_first R S) < length S)%nat.
Proof.
  intros HR [pre [post ->]].
  pose proof (before_first_minimal R pre post) as H.
  rewrite !length_app. destruct R as [|r R]; [congruence|]. cbn [length]. lia.
Qed.

Lemma split_scan_skip (R pre S cur : jsstring) :
  split_scan R (length pre) cur (pre ++ S) = split_scan R 0 cur S.
Proof.
  induction pre as [|c pre IH]; [destruct S; reflexivity|].
  cbn [length app split_scan]. exact IH.
Qed.

(** The scan, in terms of the first occurrence of the separator. *)
Lemma split_scan_spec (R : jsstring) :
  R <> [] ->
  forall S cur,
    split_scan R 0 cur S
    = match after_first R S with
      | None => [cur ++ S]
      | Some rest => (cur ++ before_first R S) :: split_scan R 0 [] rest
      end.
Proof.
  intros HR S.
  induction S as [|c S IH]; intro cur.
  - destruct R as [|r R]; [congruence|]. cbn. rewrite app_nil_r. reflexivity.
  - cbn [split_scan after_first before_first].
    destruct (prefixb R (c :: S)) eqn:Hp.
    + rewrite app_nil_r. f_equal.
      destruct R as [|r R]; [congruence|].
      apply prefixb_true in Hp. cbn [length skipn app] in Hp |- *.
      injection Hp as _ HS.
      replace (Datatypes.S (length R) - 1)%nat with (length R) by lia.
      rewrite HS at 1. apply split_scan_skip.
    + rewrite IH. destruct (after_first R S) as [rest|].
      * rewrite <- app_assoc. reflexivity.
      * rewrite <- app_assoc. reflexivity.
Qed.

Lemma split_scan_head (R S cur : jsstring) :
  R <> [] ->
  exists tail, split_scan R 0 cur S = (cur ++ before_first R S) :: tail.
Proof.
  intro HR. rewrite split_scan_spec by exact HR.
  destruct (after_first R S) as [rest|] eqn:E.
  - eexists. reflexivity.
  - exists []. rewrite before_first_no_occurrence; [reflexivity|].
    apply after_first_None_iff. exact E.
Qed.

(** Index 1 of the split, for a separator that is not empty. *)
Lemma split_index_1 (S R : jsstring) :
  R <> [] ->
  index_array (split S R) 1
  = match after_first R S with
    | None => Undefined
    | Some rest => Str (before_first R rest)
    end.
Proof.
  intro HR.
  assert (split S R = split_scan R 0 [] S) as ->
      by (destruct R; [congruence|reflexivity]).
  rewrite split_scan_spec by exact HR.
  destruct (after_first R S) as [rest|]; [|reflexivity].
  destruct (split_scan_head R rest [] HR) as [tail ->].
  reflexivity.
Qed.

(** Index 1 of the split on the empty separator. *)
Lemma split_empty_index_1 (S : jsstring) :
  index_array (split S []) 1
  = match nth_error S 1 with
    | Some c => Str [c]
    | None => Undefined
    end.
Proof.
  unfold split, index_array. rewrite nth_error_map.
  destruct (nth_error S 1); reflexivity.
Qed.

(** ** [rsaDecrypt]: what is returned for a decrypted text *)

Section RSADecryptFacts.

Variable fs : jsstring -> option file.

Lemma rsaDecrypt_text (content : jsstring) (o : rsaDecryptOptions) (text : jsstring) :
  decryptedData fs content o = Normal text ->
  rsaDecrypt fs content o = Normal (index_array (split text (dec_splitBar o)) 1).
Proof.
  intro H. unfold rsaDecrypt. rewrite H. reflexivity.
Qed.

End RSADecryptFacts.

(** An empty ciphertext is refused by the primitive. *)
Example rsaDecrypt_empty_content :
  rsaDecrypt toy_fs [] (toy_decrypt_options (lit "|")) = Throw Error_data_too_small.
Proof. reflexivity. Qed.

Example toy_decryptedData :
  decryptedData toy_fs (toy_ciphertext (lit "ab|cd")) (toy_decrypt_options (lit "|"))
  = Normal (lit "ab|cd").
Proof. vm_compute. reflexivity. Qed.

(** When the delimiter does not occur in the decrypted text,
    [rsaDecrypt] throws nothing: the split has a single segment, index 1
    is out of range and the function returns [undefined]. *)
Theorem rsaDecrypt_delimiter_missing
        (fs : jsstring -> option file) (content : jsstring)
        (o : rsaDecryptOptions) (text : jsstring) :
  decryptedData fs content o = Normal text ->
  ~ occurs (dec_splitBar o) text ->
  rsaDecrypt fs content o = Normal Undefined.
Proof.
  intros Htext Hno.
  rewrite (rsaDecrypt_text fs content o text Htext).
  assert (dec_splitBar o <> []) as HR.
  { intro E. apply Hno. rewrite E. exists [], text. reflexivity. }
  rewrite split_index_1 by exact HR.
  apply after_first_None_iff in Hno. rewrite Hno. reflexivity.
Qed.

Lemma toy_random_range : unit_interval toy_random.
Proof.
  intro k. unfold toy_random.
  pose proof (Nat.mod_upper_bound k 26) as H.
  assert (0 <= Z.of_nat (k mod 26) < 26) as Hz by lia.
  destruct Hz as [H0 H1].
  unfold Qdiv. change (/ 26)%Q with (1 # 26)%Q.
  split.
  - unfold Qle, Qmult, inject_Z. cbn [Qnum Qden]. lia.
  - unfold Qlt, Qmult, inject_Z. cbn [Qnum Qden Pos.mul]. lia.
Qed.

Lemma toy_no_delimiter : ~ occurs (lit "||") (lit "ab|cd").
Proof. apply after_first_None_iff. reflexivity. Qed.

Lemma rsaDecrypt_delimiter_missing_witness :
  rsaDecrypt toy_fs (toy_ciphertext (lit "ab|cd")) (toy_decrypt_options (lit "||"))
  = Normal Undefined.
Proof.
  apply (rsaDecrypt_delimiter_missing toy_fs _ (toy_decrypt_options (lit "||"))
           (lit "ab|cd")).
  - vm_compute. reflexivity.
  - exact toy_no_delimiter.
Defined.

(** C3.  [rsaDecrypt] where the delimiter is missing from the decrypted
    text: the block [ab|cd] encrypted under the 40-bit key, decrypted
    with the delimiter [||].  The call throws nothing and returns
    [undefined], where the claim asks for an error and the documentation
    of the function promises a String. *)
Lemma rsaDecrypt_no_decode_error :
  decryptedData toy_fs (toy_ciphertext (lit "ab|cd")) (toy_decrypt_options (lit "||"))
  = Normal (lit "ab|cd")
  /\ ~ occurs (lit "||") (lit "ab|cd")
  /\ rsaDecrypt toy_fs (toy_ciphertext (lit "ab|cd")) (toy_decrypt_options (lit "||"))
     = Normal Undefined
  /\ forall e,
      rsaDecrypt toy_fs (toy_ciphertext (lit "ab|cd")) (toy_decrypt_options (lit "||"))
      <> Throw e.
Proof.
  split; [vm_compute; reflexivity|].
  split; [exact toy_no_delimiter|].
  split; [vm_compute; reflexivity|].
  intros e H. vm_compute in H. discriminate.
Qed.

(** C4. When the decrypted text contains the delimiter, [rsaDecrypt]
    returns index 1 of the split.  With the text cut at the first
    occurrence of the delimiter, into [first ++ splitBar ++ rest], what is
    returned is the segment of [rest] that ends at the next occurrence of
    the delimiter, if there is one.  It is the whole of [rest] only when
    the delimiter does not occur again; when it does, what is returned is
    strictly shorter. *)
Theorem rsaDecrypt_segment_after_first_delimiter
        (fs : jsstring -> option file) (content : jsstring)
        (o : rsaDecryptOptions) (text : jsstring) :
  decryptedData fs content o = Normal text ->
  dec_splitBar o <> [] ->
  occurs (dec_splitBar o) text ->
  exists first rest,
    text = first ++ dec_splitBar o ++ rest
    /\ (forall pre post,
          text = pre ++ dec_splitBar o ++ post -> (length first <= length pre)%nat)
    /\ rsaDecrypt fs content o = Normal (index_array (split text (dec_splitBar o)) 1)
    /\ rsaDecrypt fs content o = Normal (Str (before_first (dec_splitBar o) rest))
    /\ (~ occurs (dec_splitBar o) rest ->
        before_first (dec_splitBar o) rest = rest)
    /\ (occurs (dec_splitBar o) rest ->
        (length (before_first (dec_splitBar o) rest) < length rest)%nat).
Proof.
  intros Htext HR Hocc.
  pose proof (rsaDecrypt_text fs content o text Htext) as Hrun.
  destruct (after_first (dec_splitBar o) text) as [rest|] eqn:Hafter.
  2:{ exfalso. apply after_first_None_iff in Hafter. exact (Hafter Hocc). }
  exists (before_first (dec_splitBar o) text), rest.
  split; [apply after_first_Some; exact Hafter|].
  split; [intros pre post ->; apply before_first_minimal|].
  split; [exact Hrun|].
  split.
  - rewrite Hrun, split_index_1 by exact HR. rewrite Hafter. reflexivity.
  - split.
    + apply before_first_no_occurrence.
    + apply before_first_shorter. exact HR.
Qed.

Lemma rsaDecrypt_segment_after_first_delimiter_witness :
  exists first rest,
    lit "a|b|c" = first ++ lit "|" ++ rest
    /\ (forall pre post,
          lit "a|b|c" = pre ++ lit "|" ++ post -> (length first <= length pre)%nat)
    /\ rsaDecrypt toy_fs (toy_ciphertext (lit "a|b|c")) (toy_decrypt_options (lit "|"))
       = Normal (index_array (split (lit "a|b|c") (lit "|")) 1)
    /\ rsaDecrypt toy_fs (toy_ciphertext (lit "a|b|c")) (toy_decrypt_options (lit "|"))
       = Normal (Str (before_first (lit "|") rest))
    /\ (~ occurs (lit "|") rest -> before_first (lit "|") rest = rest)
    /\ (occurs (lit "|") rest ->
        (length (before_first (lit "|") rest) < length rest)%nat).
Proof.
  apply (rsaDecrypt_segment_after_first_delimiter toy_fs
           (toy_ciphertext (lit "a|b|c")) (toy_decrypt_options (lit "|"))
           (lit "a|b|c")).
  - vm_compute. reflexivity.
  - discriminate.
  - exists (lit "a"), (lit "b|c"). reflexivity.
Defined.

(** On that text the segment returned is [b], not the remainder [b|c]. *)
Example rsaDecrypt_truncates :
  rsaDecrypt toy_fs (toy_ciphertext (lit "a|b|c")) (toy_decrypt_options (lit "|"))
  = Normal (Str (lit "b")).
Proof. vm_compute. reflexivity. Qed.

(** C10. With the empty string as delimiter and a decrypted text of at
    least two code units, [rsaDecrypt] returns the second code unit of
    the text, as a string of length one. *)
Theorem rsaDecrypt_empty_delimiter
        (fs : jsstring -> option file) (content : jsstring)
        (o : rsaDecryptOptions) (text : jsstring) :
  decryptedData fs content o = Normal text ->
  dec_splitBar o = [] ->
  (2 <= length text)%nat ->
  exists c, nth_error text 1 = Some c
            /\ split text [] = map (fun u => [u]) text
            /\ rsaDecrypt fs content o = Normal (Str [c]).
Proof.
  intros Htext HR Hlen.
  destruct (nth_error text 1) as [c|] eqn:Hc.
  - exists c. split; [reflexivity|]. split; [reflexivity|].
    rewrite (rsaDecrypt_text fs content o text Htext), HR.
    rewrite split_empty_index_1, Hc. reflexivity.
  - apply nth_error_None in Hc. lia.
Qed.

Lemma rsaDecrypt_empty_delimiter_witness :
  exists c, nth_error (lit "ab|cd") 1 = Some c
            /\ split (lit "ab|cd") [] = map (fun u => [u]) (lit "ab|cd")
            /\ rsaDecrypt toy_fs (toy_ciphertext (lit "ab|cd"))
                          (toy_decrypt_options []) = Normal (Str [c]).
Proof.
  apply (rsaDecrypt_empty_delimiter toy_fs (toy_ciphertext (lit "ab|cd"))
           (toy_decrypt_options []) (lit "ab|cd")).
  - vm_compute. reflexivity.
  - reflexivity.
  - cbn. lia.
Defined.

(** ** The bytes of a delimiter *)

Lemma high_bit_byte (k x : N) :
  N.testbit k 7 = true -> (128 <= Byte.to_N (byte_of_N (N.lor k x)))%N.
Proof.
  intro Hk. rewrite to_N_byte_of_N.
  assert (N.testbit (N.lor k x mod 2 ^ 8) 7 = true) as Hbit.
  { rewrite N.mod_pow2_bits_low by lia.
    rewrite N.lor_spec, Hk. reflexivity. }
  apply N.testbit_true in Hbit.
  change (2 ^ 8)%N with 256%N in Hbit. change (2 ^ 7)%N with 128%N in Hbit.
  pose proof (N.mod_upper_bound (N.lor k x) 256) as Hlt.
  destruct (N.le_gt_cases 128 (N.lor k x mod 256)) as [Hle|Hgt]; [exact Hle|].
  rewrite N.div_small in Hbit by exact Hgt. discriminate.
Qed.

Lemma high_byte_not_letter (b : byte) :
  (128 <= Byte.to_N b)%N -> not_letter_byte b.
Proof.
  intro H. unfold not_letter_byte, is_lower_letter_byte, is_lower_letter.
  apply andb_false_iff. right. apply N.leb_gt. lia.
Qed.

(** Beyond ASCII every byte of a character has its high bit set. *)
Lemma utf8_of_code_point_high (cp : N) :
  (128 <= cp)%N -> Forall not_letter_byte (utf8_of_code_point cp).
Proof.
  intro H. unfold utf8_of_code_point.
  destruct (N.ltb_spec cp 128) as [Hlt|_]; [lia|].
  destruct (cp <? 2048)%N; [|destruct (cp <? 65536)%N];
    repeat constructor; apply high_byte_not_letter, high_bit_byte; reflexivity.
Qed.

Lemma utf8_of_code_point_nonempty (cp : N) : utf8_of_code_point cp <> [].
Proof.
  unfold utf8_of_code_point.
  destruct (cp <? 128)%N; [|destruct (cp <? 2048)%N; [|destruct (cp <? 65536)%N]];
    discriminate.
Qed.

Lemma Forall_Exists_nonempty {A} (Q : A -> Prop) (l : list A) :
  l <> [] -> Forall Q l -> Exists Q l.
Proof.
  intros Hl H. destruct H as [|a l Ha _]; [congruence|].
  constructor. exact Ha.
Qed.

Lemma utf8_replacement_high : Forall not_letter_byte utf8_replacement.
Proof. repeat constructor. Qed.

(** The bytes of a code unit that is no letter contain a byte that is no
    letter. *)
Lemma utf8_of_code_point_not_letter (c : N) :
  is_lower_letter c = false -> Exists not_letter_byte (utf8_of_code_point c).
Proof.
  intro Hc.
  destruct (N.lt_ge_cases c 128) as [Hlt|Hge].
  - unfold utf8_of_code_point. apply N.ltb_lt in Hlt as Hb. rewrite Hb.
    constructor. unfold not_letter_byte, is_lower_letter_byte.
    rewrite to_N_byte_of_N, N.mod_small by lia. exact Hc.
  - apply Forall_Exists_nonempty;
      [apply utf8_of_code_point_nonempty|apply utf8_of_code_point_high; exact Hge].
Qed.

Lemma surrogate_not_letter (c : N) :
  is_high_surrogate c = true \/ is_low_surrogate c = true ->
  is_lower_letter c = false.
Proof.
  unfold is_high_surrogate, is_low_surrogate, is_lower_letter.
  intros [H|H]; apply andb_true_iff in H; destruct H as [H _];
    apply N.leb_le in H; apply andb_false_iff; right; apply N.leb_gt; lia.
Qed.

Lemma utf8_chunks_not_letter (n : nat) :
  forall s : jsstring,
    (length s <= n)%nat ->
    Exists (fun c => is_lower_letter c = false) s ->
    Exists not_letter_byte (utf8_encode s).
Proof.
  unfold utf8_encode.
  induction n as [|n IH]; intros s Hlen Hex.
  - destruct s; [inversion Hex|cbn in Hlen; lia].
  - destruct s as [|c s]; [inversion Hex|].
    cbn [length] in Hlen. cbn [utf8_chunks].
    destruct (is_high_surrogate c) eqn:Hhi.
    + destruct s as [|d s].
      * cbn. constructor. apply high_byte_not_letter. cbn. lia.
      * destruct (is_low_surrogate d) eqn:Hlo; cbn [concat]; apply Exists_app; left.
        -- apply Forall_Exists_nonempty;
             [apply utf8_of_code_point_nonempty|apply utf8_of_code_point_high; lia].
        -- constructor. apply high_byte_not_letter. cbn. lia.
    + destruct (is_low_surrogate c) eqn:Hlo; cbn [concat]; apply Exists_app.
      * left. constructor. apply high_byte_not_letter. cbn. lia.
      * inversion Hex as [? ? Hc|? ? Hs]; subst.
        -- left. apply utf8_of_code_point_not_letter. exact Hc.
        -- right. apply IH; [lia|exact Hs].
Qed.

Lemma Buffer_from_not_letter (s : jsstring) :
  Exists (fun c => is_lower_letter c = false) s ->
  Exists not_letter_byte (Buffer_from s).
Proof.
  apply (utf8_chunks_not_letter (length s)). lia.
Qed.

(** ** A delimiter behind a filler of letters *)

Section FirstOccurrence.

Context {A : Type} (P : A -> Prop).

Lemma Exists_first_split (l : list A) :
  (forall a, P a \/ ~ P a) ->
  Exists (fun a => ~ P a) l ->
  exists l1 x l2, l = l1 ++ x :: l2 /\ Forall P l1 /\ ~ P x.
Proof.
  intros Hdec. induction l as [|a l IH]; intro Hex; [inversion Hex|].
  destruct (Hdec a) as [Ha|Ha].
  - inversion Hex as [? ? Hna|? ? Hl]; subst; [contradiction|].
    destruct (IH Hl) as [l1 [x [l2 [-> [H1 Hx]]]]].
    exists (a :: l1), x, l2. repeat split; [constructor; assumption|exact Hx].
  - exists [], a, l. repeat split; [constructor|exact Ha].
Qed.

(** Behind a filler all of whose elements satisfy [P], a delimiter with
    an element that does not cannot start before the end of the filler. *)
Lemma occurrence_not_before_filler (F D C pre post : list A) :
  (forall a, P a \/ ~ P a) ->
  Forall P F ->
  Exists (fun a => ~ P a) D ->
  F ++ D ++ C = pre ++ D ++ post ->
  (length F <= length pre)%nat.
Proof.
  intros Hdec HF HD E.
  destruct (Exists_first_split D Hdec HD) as [D1 [x [D2 [HDeq [HD1 Hx]]]]].
  destruct (Nat.le_gt_cases (length F) (length pre)) as [Hle|Hgt]; [exact Hle|].
  exfalso.
  set (q := (length pre + length D1)%nat).
  assert (nth_error (pre ++ D ++ post) q = Some x) as Hr.
  { unfold q. rewrite nth_error_app2 by lia.
    replace (length pre + length D1 - length pre)%nat with (length D1) by lia.
    rewrite HDeq, <- app_assoc, nth_error_app2 by lia.
    rewrite Nat.sub_diag. reflexivity. }
  rewrite <- E in Hr.
  destruct (Nat.lt_ge_cases q (length F)) as [HqF|HqF].
  - rewrite nth_error_app1 in Hr by exact HqF.
    apply nth_error_In in Hr.
    rewrite Forall_forall in HF. exact (Hx (HF x Hr)).
  - rewrite nth_error_app2 in Hr by exact HqF.
    rewrite HDeq, <- !app_assoc in Hr.
    rewrite nth_error_app1 in Hr by (unfold q; lia).
    apply nth_error_In in Hr.
    rewrite Forall_forall in HD1. exact (Hx (HD1 x Hr)).
Qed.

Lemma filler_has_no_occurrence (F D : list A) :
  Forall P F -> Exists (fun a => ~ P a) D -> ~ occurs D F.
Proof.
  intros HF HD [pre [post ->]].
  apply Forall_app in HF. destruct HF as [_ HF].
  apply Forall_app in HF. destruct HF as [HDall _].
  apply Exists_exists in HD. destruct HD as [x [Hin Hx]].
  rewrite Forall_forall in HDall. exact (Hx (HDall x Hin)).
Qed.

End FirstOccurrence.

(** ** [rsaEncrypt]: the padded block *)

Section RSAEncryptFacts.

Variable Math_random : nat -> Q.
Variable fs : jsstring -> option file.

(** A negative [restLength] reaches [getRandomBytes], whose allocation
    throws; [rsaEncrypt] has no check of its own. *)
Lemma contentNeedCrypt_negative (content : Buffer) (o : rsaEncryptOptions)
      (calls : nat) :
  (restLength content o < 0)%Q ->
  contentNeedCrypt Math_random content o calls
  = Throw (RangeError_size (restLength content o)).
Proof.
  intro H. unfold contentNeedCrypt, bind.
  rewrite getRandomBytes_negative by exact H. reflexivity.
Qed.

Lemma restLength_whole (content : Buffer) (o : rsaEncryptOptions)
      (modulus_bytes : nat) :
  (keyLength o == inject_Z (8 * Z.of_nat modulus_bytes))%Q ->
  (restLength content o
   == inject_Z (Z.of_nat modulus_bytes
                - Z.of_nat (length (Buffer_from (enc_splitBar o)))
                - Z.of_nat (length content)))%Q.
Proof.
  intro Hk. unfold restLength.
  rewrite Hk, Qdiv8_inject.
  unfold Qminus. rewrite <- !inject_Z_opp, <- !inject_Z_plus.
  reflexivity.
Qed.

End RSAEncryptFacts.

(** The block of [rsaEncrypt], when [keyLength / 8] is a whole number and
    there is room for the payload. *)
Lemma contentNeedCrypt_block
      (Math_random : nat -> Q) (content : Buffer) (o : rsaEncryptOptions)
      (modulus_bytes calls : nat) :
  (keyLength o == inject_Z (8 * Z.of_nat modulus_bytes))%Q ->
  (0 <= restLength content o)%Q ->
  exists filler calls',
    getRandomBytes Math_random (restLength content o) calls
    = Normal (filler, calls')
    /\ contentNeedCrypt Math_random content o calls
       = Normal (filler ++ Buffer_from (enc_splitBar o) ++ content, calls')
    /\ length (filler ++ Buffer_from (enc_splitBar o) ++ content) = modulus_bytes.
Proof.
  intros Hk Hpos.
  destruct (getRandomBytes_length Math_random _ calls Hpos) as [filler [Hrun Hlen]].
  exists filler, (calls + Z.to_nat (Qceiling (restLength content o)))%nat.
  split; [exact Hrun|].
  split.
  { unfold contentNeedCrypt, bind. rewrite Hrun.
    unfold ret, Buffer_concat. cbn [concat]. rewrite app_nil_r. reflexivity. }
  pose proof (restLength_whole content o modulus_bytes Hk) as Hrest.
  rewrite (Qfloor_comp _ _ Hrest), Qfloor_Z in Hlen.
  rewrite Hrest in Hpos. change 0%Q with (inject_Z 0) in Hpos.
  rewrite <- Zle_Qle in Hpos.
  rewrite !length_app. lia.
Qed.

(** C5. When [keyLength] is eight times a whole number of bytes and
    [restLength] is not negative, the block that [rsaEncrypt] hands to the
    cipher is [filler ++ splitBar ++ content], where [filler] is what
    [getRandomBytes(restLength)] returned, and it has exactly
    [keyLength / 8] bytes. *)
Theorem rsaEncrypt_block_fills_modulus
        (Math_random : nat -> Q) (content : Buffer) (o : rsaEncryptOptions)
        (modulus_bytes calls : nat) :
  (keyLength o == inject_Z (8 * Z.of_nat modulus_bytes))%Q ->
  (0 <= restLength content o)%Q ->
  exists filler calls',
    getRandomBytes Math_random (restLength content o) calls
    = Normal (filler, calls')
    /\ contentNeedCrypt Math_random content o calls
       = Normal (filler ++ Buffer_from (enc_splitBar o) ++ content, calls')
    /\ length (filler ++ Buffer_from (enc_splitBar o) ++ content) = modulus_bytes
    /\ (length filler + length (Buffer_from (enc_splitBar o)) + length content
        = modulus_bytes)%nat.
Proof.
  intros Hk Hpos.
  destruct (contentNeedCrypt_block Math_random content o modulus_bytes calls
              Hk Hpos) as [filler [calls' [Hrun [Hblock Hlen]]]].
  exists filler, calls'.
  split; [exact Hrun|]. split; [exact Hblock|]. split; [exact Hlen|].
  rewrite !length_app in Hlen. lia.
Qed.

Lemma rsaEncrypt_block_fills_modulus_witness :
  exists filler calls',
    getRandomBytes toy_random (5 - 2 - 2) 0%nat = Normal (filler, calls')
    /\ contentNeedCrypt toy_random ["h"; "i"]%byte
                        (toy_encrypt_options (lit "||") 40) 0%nat
       = Normal (filler ++ ["|"; "|"]%byte ++ ["h"; "i"]%byte, calls')
    /\ length (filler ++ ["|"; "|"]%byte ++ ["h"; "i"]%byte) = 5%nat
    /\ (length filler + 2 + 2 = 5)%nat.
Proof.
  apply (rsaEncrypt_block_fills_modulus toy_random ["h"; "i"]%byte
           (toy_encrypt_options (lit "||") 40) 5%nat 0%nat).
  - reflexivity.
  - discriminate.
Defined.

(** C9. When the delimiter has a character that is none of the 26
    lowercase letters, the filler returned by [getRandomBytes] does not
    contain the bytes of the delimiter, and in the padded block no
    occurrence of the delimiter starts before the end of the filler: the
    first one is the delimiter that [rsaEncrypt] put there. *)
Theorem rsaEncrypt_first_delimiter_is_inserted
        (Math_random : nat -> Q) (content : Buffer) (o : rsaEncryptOptions)
        (calls : nat) :
  unit_interval Math_random ->
  Exists (fun c => is_lower_letter c = false) (enc_splitBar o) ->
  (0 <= restLength content o)%Q ->
  exists filler calls',
    getRandomBytes Math_random (restLength content o) calls
    = Normal (filler, calls')
    /\ contentNeedCrypt Math_random content o calls
       = Normal (filler ++ Buffer_from (enc_splitBar o) ++ content, calls')
    /\ ~ occurs (Buffer_from (enc_splitBar o)) filler
    /\ forall pre post,
        filler ++ Buffer_from (enc_splitBar o) ++ content
        = pre ++ Buffer_from (enc_splitBar o) ++ post ->
        (length filler <= length pre)%nat.
Proof.
  intros Hrange Hdelim Hpos.
  pose proof (getRandomBytes_spec Math_random Hrange _ calls Hpos) as Hrun.
  set (filler := map (letter_byte Math_random)
                     (seq calls (Z.to_nat (Qfloor (restLength content o))))) in *.
  exists filler, (calls + Z.to_nat (Qceiling (restLength content o)))%nat.
  assert (Forall (fun b => is_lower_letter_byte b = true) filler) as Hletters.
  { apply Forall_forall. intros b Hb. apply in_map_iff in Hb.
    destruct Hb as [k [<- _]]. apply letter_byte_is_letter. exact Hrange. }
  assert (Exists (fun b => is_lower_letter_byte b <> true)
                 (Buffer_from (enc_splitBar o))) as Hnot.
  { apply Buffer_from_not_letter in Hdelim.
    apply Exists_exists in Hdelim. destruct Hdelim as [b [Hin Hb]].
    apply Exists_exists. exists b. split; [exact Hin|].
    unfold not_letter_byte in Hb. congruence. }
  assert (forall b, is_lower_letter_byte b = true \/ is_lower_letter_byte b <> true)
    as Hdec.
  { intro b. destruct (is_lower_letter_byte b); [left|right]; congruence. }
  split; [exact Hrun|].
  split.
  { unfold contentNeedCrypt, bind. rewrite Hrun.
    unfold ret, Buffer_concat. cbn [concat]. rewrite app_nil_r. reflexivity. }
  split.
  - exact (filler_has_no_occurrence _ _ _ Hletters Hnot).
  - intros pre post E.
    exact (occurrence_not_before_filler _ _ _ _ _ _ Hdec Hletters Hnot E).
Qed.

(** C2, as the code has it.  When the payload and the delimiter exceed
    the modulus, [restLength] is negative and is passed as it is to
    [getRandomBytes]; the call fails there, with the [RangeError] by which
    [Buffer.alloc] refuses a negative size, before a letter is drawn, a
    block built or the key file read. *)
Theorem rsaEncrypt_overflow_RangeError
        (Math_random : nat -> Q) (fs : jsstring -> option file)
        (content : Buffer) (o : rsaEncryptOptions) (calls : nat) :
  (restLength content o < 0)%Q ->
  Buffer_alloc (restLength content o)
  = Throw (RangeError_size (restLength content o))
  /\ getRandomBytes Math_random (restLength content o) calls
     = Throw (RangeError_size (restLength content o))
  /\ rsaEncrypt Math_random fs content o calls
     = Throw (RangeError_size (restLength content o)).
Proof.
  intro H. split; [|split].
  - unfold Buffer_alloc. apply Qltb_lt in H. rewrite H. reflexivity.
  - apply getRandomBytes_negative. exact H.
  - unfold rsaEncrypt, bind.
    rewrite contentNeedCrypt_negative by exact H. reflexivity.
Qed.

Lemma rsaEncrypt_overflow_RangeError_witness :
  rsaEncrypt toy_random toy_fs (repeat "x"%byte 256)
             (toy_encrypt_options (lit "||") 2048) 0%nat
  = Throw (RangeError_size (2048 / 8 - 2 - 256)).
Proof.
  refine (proj2 (proj2 (rsaEncrypt_overflow_RangeError toy_random toy_fs
            (repeat "x"%byte 256) (toy_encrypt_options (lit "||") 2048) 0%nat _))).
  reflexivity.
Defined.

(** C2, as the claim has it, fails: with a 2048-bit key, a payload of 256
    bytes and the delimiter [||], [restLength] is -2; the generator is
    called with -2, and the error that comes out of [rsaEncrypt] is the
    complaint of its allocation about the size -2, not an error by which
    [rsaEncrypt] reports the overflow before it calls the generator. *)
Lemma rsaEncrypt_overflow_reaches_generator :
  let content := repeat "x"%byte 256 in
  let o := toy_encrypt_options (lit "||") 2048 in
  (restLength content o == -2)%Q
  /\ getRandomBytes toy_random (restLength content o) 0%nat
     = Throw (RangeError_size (restLength content o))
  /\ rsaEncrypt toy_random toy_fs content o 0%nat
     = Throw (RangeError_size (restLength content o)).
Proof.
  split; [reflexivity|]. split; reflexivity.
Qed.

Lemma rsaEncrypt_first_delimiter_is_inserted_witness :
  exists filler calls',
    getRandomBytes toy_random (5 - 2 - 2) 0%nat = Normal (filler, calls')
    /\ contentNeedCrypt toy_random ["h"; "i"]%byte
                        (toy_encrypt_options (lit "||") 40) 0%nat
       = Normal (filler ++ ["|"; "|"]%byte ++ ["h"; "i"]%byte, calls')
    /\ ~ occurs ["|"; "|"]%byte filler
    /\ forall pre post,
        filler ++ ["|"; "|"]%byte ++ ["h"; "i"]%byte
        = pre ++ ["|"; "|"]%byte ++ post ->
        (length filler <= length pre)%nat.
Proof.
  apply (rsaEncrypt_first_delimiter_is_inserted toy_random ["h"; "i"]%byte
           (toy_encrypt_options (lit "||") 40) 0%nat).
  - exact toy_random_range.
  - constructor. reflexivity.
  - discriminate.
Defined.

(** ** Encodings *)

(** Linear arithmetic with divisions by constants. *)
Ltac div_lia := zify; Z.to_euclidean_division_equations; lia.

Lemma forall_below (p : N -> bool) (n : nat) :
  forallb p (map N.of_nat (seq 0 n)) = true ->
  forall v, (v < N.of_nat n)%N -> p v = true.
Proof.
  intros H v Hv. rewrite forallb_forall in H. apply H.
  apply in_map_iff. exists (N.to_nat v). split; [apply N2Nat.id|].
  apply in_seq. lia.
Qed.

Lemma unhex_hex_digit (v : N) :
  (v < 16)%N -> unhex (hex_digit v mod 256) = Some v.
Proof.
  intro H.
  pose proof (forall_below
                (fun v => match unhex (hex_digit v mod 256) with
                          | Some w => (w =? v)%N
                          | None => false
                          end) 16 eq_refl v H) as Hv.
  cbv beta in Hv. destruct (unhex (hex_digit v mod 256)) as [w|]; [|discriminate].
  apply N.eqb_eq in Hv. congruence.
Qed.

Lemma hex_decode_encode (b : list byte) : hex_decode (hex_encode b) = b.
Proof.
  induction b as [|x b IH]; [reflexivity|].
  change (hex_encode (x :: b))
    with (hex_digit (Byte.to_N x / 16) :: hex_digit (Byte.to_N x mod 16)
          :: hex_encode b).
  cbn [hex_decode].
  pose proof (Byte.to_N_bounded x) as Hx.
  assert (Byte.to_N x / 16 < 16)%N as Hhi
      by (apply N.Div0.div_lt_upper_bound; lia).
  assert (Byte.to_N x mod 16 < 16)%N as Hlo by (apply N.mod_upper_bound; lia).
  rewrite (unhex_hex_digit _ Hhi), (unhex_hex_digit _ Hlo), IH.
  rewrite <- N.div_mod by lia. rewrite byte_of_N_to_N. reflexivity.
Qed.

Lemma unbase64_base64_char (v : N) :
  (v < 64)%N ->
  unbase64 (base64_char v mod 256) = Some v
  /\ (base64_char v mod 256 =? base64_pad)%N = false.
Proof.
  intro H.
  pose proof (forall_below
                (fun v => match unbase64 (base64_char v mod 256) with
                          | Some w => (w =? v)%N
                          | None => false
                          end && negb (base64_char v mod 256 =? base64_pad)%N)
                64 eq_refl v H) as Hv.
  cbv beta in Hv. apply andb_true_iff in Hv. destruct Hv as [H1 H2].
  split.
  - destruct (unbase64 (base64_char v mod 256)) as [w|]; [|discriminate].
    apply N.eqb_eq in H1. congruence.
  - apply negb_true_iff. exact H2.
Qed.

Lemma sextets_base64_char (v : N) (s : jsstring) :
  (v < 64)%N -> sextets (base64_char v :: s) = v :: sextets s.
Proof.
  intro H. destruct (unbase64_base64_char v H) as [H1 H2].
  cbn [sextets]. cbv zeta. rewrite H2, H1. reflexivity.
Qed.

Lemma sextets_pad (s : jsstring) : sextets (base64_pad :: s) = [].
Proof. reflexivity. Qed.

(** The arithmetic of one group of three bytes. *)
Lemma base64_group (n0 n1 n2 : N) :
  (n0 < 256)%N -> (n1 < 256)%N -> (n2 < 256)%N ->
  (n0 / 4 < 64 /\ n0 mod 4 * 16 + n1 / 16 < 64
   /\ n1 mod 16 * 4 + n2 / 64 < 64 /\ n2 mod 64 < 64
   /\ n0 / 4 * 4 + (n0 mod 4 * 16 + n1 / 16) / 16 = n0
   /\ (n0 mod 4 * 16 + n1 / 16) mod 16 * 16 + (n1 mod 16 * 4 + n2 / 64) / 4 = n1
   /\ (n1 mod 16 * 4 + n2 / 64) mod 4 * 64 + n2 mod 64 = n2)%N.
Proof.
  intros H0 H1 H2. repeat split; div_lia.
Qed.

Lemma list_ind3 {A} (P : list A -> Prop) :
  P [] -> (forall a, P [a]) -> (forall a b, P [a; b]) ->
  (forall a b c l, P l -> P (a :: b :: c :: l)) ->
  forall l, P l.
Proof.
  intros H0 H1 H2 H3.
  fix rec 1.
  intros [|a [|b [|c l]]];
    [exact H0 | apply H1 | apply H2 | apply H3; apply rec].
Qed.

Lemma base64_decode_encode (b : list byte) : base64_decode (base64_encode b) = b.
Proof.
  unfold base64_decode.
  induction b as [|b0|b0 b1|b0 b1 b2 rest IH] using list_ind3.
  - reflexivity.
  - pose proof (Byte.to_N_bounded b0).
    destruct (base64_group (Byte.to_N b0) 0 0) as (S0 & S1 & _ & _ & E0 & _);
      [lia..|].
    rewrite N.add_0_r in S1, E0.
    cbn [base64_encode].
    rewrite !sextets_base64_char, sextets_pad by assumption.
    cbn [bytes_of_sextets]. rewrite E0, byte_of_N_to_N. reflexivity.
  - pose proof (Byte.to_N_bounded b0). pose proof (Byte.to_N_bounded b1).
    destruct (base64_group (Byte.to_N b0) (Byte.to_N b1) 0)
      as (S0 & S1 & S2 & _ & E0 & E1 & _); [lia..|].
    rewrite N.add_0_r in S2, E1.
    cbn [base64_encode].
    rewrite !sextets_base64_char, sextets_pad by assumption.
    cbn [bytes_of_sextets]. rewrite E0, E1, !byte_of_N_to_N. reflexivity.
  - pose proof (Byte.to_N_bounded b0). pose proof (Byte.to_N_bounded b1).
    pose proof (Byte.to_N_bounded b2).
    destruct (base64_group (Byte.to_N b0) (Byte.to_N b1) (Byte.to_N b2))
      as (S0 & S1 & S2 & S3 & E0 & E1 & E2); [lia..|].
    cbn [base64_encode app].
    rewrite !sextets_base64_char by assumption.
    cbn [bytes_of_sextets app]. rewrite IH, E0, E1, E2, !byte_of_N_to_N.
    reflexivity.
Qed.

(** What a binary-safe encoding renders is read back as it was. *)
Lemma Buffer_from_toString (b : Buffer) (enc : encoding) :
  binary_safe enc = true ->
  Buffer_from_encoded (Buffer_toString b enc) enc = b.
Proof.
  destruct enc; intro H; try discriminate; cbn [Buffer_toString Buffer_from_encoded].
  - rewrite map_map. rewrite <- (map_id b) at 2. apply map_ext.
    apply byte_of_N_to_N.
  - apply hex_decode_encode.
  - apply base64_decode_encode.
Qed.

Lemma utf8_run_ascii (bs : list byte) :
  Forall (fun b => is_ascii (Byte.to_N b) = true) bs ->
  utf8_run utf8_init bs = (utf8_init, map Byte.to_N bs).
Proof.
  induction 1 as [|b bs Hb _ IH]; [reflexivity|].
  cbn [utf8_run map]. unfold utf8_step at 1. cbn [needed utf8_init].
  unfold utf8_lead. unfold is_ascii in Hb. apply N.ltb_lt in Hb.
  destruct (N.leb_spec (Byte.to_N b) 127) as [_|Hgt]; [|lia].
  rewrite IH. reflexivity.
Qed.

(** A text encoding renders ASCII bytes by their values. *)
Lemma Buffer_toString_ascii (bs : Buffer) (enc : encoding) :
  renders_ascii enc = true ->
  Forall (fun b => is_ascii (Byte.to_N b) = true) bs ->
  Buffer_toString bs enc = map Byte.to_N bs.
Proof.
  destruct enc; intros H Hbs; try discriminate; cbn [Buffer_toString].
  - unfold utf8_decode. rewrite utf8_run_ascii by exact Hbs.
    cbn. apply app_nil_r.
  - reflexivity.
  - apply map_ext_in. intros b Hb. rewrite Forall_forall in Hbs.
    specialize (Hbs b Hb). unfold is_ascii in Hbs. apply N.ltb_lt in Hbs.
    change 127%N with (N.ones 7). rewrite N.land_ones.
    apply N.mod_small. exact Hbs.
Qed.

(** ** UTF-8: decoding what was encoded *)

Section Utf8RoundTrip.

Local Open Scope N_scope.

(** The bit operations of the two directions, as arithmetic. *)
Lemma land_shiftl_low (a r k : N) : r < 2 ^ k -> N.land (N.shiftl a k) r = 0.
Proof.
  intro Hr. apply N.bits_inj. intro n.
  rewrite N.land_spec, N.bits_0.
  destruct (N.lt_ge_cases n k) as [Hlt|Hge].
  - rewrite N.shiftl_spec_low by exact Hlt. reflexivity.
  - rewrite <- (N.mod_small r (2 ^ k)) by exact Hr.
    rewrite N.mod_pow2_bits_high by exact Hge. apply andb_false_r.
Qed.

Lemma lor_shiftl_low (a r k : N) :
  r < 2 ^ k -> N.lor (N.shiftl a k) r = a * 2 ^ k + r.
Proof.
  intro Hr. pose proof (land_shiftl_low a r k Hr) as H.
  rewrite <- N.lxor_lor by exact H.
  rewrite <- N.add_nocarry_lxor by exact H.
  rewrite N.shiftl_mul_pow2. reflexivity.
Qed.

Lemma lor_192 (x : N) : x < 32 -> N.lor 192 x = 192 + x.
Proof.
  intro H. change 192 with (N.shiftl 6 5).
  rewrite lor_shiftl_low by exact H. reflexivity.
Qed.

Lemma lor_128 (x : N) : x < 64 -> N.lor 128 x = 128 + x.
Proof.
  intro H. change 128 with (N.shiftl 2 6).
  rewrite lor_shiftl_low by exact H. reflexivity.
Qed.

Lemma lor_224 (x : N) : x < 16 -> N.lor 224 x = 224 + x.
Proof.
  intro H. change 224 with (N.shiftl 14 4).
  rewrite lor_shiftl_low by exact H. reflexivity.
Qed.

Lemma lor_240 (x : N) : x < 8 -> N.lor 240 x = 240 + x.
Proof.
  intro H. change 240 with (N.shiftl 30 3).
  rewrite lor_shiftl_low by exact H. reflexivity.
Qed.

Lemma land_63 (x : N) : N.land x 63 = x mod 64.
Proof. change 63 with (N.ones 6). apply N.land_ones. Qed.

Lemma land_31 (x : N) : N.land x 31 = x mod 32.
Proof. change 31 with (N.ones 5). apply N.land_ones. Qed.

Lemma land_15 (x : N) : N.land x 15 = x mod 16.
Proof. change 15 with (N.ones 4). apply N.land_ones. Qed.

Lemma land_7 (x : N) : N.land x 7 = x mod 8.
Proof. change 7 with (N.ones 3). apply N.land_ones. Qed.

Lemma shiftr_6 (x : N) : N.shiftr x 6 = x / 64.
Proof. apply N.shiftr_div_pow2. Qed.

Lemma shiftr_12 (x : N) : N.shiftr x 12 = x / 4096.
Proof. apply N.shiftr_div_pow2. Qed.

Lemma shiftr_18 (x : N) : N.shiftr x 18 = x / 262144.
Proof. apply N.shiftr_div_pow2. Qed.

Lemma lor_continuation (c b : N) :
  N.lor (N.shiftl c 6) (N.land b 63) = c * 64 + b mod 64.
Proof.
  rewrite land_63. rewrite lor_shiftl_low; [reflexivity|].
  apply N.mod_upper_bound. discriminate.
Qed.

(** The decoder on a lead byte, by the length it announces. *)
Ltac split_leb :=
  repeat match goal with
         | |- context [(?a <=? ?b)%N] => destruct (N.leb_spec a b)
         end.

Lemma lead_1 (b : N) : b <= 127 -> utf8_lead b = (utf8_init, [b]).
Proof. intro H. unfold utf8_lead. split_leb; try lia; reflexivity. Qed.

Lemma lead_2 (b : N) :
  194 <= b <= 223 ->
  utf8_lead b = ({| needed := 1; seen := 0; code_point := b mod 32;
                    lower := 128; upper := 191 |}, []).
Proof.
  intro H. unfold utf8_lead. split_leb; try lia; cbn [andb].
  rewrite land_31. reflexivity.
Qed.

Lemma lead_3 (b : N) :
  224 <= b <= 239 ->
  utf8_lead b = ({| needed := 2; seen := 0; code_point := b mod 16;
                    lower := if b =? 224 then 160 else 128;
                    upper := if b =? 237 then 159 else 191 |}, []).
Proof.
  intro H. unfold utf8_lead. split_leb; try lia; cbn [andb].
  rewrite land_15. reflexivity.
Qed.

Lemma lead_4 (b : N) :
  240 <= b <= 244 ->
  utf8_lead b = ({| needed := 3; seen := 0; code_point := b mod 8;
                    lower := if b =? 240 then 144 else 128;
                    upper := if b =? 244 then 143 else 191 |}, []).
Proof.
  intro H. unfold utf8_lead. split_leb; try lia; cbn [andb].
  rewrite land_7. reflexivity.
Qed.

(** The decoder on a continuation byte that it accepts. *)
Lemma step_continuation (st : utf8_state) (b : N) (n : nat) :
  needed st = S n -> lower st <= b -> b <= upper st ->
  utf8_step st b
  = if (S (seen st) =? needed st)%nat
    then (utf8_init, utf16_of_code_point (code_point st * 64 + b mod 64))
    else ({| needed := needed st; seen := S (seen st);
             code_point := code_point st * 64 + b mod 64;
             lower := 128; upper := 191 |}, []).
Proof.
  intros Hn Hl Hu. unfold utf8_step. rewrite Hn.
  apply N.leb_le in Hl. apply N.leb_le in Hu. rewrite Hl, Hu. cbn [andb].
  rewrite lor_continuation. reflexivity.
Qed.

(** Decoding the bytes of one code point, for each of the four lengths. *)
Lemma run_1 (cp : N) (rest : list byte) :
  cp < 128 ->
  utf8_run utf8_init (utf8_of_code_point cp ++ rest)
  = (fst (utf8_run utf8_init rest),
     utf16_of_code_point cp ++ snd (utf8_run utf8_init rest)).
Proof.
  intro H. unfold utf8_of_code_point.
  apply N.ltb_lt in H as Hb. rewrite Hb.
  cbn [app utf8_run]. rewrite to_N_byte_of_N, N.mod_small by lia.
  unfold utf8_step. cbn [needed utf8_init]. rewrite lead_1 by lia.
  destruct (utf8_run utf8_init rest) as [st out]. cbn [fst snd].
  unfold utf16_of_code_point.
  destruct (N.ltb_spec cp 65536); [reflexivity|lia].
Qed.

Lemma run_2 (cp : N) (rest : list byte) :
  128 <= cp < 2048 ->
  utf8_run utf8_init (utf8_of_code_point cp ++ rest)
  = (fst (utf8_run utf8_init rest),
     utf16_of_code_point cp ++ snd (utf8_run utf8_init rest)).
Proof.
  intro H. unfold utf8_of_code_point.
  destruct (N.ltb_spec cp 128); [lia|].
  destruct (N.ltb_spec cp 2048); [|lia].
  cbn [app utf8_run]. rewrite !to_N_byte_of_N.
  rewrite shiftr_6, land_63.
  rewrite lor_192 by div_lia. rewrite lor_128 by div_lia.
  rewrite !N.mod_small by div_lia.
  unfold utf8_step at 1. cbn [needed utf8_init]. rewrite lead_2 by div_lia.
  rewrite (step_continuation _ _ 0) by (cbn [needed lower upper]; div_lia).
  cbn [needed seen code_point Nat.eqb].
  destruct (utf8_run utf8_init rest) as [st out]. cbn [fst snd app].
  do 3 f_equal. div_lia.
Qed.

Ltac continuation_side :=
  cbn [needed lower upper];
  repeat match goal with
         | |- context [(?a =? ?b)%N] => destruct (N.eqb_spec a b)
         end;
  div_lia.

Lemma run_3 (cp : N) (rest : list byte) :
  2048 <= cp < 65536 -> ~ (55296 <= cp <= 57343) ->
  utf8_run utf8_init (utf8_of_code_point cp ++ rest)
  = (fst (utf8_run utf8_init rest),
     utf16_of_code_point cp ++ snd (utf8_run utf8_init rest)).
Proof.
  intros H Hs. unfold utf8_of_code_point.
  destruct (N.ltb_spec cp 128); [lia|].
  destruct (N.ltb_spec cp 2048); [lia|].
  destruct (N.ltb_spec cp 65536); [|lia].
  cbn [app utf8_run]. rewrite !to_N_byte_of_N.
  rewrite shiftr_12, shiftr_6, !land_63.
  rewrite lor_224 by div_lia. rewrite !lor_128 by div_lia.
  rewrite !N.mod_small by div_lia.
  unfold utf8_step at 1. cbn [needed utf8_init]. rewrite lead_3 by div_lia.
  rewrite (step_continuation _ _ 1) by continuation_side.
  cbn [needed seen code_point Nat.eqb].
  rewrite (step_continuation _ _ 1) by continuation_side.
  cbn [needed seen code_point Nat.eqb].
  destruct (utf8_run utf8_init rest) as [st out]. cbn [fst snd app].
  do 3 f_equal. div_lia.
Qed.

Lemma run_4 (cp : N) (rest : list byte) :
  65536 <= cp < 1114112 ->
  utf8_run utf8_init (utf8_of_code_point cp ++ rest)
  = (fst (utf8_run utf8_init rest),
     utf16_of_code_point cp ++ snd (utf8_run utf8_init rest)).
Proof.
  intros H. unfold utf8_of_code_point.
  destruct (N.ltb_spec cp 128); [lia|].
  destruct (N.ltb_spec cp 2048); [lia|].
  destruct (N.ltb_spec cp 65536); [lia|].
  cbn [app utf8_run]. rewrite !to_N_byte_of_N.
  rewrite shiftr_18, shiftr_12, shiftr_6, !land_63.
  rewrite lor_240 by div_lia. rewrite !lor_128 by div_lia.
  rewrite !N.mod_small by div_lia.
  unfold utf8_step at 1. cbn [needed utf8_init]. rewrite lead_4 by div_lia.
  rewrite (step_continuation _ _ 2) by continuation_side.
  cbn [needed seen code_point Nat.eqb].
  rewrite (step_continuation _ _ 2) by continuation_side.
  cbn [needed seen code_point Nat.eqb].
  rewrite (step_continuation _ _ 2) by continuation_side.
  cbn [needed seen code_point Nat.eqb].
  destruct (utf8_run utf8_init rest) as [st out]. cbn [fst snd app].
  do 3 f_equal. div_lia.
Qed.

Lemma run_scalar (cp : N) (rest : list byte) :
  cp < 1114112 -> ~ (55296 <= cp <= 57343) ->
  utf8_run utf8_init (utf8_of_code_point cp ++ rest)
  = (fst (utf8_run utf8_init rest),
     utf16_of_code_point cp ++ snd (utf8_run utf8_init rest)).
Proof.
  intros H Hs.
  destruct (N.lt_ge_cases cp 128); [apply run_1; assumption|].
  destruct (N.lt_ge_cases cp 2048); [apply run_2; lia|].
  destruct (N.lt_ge_cases cp 65536); [apply run_3; [lia|assumption]|].
  apply run_4. lia.
Qed.

Lemma utf16_of_pair (c d : N) :
  is_high_surrogate c = true -> is_low_surrogate d = true ->
  utf16_of_code_point (65536 + (c - 55296) * 1024 + (d - 56320)) = [c; d].
Proof.
  unfold is_high_surrogate, is_low_surrogate. intros Hc Hd.
  apply andb_true_iff in Hc. destruct Hc as [Hc1 Hc2].
  apply andb_true_iff in Hd. destruct Hd as [Hd1 Hd2].
  apply N.leb_le in Hc1, Hc2, Hd1, Hd2.
  unfold utf16_of_code_point.
  destruct (N.ltb_spec (65536 + (c - 55296) * 1024 + (d - 56320)) 65536); [lia|].
  f_equal; [|f_equal]; div_lia.
Qed.

Lemma utf8_run_encode (n : nat) :
  forall s : jsstring,
    (length s <= n)%nat ->
    well_formed s = true ->
    utf8_run utf8_init (utf8_encode s) = (utf8_init, s).
Proof.
  unfold utf8_encode.
  induction n as [|n IH]; intros s Hlen Hwf.
  - destruct s; [reflexivity|cbn in Hlen; lia].
  - destruct s as [|c s]; [reflexivity|].
    cbn [length] in Hlen. cbn [well_formed] in Hwf. cbn [utf8_chunks].
    destruct (is_high_surrogate c) eqn:Hhi.
    + destruct s as [|d s]; [discriminate|].
      apply andb_true_iff in Hwf. destruct Hwf as [Hlo Hwf].
      rewrite Hlo. cbn [concat length] in *.
      pose proof Hhi as Hhi'. pose proof Hlo as Hlo'.
      unfold is_high_surrogate in Hhi'. unfold is_low_surrogate in Hlo'.
      apply andb_true_iff in Hhi'. destruct Hhi' as [Hc1 Hc2].
      apply andb_true_iff in Hlo'. destruct Hlo' as [Hd1 Hd2].
      apply N.leb_le in Hc1, Hc2, Hd1, Hd2.
      rewrite run_scalar by lia.
      rewrite IH by (lia || assumption). cbn [fst snd].
      rewrite utf16_of_pair by assumption. reflexivity.
    + apply andb_true_iff in Hwf. destruct Hwf as [Hwf1 Hwf].
      apply andb_true_iff in Hwf1. destruct Hwf1 as [Hlo Hc].
      apply negb_true_iff in Hlo. rewrite Hlo. cbn [concat].
      apply N.ltb_lt in Hc.
      assert (~ (55296 <= c <= 57343)) as Hns.
      { unfold is_high_surrogate in Hhi. unfold is_low_surrogate in Hlo.
        apply andb_false_iff in Hhi. apply andb_false_iff in Hlo.
        intro Hr. destruct Hhi as [Hh|Hh]; apply N.leb_gt in Hh;
          destruct Hlo as [Hl|Hl]; apply N.leb_gt in Hl; lia. }
      rewrite run_scalar by (lia || assumption).
      rewrite IH by (lia || assumption). cbn [fst snd].
      unfold utf16_of_code_point.
      destruct (N.ltb_spec c 65536); [reflexivity|lia].
Qed.

(** Well-formed text survives the passage through UTF-8. *)
Lemma utf8_decode_encode (s : jsstring) :
  well_formed s = true -> utf8_decode (utf8_encode s) = s.
Proof.
  intro H. unfold utf8_decode.
  rewrite (utf8_run_encode (length s)) by (lia || assumption).
  cbn. apply app_nil_r.
Qed.

End Utf8RoundTrip.

(** ** Raw RSA on blocks *)

Lemma OS2IP_fold (bs : list byte) (acc : Z) :
  fold_left (fun acc b => acc * 256 + Z.of_N (Byte.to_N b)) bs acc
  = acc * 256 ^ Z.of_nat (length bs) + OS2IP bs.
Proof.
  unfold OS2IP. revert acc.
  induction bs as [|b bs IH]; intro acc.
  - cbn. lia.
  - cbn [fold_left length]. rewrite IH, (IH (0 * 256 + _)).
    rewrite Nat2Z.inj_succ, Z.pow_succ_r by lia. ring.
Qed.

Lemma OS2IP_cons (b : byte) (bs : list byte) :
  OS2IP (b :: bs) = Z.of_N (Byte.to_N b) * 256 ^ Z.of_nat (length bs) + OS2IP bs.
Proof.
  unfold OS2IP at 1. cbn [fold_left]. rewrite OS2IP_fold. ring.
Qed.

Lemma OS2IP_snoc (bs : list byte) (b : byte) :
  OS2IP (bs ++ [b]) = OS2IP bs * 256 + Z.of_N (Byte.to_N b).
Proof.
  unfold OS2IP. rewrite fold_left_app. reflexivity.
Qed.

Lemma OS2IP_range (bs : list byte) :
  0 <= OS2IP bs < 256 ^ Z.of_nat (length bs).
Proof.
  induction bs as [|b bs IH] using rev_ind.
  - cbn. lia.
  - rewrite OS2IP_snoc, length_app. cbn [length].
    pose proof (Byte.to_N_bounded b).
    replace (Z.of_nat (length bs + 1)) with (Z.succ (Z.of_nat (length bs))) by lia.
    rewrite Z.pow_succ_r by lia. lia.
Qed.

Lemma I2OSP_length (k : nat) (x : Z) : length (I2OSP k x) = k.
Proof.
  revert x. induction k as [|k IH]; intro x; [reflexivity|].
  cbn [I2OSP]. rewrite length_app, IH. cbn. lia.
Qed.

Lemma OS2IP_I2OSP (k : nat) (x : Z) :
  0 <= x < 256 ^ Z.of_nat k -> OS2IP (I2OSP k x) = x.
Proof.
  revert x. induction k as [|k IH]; intros x Hx.
  - cbn in *. lia.
  - cbn [I2OSP]. rewrite OS2IP_snoc, to_N_byte_of_N.
    rewrite Nat2Z.inj_succ, Z.pow_succ_r in Hx by lia.
    rewrite IH by div_lia.
    pose proof (Z.mod_pos_bound x 256 ltac:(lia)).
    rewrite N.mod_small by lia. rewrite Z2N.id by lia.
    pose proof (Z.div_mod x 256 ltac:(lia)). lia.
Qed.

Lemma I2OSP_OS2IP (bs : list byte) : I2OSP (length bs) (OS2IP bs) = bs.
Proof.
  induction bs as [|b bs IH] using rev_ind; [reflexivity|].
  rewrite length_app, OS2IP_snoc. cbn [length].
  rewrite Nat.add_1_r. cbn [I2OSP].
  pose proof (Byte.to_N_bounded b) as Hb.
  replace ((OS2IP bs * 256 + Z.of_N (Byte.to_N b)) / 256) with (OS2IP bs)
    by div_lia.
  replace ((OS2IP bs * 256 + Z.of_N (Byte.to_N b)) mod 256)
    with (Z.of_N (Byte.to_N b)) by div_lia.
  rewrite IH, N2Z.id, byte_of_N_to_N. reflexivity.
Qed.

(** A block that starts with an ASCII byte lies below [2 ^ (8 k - 1)]. *)
Lemma OS2IP_ascii_head (b : byte) (bs : list byte) :
  is_ascii (Byte.to_N b) = true ->
  OS2IP (b :: bs) < 2 ^ (8 * Z.of_nat (length (b :: bs)) - 1).
Proof.
  intro Hb. unfold is_ascii in Hb. apply N.ltb_lt in Hb.
  rewrite OS2IP_cons. pose proof (OS2IP_range bs) as Hr.
  cbn [length]. rewrite Nat2Z.inj_succ.
  replace (8 * Z.succ (Z.of_nat (length bs)) - 1)
    with (7 + 8 * Z.of_nat (length bs)) by lia.
  rewrite Z.pow_add_r by lia.
  rewrite Z.pow_mul_r by lia.
  change (2 ^ 8) with 256. change (2 ^ 7) with 128.
  nia.
Qed.

Lemma OS2IP_ascii_block (block : list byte) :
  Forall (fun b => is_ascii (Byte.to_N b) = true) block ->
  (0 < length block)%nat ->
  OS2IP block < 2 ^ (8 * Z.of_nat (length block) - 1).
Proof.
  intros Hascii Hlen.
  destruct block as [|b bs]; [cbn in Hlen; lia|].
  inversion Hascii as [|? ? Hb _]; subst.
  apply OS2IP_ascii_head. exact Hb.
Qed.

Lemma RSA_size_bits (n : Z) (k : nat) :
  2 ^ (8 * Z.of_nat k - 1) <= n < 2 ^ (8 * Z.of_nat k) ->
  (0 < k)%nat ->
  RSA_size n = k.
Proof.
  intros Hn Hk. unfold RSA_size.
  assert (Z.log2 n = 8 * Z.of_nat k - 1) as ->.
  { apply Z.log2_unique; [lia|].
    replace (Z.succ (8 * Z.of_nat k - 1)) with (8 * Z.of_nat k) by lia.
    exact Hn. }
  replace (8 * Z.of_nat k - 1 + 8) with (7 + Z.of_nat k * 8) by lia.
  rewrite Z.div_add by lia. change (7 / 8) with 0. lia.
Qed.

Lemma Zpow_mod_range (a m n : Z) : 0 < n -> 0 <= Zpow_mod a m n < n.
Proof.
  intro Hn. rewrite Zpow_mod_correct by lia.
  apply Z.mod_pos_bound. exact Hn.
Qed.

Section RawRSA.

Variables (n e d : Z) (k : nat).
Hypothesis modulus_bits : 2 ^ (8 * Z.of_nat k - 1) <= n < 2 ^ (8 * Z.of_nat k).
Hypothesis modulus_bytes : (0 < k)%nat.

Lemma modulus_positive : 0 < n.
Proof.
  pose proof (Z.pow_pos_nonneg 2 (8 * Z.of_nat k - 1)). lia.
Qed.

Lemma modulus_below_size : n < 256 ^ Z.of_nat k.
Proof.
  change 256 with (2 ^ 8). rewrite <- Z.pow_mul_r by lia. lia.
Qed.

Lemma rsa_public_raw_block (data : Buffer) :
  length data = k ->
  OS2IP data < n ->
  rsa_public_raw n e data = Normal (I2OSP k (Zpow_mod (OS2IP data) e n)).
Proof.
  intros Hlen Hlt. unfold rsa_public_raw.
  rewrite (RSA_size_bits n k modulus_bits modulus_bytes), Hlen.
  rewrite Nat.ltb_irrefl.
  destruct (Z.leb_spec n (OS2IP data)) as [Hge|_]; [lia|reflexivity].
Qed.

Lemma rsa_private_raw_block (c : Z) :
  0 <= c < n ->
  rsa_private_raw n d (I2OSP k c) = Normal (I2OSP k (Zpow_mod c d n)).
Proof.
  intro Hc. unfold rsa_private_raw.
  rewrite (RSA_size_bits n k modulus_bits modulus_bytes), I2OSP_length.
  rewrite Nat.ltb_irrefl.
  destruct (Nat.ltb_spec k 1) as [Hsmall|_]; [lia|].
  pose proof modulus_below_size as Hn.
  rewrite OS2IP_I2OSP by lia.
  destruct (Z.leb_spec n c) as [Hge|_]; [lia|reflexivity].
Qed.

Hypothesis pair : rsa_key_pair n e d.

(** Raw decryption undoes raw encryption of a block of the size of the
    modulus that lies below it. *)
Lemma rsa_raw_roundtrip (data : Buffer) :
  length data = k ->
  OS2IP data < n ->
  exists cipher,
    rsa_public_raw n e data = Normal cipher
    /\ rsa_private_raw n d cipher = Normal data.
Proof.
  intros Hlen Hlt.
  eexists. split; [apply rsa_public_raw_block; assumption|].
  pose proof modulus_positive as Hn.
  rewrite rsa_private_raw_block by (apply Zpow_mod_range; exact Hn).
  pose proof (OS2IP_range data) as Hr.
  rewrite pair by lia.
  rewrite <- Hlen. rewrite I2OSP_OS2IP. reflexivity.
Qed.

End RawRSA.

(** ** The round trip through [rsaEncrypt] and [rsaDecrypt] *)

Lemma app_same_length {A} (a a' b b' : list A) :
  length a = length a' -> a ++ b = a' ++ b' -> a = a' /\ b = b'.
Proof.
  revert a'. induction a as [|x a IH]; intros [|x' a'] Hlen E;
    try discriminate.
  - split; [reflexivity|exact E].
  - cbn in Hlen, E. injection E as -> E.
    destruct (IH a' ltac:(lia) E) as [-> ->]. split; reflexivity.
Qed.

(** The first occurrence, when one knows where it is. *)
Lemma after_first_at (R F C : jsstring) :
  (forall pre post, F ++ R ++ C = pre ++ R ++ post -> (length F <= length pre)%nat) ->
  after_first R (F ++ R ++ C) = Some C.
Proof.
  intro Hmin.
  destruct (after_first R (F ++ R ++ C)) as [rest|] eqn:E.
  - apply after_first_Some in E.
    pose proof (before_first_minimal R F C) as H1.
    pose proof (Hmin _ _ E) as H2.
    destruct (app_same_length _ _ _ _ (Nat.le_antisymm _ _ H2 H1) E) as [_ HRC].
    apply app_inv_head in HRC. congruence.
  - exfalso. apply after_first_None_iff in E. apply E.
    exists F, C. reflexivity.
Qed.

Section RoundTrip.

Variable Math_random : nat -> Q.
Variable fs : jsstring -> option file.
Hypothesis Math_random_range : unit_interval Math_random.

Variables (n e d : Z) (k : nat).
Hypothesis modulus_bits : 2 ^ (8 * Z.of_nat k - 1) <= n < 2 ^ (8 * Z.of_nat k).
Hypothesis modulus_bytes : (0 < k)%nat.
Hypothesis pair : rsa_key_pair n e d.

Variable content : Buffer.
Variable eo : rsaEncryptOptions.
Variable do : rsaDecryptOptions.

Hypothesis public_file : fs (pubKeyPath eo) = Some (PEM_public n e).
Hypothesis private_file : fs (priKeyPath do) = Some (PEM_private n e d).
Hypothesis key_length : (keyLength eo == inject_Z (8 * Z.of_nat k))%Q.
Hypothesis same_delimiter : dec_splitBar do = enc_splitBar eo.
Hypothesis same_encoding :
  default base64 (dec_inputEncoding do) = default base64 (enc_outputEncoding eo).
Hypothesis safe_encoding : binary_safe (default base64 (enc_outputEncoding eo)) = true.
Hypothesis text_encoding : renders_ascii (default utf8 (dec_outputEncoding do)) = true.
Hypothesis ascii_delimiter : Forall (fun c => is_ascii c = true) (enc_splitBar eo).
Hypothesis delimiter_not_letters :
  Exists (fun c => is_lower_letter c = false) (enc_splitBar eo).
Hypothesis ascii_content : Forall (fun b => is_ascii (Byte.to_N b) = true) content.
Hypothesis room : (0 <= restLength content eo)%Q.

(** Encrypting an ASCII payload and decrypting the result gives back the
    payload, up to the first occurrence of the delimiter in it. *)
Lemma rsa_roundtrip (calls : nat) :
  exists cipher calls',
    rsaEncrypt Math_random fs content eo calls = Normal (cipher, calls')
    /\ rsaDecrypt fs cipher do
       = Normal (Str (before_first (enc_splitBar eo) (map Byte.to_N content))).
Proof.
  destruct (contentNeedCrypt_block Math_random content eo k calls
              key_length room) as [filler [calls' [Hfill [Hblock Hlen]]]].
  rewrite (getRandomBytes_spec Math_random Math_random_range _ calls room) in Hfill.
  injection Hfill as Hfiller _.
  set (R := enc_splitBar eo) in *.
  set (block := filler ++ Buffer_from R ++ content) in *.
  (* the block is ASCII *)
  assert (Forall (fun b => is_lower_letter_byte b = true) filler) as Hletters.
  { rewrite <- Hfiller. apply Forall_forall. intros b Hb. apply in_map_iff in Hb.
    destruct Hb as [i [<- _]]. apply letter_byte_is_letter. exact Math_random_range. }
  assert (Buffer_from R = map byte_of_N R) as HR
      by (apply utf8_encode_ascii; exact ascii_delimiter).
  assert (map Byte.to_N (Buffer_from R) = R) as HRback.
  { rewrite HR, map_map. rewrite <- (map_id R) at 2.
    apply map_ext_in. intros c Hc. rewrite to_N_byte_of_N.
    rewrite Forall_forall in ascii_delimiter.
    specialize (ascii_delimiter c Hc). unfold is_ascii in ascii_delimiter.
    apply N.ltb_lt in ascii_delimiter. apply N.mod_small. lia. }
  assert (Forall (fun b => is_ascii (Byte.to_N b) = true) block) as Hascii.
  { unfold block. apply Forall_app. split; [|apply Forall_app; split].
    - eapply Forall_impl; [|exact Hletters].
      intros b Hb. unfold is_lower_letter_byte, is_lower_letter in Hb.
      apply andb_true_iff in Hb. destruct Hb as [_ Hb]. apply N.leb_le in Hb.
      unfold is_ascii. apply N.ltb_lt. lia.
    - rewrite HR. apply Forall_forall. intros b Hb. apply in_map_iff in Hb.
      destruct Hb as [c [<- Hc]]. rewrite to_N_byte_of_N.
      rewrite Forall_forall in ascii_delimiter.
      specialize (ascii_delimiter c Hc). unfold is_ascii in *.
      apply N.ltb_lt in ascii_delimiter. apply N.ltb_lt.
      rewrite N.mod_small by lia. exact ascii_delimiter.
    - exact ascii_content. }
  (* as a number it lies below the modulus *)
  assert (OS2IP block < n) as Hbelow.
  { pose proof (OS2IP_ascii_block block Hascii ltac:(lia)) as H.
    rewrite Hlen in H. lia. }
  destruct (rsa_raw_roundtrip n e d k modulus_bits modulus_bytes pair block
              Hlen Hbelow) as [res [Hpub Hpri]].
  exists (Buffer_toString res (default base64 (enc_outputEncoding eo))), calls'.
  split.
  { unfold rsaEncrypt, bind. rewrite Hblock.
    unfold lift, readFileSync. rewrite public_file.
    cbn [publicEncrypt]. fold block. rewrite Hpub. reflexivity. }
  (* the decrypted text *)
  assert (decryptedData fs (Buffer_toString res (default base64 (enc_outputEncoding eo))) do
          = Normal (map Byte.to_N filler ++ R ++ map Byte.to_N content)) as Htext.
  { unfold decryptedData, readFileSync.
    rewrite private_file, same_encoding.
    rewrite Buffer_from_toString by exact safe_encoding.
    cbn [privateDecrypt]. rewrite Hpri.
    rewrite Buffer_toString_ascii by assumption.
    unfold block. rewrite !map_app, HRback. reflexivity. }
  rewrite (rsaDecrypt_text fs _ do _ Htext), same_delimiter. fold R.
  assert (R <> []) as HRne.
  { intro E. rewrite E in delimiter_not_letters. inversion delimiter_not_letters. }
  rewrite split_index_1 by exact HRne.
  rewrite after_first_at; [reflexivity|].
  intros pre post E.
  apply (occurrence_not_before_filler (fun c => is_lower_letter c = true)
           (map Byte.to_N filler) R (map Byte.to_N content) pre post).
  - intro c. destruct (is_lower_letter c); [left|right]; congruence.
  - apply Forall_map. exact Hletters.
  - eapply Exists_impl; [|exact delimiter_not_letters].
    intros c Hc. cbv beta in Hc. congruence.
  - exact E.
Qed.

End RoundTrip.

(** ** Key pairs: the exponents undo each other *)

Lemma divide_coprime_product (a b x : Z) :
  Z.gcd a b = 1 -> (a | x) -> (b | x) -> (a * b | x).
Proof.
  intros Hg [u ->] Hb.
  rewrite Z.mul_comm in Hb. apply Z.gauss in Hb; [|rewrite Z.gcd_comm; exact Hg].
  destruct Hb as [v ->]. exists v. ring.
Qed.

Lemma increasing_head (p : Z) (ps : list Z) :
  increasing (p :: ps) = true ->
  Forall (fun q => p < q) ps /\ increasing ps = true.
Proof.
  revert p. induction ps as [|q ps IH]; intros p H.
  - split; [constructor|reflexivity].
  - cbn [increasing] in H. apply andb_true_iff in H. destruct H as [Hpq Hinc].
    apply Z.ltb_lt in Hpq. split; [|exact Hinc].
    constructor; [exact Hpq|].
    destruct (IH q Hinc) as [Hall _].
    eapply Forall_impl; [|exact Hall]. intros r Hr. cbv beta in Hr. lia.
Qed.

Lemma coprime_primes (p q : Z) : Z.prime p -> Z.prime q -> p <> q -> Z.gcd p q = 1.
Proof.
  intros Hp Hq Hne. apply Z.coprime_prime_l; [exact Hp|].
  intro Hdiv. apply (Z.divide_prime_prime p q Hp Hq) in Hdiv. contradiction.
Qed.

Lemma coprime_product (p : Z) (ps : list Z) :
  Z.prime p -> Forall Z.prime ps -> Forall (fun q => p < q) ps ->
  Z.gcd p (product ps) = 1.
Proof.
  intros Hp Hps Hlt. induction ps as [|q ps IH].
  - apply Z.gcd_1_r.
  - inversion Hps as [|? ? Hq Hps']; subst.
    inversion Hlt as [|? ? Hpq Hlt']; subst.
    cbn [product fold_right]. apply Z.coprime_mul_r.
    + apply coprime_primes; [exact Hp|exact Hq|lia].
    + apply IH; assumption.
Qed.

Lemma divide_product (ps : list Z) (x : Z) :
  Forall Z.prime ps ->
  increasing ps = true ->
  Forall (fun p => (p | x)) ps ->
  (product ps | x).
Proof.
  induction ps as [|p ps IH]; intros Hps Hinc Hd.
  - apply Z.divide_1_l.
  - inversion Hps as [|? ? Hp Hps']; subst.
    inversion Hd as [|? ? Hpx Hd']; subst.
    destruct (increasing_head p ps Hinc) as [Hlt Hinc'].
    cbn [product fold_right]. apply divide_coprime_product.
    + apply coprime_product; assumption.
    + exact Hpx.
    + apply IH; assumption.
Qed.

Lemma product_positive (ps : list Z) : Forall Z.prime ps -> 0 < product ps.
Proof.
  induction 1 as [|p ps Hp _ IH]; [reflexivity|].
  cbn [product fold_right]. pose proof (Z.prime_ge_2 p Hp). fold (product ps). nia.
Qed.

(** Fermat's little theorem, for an exponent that is 1 modulo [p - 1]. *)
Lemma pow_mod_prime (p a k : Z) :
  Z.prime p -> 0 < k -> (p - 1 | k - 1) -> a ^ k mod p = a mod p.
Proof.
  intros Hp Hk [t Ht].
  pose proof (Z.prime_ge_2 p Hp) as Hp2.
  assert (0 <= t) as Ht0 by nia.
  destruct (Z.eq_dec (a mod p) 0) as [Hz|Hnz].
  - rewrite <- Z.mod_pow_l, Hz, Z.pow_0_l by lia. reflexivity.
  - replace k with (1 + (p - 1) * t) by lia.
    rewrite Z.pow_add_r, Z.pow_1_r, Z.pow_mul_r by lia.
    rewrite Z.mul_mod by lia.
    rewrite <- (Z.mod_pow_l (a ^ (p - 1))), (Z.fermat_nz p a Hp Hnz).
    rewrite Z.pow_1_l by lia.
    rewrite (Z.mod_small 1) by lia.
    rewrite Z.mul_1_r, Z.mod_mod by lia. reflexivity.
Qed.

(** A number with a proper divisor has one that is at most its square
    root. *)
Lemma prime_by_trial_sound (p : Z) : prime_by_trial p = true -> Z.prime p.
Proof.
  unfold prime_by_trial. intro H. apply andb_true_iff in H.
  destruct H as [H1 Hall]. apply Z.ltb_lt in H1.
  rewrite forallb_forall in Hall.
  assert (forall k, 1 < k -> k * k <= p -> ~ (k | p)) as Hsmall.
  { intros k Hk Hkk Hdiv.
    assert (k <= Z.sqrt p) as Hsq by (apply Z.sqrt_le_square; lia).
    specialize (Hall (Z.to_nat k)). rewrite Z2Nat.id in Hall by lia.
    assert (In (Z.to_nat k) (seq 2 (Z.to_nat (Z.sqrt p) - 1))) as Hin
        by (apply in_seq; lia).
    apply Hall in Hin. apply negb_true_iff, Z.eqb_neq in Hin.
    apply Hin. apply Z.mod0_divide. exact Hdiv. }
  split; [exact H1|].
  intros a Ha [b Hb].
  assert (1 < b) as Hb1 by nia.
  destruct (Z.le_gt_cases a b) as [Hab|Hab].
  - apply (Hsmall a); [lia|nia|]. exists b. exact Hb.
  - apply (Hsmall b); [lia|nia|]. exists a. lia.
Qed.

(** RSA is correct for a modulus that is a product of distinct primes. *)
Theorem rsa_key_pair_of_primes (ps : list Z) (e d : Z) :
  0 <= e -> 0 <= d ->
  Forall Z.prime ps ->
  increasing ps = true ->
  exponents_match e d ps = true ->
  rsa_key_pair (product ps) e d.
Proof.
  intros He Hd Hprimes Hinc Hexp m Hm.
  pose proof (product_positive ps Hprimes) as Hn.
  unfold exponents_match in Hexp. apply andb_true_iff in Hexp.
  destruct Hexp as [Hed Hexp]. apply Z.ltb_lt in Hed.
  rewrite !Zpow_mod_correct by lia.
  rewrite Z.mod_pow_l, <- Z.pow_mul_r by lia.
  assert (product ps | m ^ (e * d) - m) as [c Hc].
  { apply divide_product; [exact Hprimes|exact Hinc|].
    pose proof Hprimes as Hprimes'.
    rewrite Forall_forall in Hprimes'. rewrite forallb_forall in Hexp.
    apply Forall_forall. intros p Hin.
    pose proof (Hprimes' p Hin) as Hp. pose proof (Z.prime_ge_2 p Hp) as Hp2.
    specialize (Hexp p Hin). apply Z.eqb_eq in Hexp.
    apply Z.mod_divide in Hexp; [|lia].
    apply Z.mod_divide; [lia|].
    rewrite Zminus_mod, (pow_mod_prime p m (e * d) Hp Hed Hexp).
    rewrite Z.sub_diag. apply Z.mod_0_l. lia. }
  replace (m ^ (e * d)) with (m + c * product ps) by lia.
  rewrite Z_mod_plus_full. apply Z.mod_small. exact Hm.
Qed.



Lemma big_key_pair : rsa_key_pair big_n big_e big_d.
Proof.
  apply rsa_key_pair_of_primes.
  - unfold big_e. lia.
  - unfold big_d. lia.
  - apply Forall_forall. intros p Hp. apply prime_by_trial_sound.
    assert (forallb prime_by_trial big_primes = true) as H
        by (vm_compute; reflexivity).
    rewrite forallb_forall in H. apply H. exact Hp.
  - vm_compute. reflexivity.
  - vm_compute. reflexivity.
Qed.

Lemma big_n_bits : 2 ^ 2047 <= big_n < 2 ^ 2048.
Proof.
  split; [apply Z.leb_le|apply Z.ltb_lt]; vm_compute; reflexivity.
Qed.

(** C1. With a 2048-bit key pair, the delimiter [||] and the payload
    [hello], and with the same encoding of the ciphertext on both sides,
    [rsaDecrypt] of what [rsaEncrypt] returns is [hello], whatever
    letters [Math.random] picks for the filler. *)
Theorem rsa_roundtrip_hello
        (Math_random : nat -> Q) (fs : jsstring -> option file)
        (n e d : Z) (pubPath priPath : jsstring)
        (ciphertextEncoding plaintextEncoding : option encoding) (calls : nat) :
  unit_interval Math_random ->
  2 ^ 2047 <= n < 2 ^ 2048 ->
  rsa_key_pair n e d ->
  fs pubPath = Some (PEM_public n e) ->
  fs priPath = Some (PEM_private n e d) ->
  binary_safe (default base64 ciphertextEncoding) = true ->
  renders_ascii (default utf8 plaintextEncoding) = true ->
  exists cipher calls',
    rsaEncrypt Math_random fs (Buffer_from (lit "hello"))
               {| enc_splitBar := lit "||"; pubKeyPath := pubPath;
                  keyLength := 2048; enc_outputEncoding := ciphertextEncoding |}
               calls
    = Normal (cipher, calls')
    /\ rsaDecrypt fs cipher
                  {| dec_splitBar := lit "||"; priKeyPath := priPath;
                     dec_outputEncoding := plaintextEncoding;
                     dec_inputEncoding := ciphertextEncoding |}
       = Normal (Str (lit "hello")).
Proof.
  intros Hrange Hbits Hpair Hpub Hpri Hsafe Htext.
  apply (rsa_roundtrip Math_random fs Hrange n e d 256 Hbits ltac:(lia) Hpair
           (Buffer_from (lit "hello"))
           {| enc_splitBar := lit "||"; pubKeyPath := pubPath;
              keyLength := 2048; enc_outputEncoding := ciphertextEncoding |}
           {| dec_splitBar := lit "||"; priKeyPath := priPath;
              dec_outputEncoding := plaintextEncoding;
              dec_inputEncoding := ciphertextEncoding |}).
  - exact Hpub.
  - exact Hpri.
  - reflexivity.
  - reflexivity.
  - reflexivity.
  - exact Hsafe.
  - exact Htext.
  - repeat constructor.
  - constructor. reflexivity.
  - repeat constructor.
  - discriminate.
Qed.

Lemma rsa_roundtrip_hello_witness :
  exists cipher calls',
    rsaEncrypt toy_random big_fs (Buffer_from (lit "hello"))
               {| enc_splitBar := lit "||"; pubKeyPath := lit "pub.pem";
                  keyLength := 2048; enc_outputEncoding := None |}
               0%nat
    = Normal (cipher, calls')
    /\ rsaDecrypt big_fs cipher
                  {| dec_splitBar := lit "||"; priKeyPath := lit "pri.pem";
                     dec_outputEncoding := None; dec_inputEncoding := None |}
       = Normal (Str (lit "hello")).
Proof.
  apply (rsa_roundtrip_hello toy_random big_fs big_n big_e big_d).
  - exact toy_random_range.
  - exact big_n_bits.
  - exact big_key_pair.
  - reflexivity.
  - reflexivity.
  - reflexivity.
  - reflexivity.
Defined.

(** The same round trip, run on the 40-bit key. *)
Example toy_roundtrip :
  match rsaEncrypt toy_random toy_fs (Buffer_from (lit "hi"))
                   (toy_encrypt_options (lit "||") 40) 0%nat with
  | Normal (cipher, _) =>
    rsaDecrypt toy_fs cipher (toy_decrypt_options (lit "||")) = Normal (Str (lit "hi"))
  | Throw _ => False
  end.
Proof. vm_compute. reflexivity. Qed.

(** ** Rendering in two pieces *)

Lemma utf8_run_app (a b : list byte) (st : utf8_state) :
  utf8_run st (a ++ b)
  = let (st1, out1) := utf8_run st a in
    let (st2, out2) := utf8_run st1 b in
    (st2, out1 ++ out2).
Proof.
  revert st. induction a as [|x a IH]; intro st.
  - cbn [app utf8_run]. destruct (utf8_run st b). reflexivity.
  - cbn [app utf8_run]. destruct (utf8_step st (Byte.to_N x)) as [st1 o1].
    rewrite IH. destruct (utf8_run st1 a) as [st2 o2].
    destruct (utf8_run st2 b) as [st3 o3]. rewrite app_assoc. reflexivity.
Qed.

Lemma base64_encode_app (m : nat) :
  forall a b : list byte,
    length a = (3 * m)%nat ->
    base64_encode (a ++ b) = base64_encode a ++ base64_encode b.
Proof.
  induction m as [|m IH]; intros a b Hlen.
  - destruct a; [reflexivity|cbn in Hlen; lia].
  - destruct a as [|b0 [|b1 [|b2 a]]]; cbn [length] in Hlen; try lia.
    cbn [app base64_encode]. rewrite IH by lia. reflexivity.
Qed.

(** What [update] and [final] return, put together, is the rendering of
    the whole output. *)
Lemma decoder_write_end (enc : encoding) (a b : Buffer) :
  fst (decoder_write (StringDecoder enc) a)
  ++ decoder_end (snd (decoder_write (StringDecoder enc) a)) b
  = Buffer_toString (a ++ b) enc.
Proof.
  destruct enc; cbn [StringDecoder decoder_write decoder_end Buffer_toString].
  - unfold utf8_decode. rewrite utf8_run_app.
    destruct (utf8_run utf8_init a) as [st1 o1]. cbn [fst snd decoder_end].
    destruct (utf8_run st1 b) as [st2 o2]. apply app_assoc.
  - cbn [fst snd]. symmetry. apply map_app.
  - cbn [fst snd]. symmetry. apply map_app.
  - cbn [fst snd]. unfold hex_encode. symmetry. apply flat_map_app.
  - cbn [fst snd app].
    set (n := (3 * (length a / 3))%nat). cbn [decoder_end].
    rewrite <- (base64_encode_app (length a / 3) (firstn n a)).
    + rewrite app_assoc, firstn_skipn. reflexivity.
    + rewrite length_firstn. unfold n.
      pose proof (Nat.Div0.mul_div_le (length a) 3). lia.
Qed.

(** ** The round trip through [aesEncrypt] and [aesDecrypt] *)

Section AESFacts.

Variable suite : cipher_suite.
Variables (alg : jsstring) (key iv : Buffer).
Hypothesis undone : decipher_undoes_cipher suite alg key iv.

(** With a binary-safe encoding of the ciphertext, decrypting what was
    encrypted renders the bytes of the payload. *)
Lemma aes_roundtrip_bytes (content : data)
      (plaintextEncoding ciphertextEncoding : option encoding) :
  binary_safe (default base64 ciphertextEncoding) = true ->
  exists c,
    aesEncrypt suite content
               {| algorithm := alg; aes_key := key; aes_iv := iv;
                  inputEncoding := plaintextEncoding;
                  outputEncoding := ciphertextEncoding |}
    = Normal c
    /\ aesDecrypt suite (OfString c)
                  {| algorithm := alg; aes_key := key; aes_iv := iv;
                     inputEncoding := ciphertextEncoding;
                     outputEncoding := plaintextEncoding |}
       = Normal (Buffer_toString (data_bytes content plaintextEncoding)
                                 (default utf8 plaintextEncoding)).
Proof.
  intro Hsafe.
  destruct undone as [c0 [d0 [Hc [Hd Hinv]]]].
  set (plain := data_bytes content plaintextEncoding).
  destruct (Hinv plain) as [out2 [p2 [Hfc [Hfd Hplain]]]].
  unfold aesEncrypt, aesDecrypt.
  cbn [algorithm aes_key aes_iv inputEncoding outputEncoding].
  rewrite Hc, Hd. fold plain.
  destruct (updateCipher suite c0 plain) as [c1 out1] eqn:Hu.
  cbn [fst snd] in Hfc, Hfd, Hplain.
  pose proof (decoder_write_end (default base64 ciphertextEncoding) out1 out2) as Henc.
  destruct (decoder_write (StringDecoder (default base64 ciphertextEncoding)) out1)
    as [text1 sd1].
  cbn [fst snd] in Henc. rewrite Hfc, Henc.
  eexists. split; [reflexivity|].
  cbn [data_bytes default].
  rewrite Buffer_from_toString by exact Hsafe.
  destruct (updateDecipher suite d0 (out1 ++ out2)) as [d1 p1] eqn:Hud.
  cbn [fst snd] in Hfd, Hplain.
  pose proof (decoder_write_end (default utf8 plaintextEncoding) p1 p2) as Hdec.
  destruct (decoder_write (StringDecoder (default utf8 plaintextEncoding)) p1)
    as [text2 sd2].
  cbn [fst snd] in Hdec. rewrite Hfd, Hdec, Hplain. reflexivity.
Qed.

End AESFacts.

(** Payloads that an encoding keeps: ASCII text under the three text
    encodings, well-formed text under utf8, and text of code units below
    256 under latin1. *)
Lemma representable_ascii (x : jsstring) (enc : encoding) :
  renders_ascii enc = true ->
  Forall (fun c => is_ascii c = true) x ->
  representable x enc.
Proof.
  intros Henc Hx. unfold representable.
  assert (Forall (fun c => (c <? 128)%N = true) x) as Hx' by exact Hx.
  assert (Buffer_from_encoded x enc = map byte_of_N x) as ->.
  { destruct enc; try discriminate; cbn [Buffer_from_encoded];
      [apply utf8_encode_ascii; exact Hx'|reflexivity|reflexivity]. }
  assert (forall c, In c x -> Byte.to_N (byte_of_N c) = c) as Hback.
  { intros c Hc. rewrite Forall_forall in Hx'. specialize (Hx' c Hc).
    apply N.ltb_lt in Hx'. rewrite to_N_byte_of_N. apply N.mod_small. lia. }
  rewrite Buffer_toString_ascii.
  - rewrite map_map. rewrite <- (map_id x) at 2. apply map_ext_in. exact Hback.
  - exact Henc.
  - apply Forall_forall. intros b Hb. apply in_map_iff in Hb.
    destruct Hb as [c [<- Hc]]. rewrite (Hback c Hc).
    rewrite Forall_forall in Hx. exact (Hx c Hc).
Qed.

Lemma representable_utf8 (x : jsstring) :
  well_formed x = true -> representable x utf8.
Proof. apply utf8_decode_encode. Qed.

Lemma representable_latin1 (x : jsstring) :
  Forall (fun c => (c <? 256)%N = true) x -> representable x latin1.
Proof.
  intro Hx. unfold representable. cbn [Buffer_from_encoded Buffer_toString].
  rewrite map_map. rewrite <- (map_id x) at 2. apply map_ext_in.
  intros c Hc. rewrite Forall_forall in Hx. specialize (Hx c Hc).
  apply N.ltb_lt in Hx. rewrite to_N_byte_of_N. apply N.mod_small. exact Hx.
Qed.

(** ** AES: the inverse cipher undoes the cipher *)


Lemma byte_as_bits (P : byte -> Prop) :
  (forall t : bits8, P (Byte.of_bits t)) -> forall a, P a.
Proof.
  intros H a. rewrite <- (Byte.of_bits_to_bits a). apply H.
Qed.

Ltac bits_of a :=
  pattern a; apply byte_as_bits; clear a; intros [? [? [? [? [? [? [? ?]]]]]]].

Ltac bits_compute :=
  repeat (rewrite Byte.to_bits_of_bits; cbn [bits_xor bits_xtime]).

Ltac bits_equal :=
  apply f_equal; repeat (apply (f_equal2 (@pair _ _))); ring.

Lemma byte_xor_involutive (a k : byte) : byte_xor (byte_xor a k) k = a.
Proof.
  bits_of a. bits_of k. unfold byte_xor. bits_compute. bits_equal.
Qed.

Lemma xor_bytes_involutive (a k : list byte) : xor_bytes (xor_bytes a k) k = a.
Proof.
  revert k. induction a as [|x a IH]; intros [|y k]; try reflexivity.
  cbn [xor_bytes]. rewrite byte_xor_involutive, IH. reflexivity.
Qed.

Lemma xor_bytes_length (a k : list byte) : length (xor_bytes a k) = length a.
Proof.
  revert k. induction a as [|x a IH]; intros [|y k]; try reflexivity.
  cbn [xor_bytes length]. rewrite IH. reflexivity.
Qed.

Lemma inv_sbox_sbox (b : byte) : inv_sbox (sbox b) = b.
Proof. destruct b; reflexivity. Qed.

Lemma InvSubBytes_SubBytes (s : list byte) : InvSubBytes (SubBytes s) = s.
Proof.
  unfold InvSubBytes, SubBytes. rewrite map_map.
  rewrite <- (map_id s) at 2. apply map_ext. apply inv_sbox_sbox.
Qed.

Lemma InvShiftRows_ShiftRows (s : list byte) : InvShiftRows (ShiftRows s) = s.
Proof.
  do 17 (destruct s as [|? s]; [reflexivity|]). reflexivity.
Qed.

Lemma inv_mix_column_mix_column (a0 a1 a2 a3 : byte) :
  match mix_column a0 a1 a2 a3 with
  | [b0; b1; b2; b3] => inv_mix_column b0 b1 b2 b3
  | _ => []
  end = [a0; a1; a2; a3].
Proof.
  bits_of a0. bits_of a1. bits_of a2. bits_of a3.
  unfold mix_column, inv_mix_column, xor4, mul2, mul3, mul9, mul11, mul13, mul14,
    xtime, byte_xor.
  bits_compute.
  repeat (apply (f_equal2 (@cons _))); try reflexivity; bits_equal.
Qed.

Lemma InvMixColumns_MixColumns (s : list byte) : InvMixColumns (MixColumns s) = s.
Proof.
  assert (forall n s, (length s <= n)%nat -> InvMixColumns (MixColumns s) = s) as H.
  { clear s. induction n as [|n IH]; intros s Hlen.
    - destruct s; [reflexivity|cbn in Hlen; lia].
    - destruct s as [|a0 [|a1 [|a2 [|a3 s]]]]; try reflexivity.
      cbn [length] in Hlen.
      change (MixColumns (a0 :: a1 :: a2 :: a3 :: s))
        with (mix_column a0 a1 a2 a3 ++ MixColumns s).
      pose proof (inv_mix_column_mix_column a0 a1 a2 a3) as Hcol.
      unfold mix_column in *. cbn [app InvMixColumns].
      rewrite Hcol. cbn [app]. rewrite IH by lia. reflexivity. }
  apply (H (length s)). lia.
Qed.

Lemma inv_rounds_rounds (keys : list (list byte)) :
  forall s, inv_rounds (rounds s keys) keys = s.
Proof.
  induction keys as [|k keys IH]; intro s; [reflexivity|].
  destruct keys as [|k' keys].
  - cbn [rounds inv_rounds]. unfold AddRoundKey.
    rewrite xor_bytes_involutive, InvShiftRows_ShiftRows, InvSubBytes_SubBytes.
    reflexivity.
  - change (rounds s (k :: k' :: keys))
      with (rounds (AddRoundKey (MixColumns (ShiftRows (SubBytes s))) k) (k' :: keys)).
    change (inv_rounds ?x (k :: k' :: keys))
      with (InvSubBytes (InvShiftRows (InvMixColumns
              (AddRoundKey (inv_rounds x (k' :: keys)) k)))).
    rewrite IH. unfold AddRoundKey.
    rewrite xor_bytes_involutive, InvMixColumns_MixColumns,
      InvShiftRows_ShiftRows, InvSubBytes_SubBytes.
    reflexivity.
Qed.

(** Whatever the round keys, [InvCipher] undoes [Cipher]. *)
Lemma InvCipher_Cipher (keys : list (list byte)) (block : list byte) :
  InvCipher keys (Cipher keys block) = block.
Proof.
  destruct keys as [|k0 keys]; [reflexivity|].
  unfold InvCipher, Cipher. rewrite inv_rounds_rounds.
  apply xor_bytes_involutive.
Qed.

Lemma ShiftRows_length (s : list byte) : length (ShiftRows s) = length s.
Proof.
  do 17 (destruct s as [|? s]; [reflexivity|]). reflexivity.
Qed.

Lemma MixColumns_length (s : list byte) : length (MixColumns s) = length s.
Proof.
  assert (forall n s, (length s <= n)%nat -> length (MixColumns s) = length s) as H.
  { clear s. induction n as [|n IH]; intros s Hlen.
    - destruct s; [reflexivity|cbn in Hlen; lia].
    - destruct s as [|a0 [|a1 [|a2 [|a3 s]]]]; try reflexivity.
      cbn [length] in Hlen.
      change (MixColumns (a0 :: a1 :: a2 :: a3 :: s))
        with (mix_column a0 a1 a2 a3 ++ MixColumns s).
      rewrite length_app, IH by lia. reflexivity. }
  apply (H (length s)). lia.
Qed.

Lemma rounds_length (keys : list (list byte)) :
  forall s, length (rounds s keys) = length s.
Proof.
  induction keys as [|k keys IH]; intro s; [reflexivity|].
  destruct keys as [|k' keys].
  - cbn [rounds]. unfold AddRoundKey, SubBytes.
    rewrite xor_bytes_length, ShiftRows_length, length_map. reflexivity.
  - change (rounds s (k :: k' :: keys))
      with (rounds (AddRoundKey (MixColumns (ShiftRows (SubBytes s))) k) (k' :: keys)).
    rewrite IH. unfold AddRoundKey, SubBytes.
    rewrite xor_bytes_length, MixColumns_length, ShiftRows_length, length_map.
    reflexivity.
Qed.

Lemma Cipher_length (keys : list (list byte)) (block : list byte) :
  length (Cipher keys block) = length block.
Proof.
  destruct keys as [|k0 keys]; [reflexivity|].
  unfold Cipher. rewrite rounds_length. apply xor_bytes_length.
Qed.

(** ** The modes: decryption undoes encryption *)

Lemma chain_involutive (m : aes_mode) (block prev : list byte) :
  chain m (chain m block prev) prev = block.
Proof. destruct m; try reflexivity. apply xor_bytes_involutive. Qed.

Lemma chain_length (m : aes_mode) (block prev : list byte) :
  length (chain m block prev) = length block.
Proof. destruct m; try reflexivity. apply xor_bytes_length. Qed.

Section BlockModes.

Variable m : aes_mode.
Variable keys : list (list byte).

Lemma encrypt_blocks_length (n : nat) :
  forall prev data,
    (16 * n <= length data)%nat ->
    length (fst (encrypt_blocks m keys n prev data)) = (16 * n)%nat.
Proof.
  induction n as [|n IH]; intros prev data Hlen; [reflexivity|].
  cbn [encrypt_blocks].
  specialize (IH (Cipher keys (chain m (firstn 16 data) prev)) (skipn 16 data)).
  destruct (encrypt_blocks m keys n _ (skipn 16 data)) as [out last].
  cbn [fst] in *.
  rewrite length_app, Cipher_length, chain_length, length_firstn, IH
    by (rewrite length_skipn; lia).
  lia.
Qed.

(** The blocks of [a], then those of [b]. *)
Lemma encrypt_blocks_app (n k : nat) :
  forall prev a b,
    length a = (16 * n)%nat ->
    encrypt_blocks m keys (n + k) prev (a ++ b)
    = let (out1, last1) := encrypt_blocks m keys n prev a in
      let (out2, last2) := encrypt_blocks m keys k last1 b in
      (out1 ++ out2, last2).
Proof.
  induction n as [|n IH]; intros prev a b Hlen.
  - destruct a; [|discriminate]. cbn [Nat.add app encrypt_blocks].
    destruct (encrypt_blocks m keys k prev b). reflexivity.
  - cbn [Nat.add encrypt_blocks].
    rewrite firstn_app, skipn_app.
    replace (16 - length a)%nat with O by lia.
    rewrite firstn_O, skipn_O, app_nil_r.
    rewrite IH by (rewrite length_skipn; lia).
    destruct (encrypt_blocks m keys n _ (skipn 16 a)) as [out1 last1].
    destruct (encrypt_blocks m keys k last1 b) as [out2 last2].
    rewrite app_assoc. reflexivity.
Qed.

Lemma encrypt_blocks_firstn (n : nat) :
  forall prev data,
    (16 * n <= length data)%nat ->
    encrypt_blocks m keys n prev data
    = encrypt_blocks m keys n prev (firstn (16 * n) data).
Proof.
  intros prev data Hlen.
  pose proof (encrypt_blocks_app n 0 prev (firstn (16 * n) data)
                (skipn (16 * n) data)) as H.
  rewrite firstn_skipn, Nat.add_0_r in H.
  rewrite H by (rewrite length_firstn; lia).
  destruct (encrypt_blocks m keys n prev (firstn (16 * n) data)) as [out last].
  cbn [encrypt_blocks]. rewrite app_nil_r. reflexivity.
Qed.

Lemma decrypt_encrypt_blocks (n : nat) :
  forall prev data,
    length data = (16 * n)%nat ->
    decrypt_blocks m keys n prev (fst (encrypt_blocks m keys n prev data))
    = (data, snd (encrypt_blocks m keys n prev data)).
Proof.
  induction n as [|n IH]; intros prev data Hlen.
  - destruct data; [reflexivity|discriminate].
  - cbn [encrypt_blocks].
    set (c := Cipher keys (chain m (firstn 16 data) prev)).
    assert (length c = 16%nat) as Hc.
    { unfold c. rewrite Cipher_length, chain_length, length_firstn. lia. }
    specialize (IH c (skipn 16 data)).
    destruct (encrypt_blocks m keys n c (skipn 16 data)) as [out last].
    cbn [fst snd decrypt_blocks] in *.
    rewrite firstn_app, skipn_app, Hc. change (16 - 16)%nat with O.
    rewrite firstn_O, skipn_O, app_nil_r.
    rewrite firstn_all2, skipn_all2 by lia. cbn [app].
    rewrite IH by (rewrite length_skipn; lia).
    unfold c. rewrite InvCipher_Cipher, chain_involutive.
    rewrite firstn_skipn. reflexivity.
Qed.

End BlockModes.

(** The padding and its removal. *)
Lemma nat_of_byte_of_nat (n : nat) : (n < 256)%nat -> nat_of_byte (byte_of_nat n) = n.
Proof.
  intro H. unfold nat_of_byte, byte_of_nat.
  rewrite to_N_byte_of_N, N.mod_small by lia. apply Nat2N.id.
Qed.

Lemma last_repeat {A} (l : list A) (x d : A) (n : nat) :
  (0 < n)%nat -> last (l ++ repeat x n) d = x.
Proof.
  intro Hn. destruct n as [|n]; [lia|].
  replace (repeat x (S n)) with (repeat x n ++ [x]).
  - rewrite app_assoc. apply last_last.
  - change [x] with (repeat x 1). rewrite <- repeat_app.
    f_equal. lia.
Qed.

Lemma forallb_repeat {A} (p : A -> bool) (x : A) (n : nat) :
  p x = true -> forallb p (repeat x n) = true.
Proof.
  intro H. induction n as [|n IH]; [reflexivity|].
  cbn [repeat forallb]. rewrite H, IH. reflexivity.
Qed.

Lemma div16_bounds (len : nat) :
  (16 * (len / 16) <= len < 16 * (len / 16) + 16)%nat.
Proof.
  pose proof (Nat.div_mod_eq len 16). pose proof (Nat.mod_upper_bound len 16). lia.
Qed.

(** One [update] and [final] of a cipher in a block mode, then one
    [update] and [final] of the decipher of the same keys and vector. *)
Lemma block_mode_roundtrip (m : aes_mode) (keys : list (list byte))
      (iv plain : list byte) :
  m = ECB \/ m = CBC ->
  let c0 := {| c_mode := m; c_keys := keys; c_position := iv; c_pending := [] |} in
  let d0 := {| d_mode := m; d_keys := keys; d_position := iv; d_pending := [];
               d_held := [] |} in
  exists out2 p2,
    aes_final_cipher (fst (aes_update_cipher c0 plain)) = Normal out2
    /\ aes_final_decipher
         (fst (aes_update_decipher d0 (snd (aes_update_cipher c0 plain) ++ out2)))
       = Normal p2
    /\ snd (aes_update_decipher d0 (snd (aes_update_cipher c0 plain) ++ out2)) ++ p2
       = plain.
Proof.
  intros Hm c0 d0.
  set (n := (length plain / 16)%nat).
  set (r := skipn (16 * n) plain).
  pose proof (div16_bounds (length plain)) as Hdiv. fold n in Hdiv.
  assert (length r = (length plain - 16 * n)%nat) as Hr
      by (unfold r; apply length_skipn).
  set (pad := (16 - length r)%nat).
  assert (0 < pad <= 16)%nat as Hpad by (unfold pad; lia).
  set (padding := repeat (byte_of_nat pad) pad).
  (* the cipher *)
  assert (aes_update_cipher c0 plain
          = ({| c_mode := m; c_keys := keys;
                c_position := snd (encrypt_blocks m keys n iv plain);
                c_pending := r |},
             fst (encrypt_blocks m keys n iv plain))) as Hup.
  { unfold aes_update_cipher, c0. cbn [c_mode c_keys c_position c_pending app].
    fold n. destruct (encrypt_blocks m keys n iv plain) as [out last].
    destruct Hm as [-> | ->]; reflexivity. }
  rewrite Hup. cbn [fst snd].
  assert (aes_final_cipher
            {| c_mode := m; c_keys := keys;
               c_position := snd (encrypt_blocks m keys n iv plain);
               c_pending := r |}
          = Normal (fst (encrypt_blocks m keys 1
                           (snd (encrypt_blocks m keys n iv plain))
                           (r ++ padding)))) as Hfin.
  { unfold aes_final_cipher. cbn [c_mode c_keys c_position c_pending].
    destruct Hm as [-> | ->]; reflexivity. }
  rewrite Hfin.
  eexists. eexists. split; [reflexivity|].
  (* the whole ciphertext *)
  set (X := firstn (16 * n) plain ++ r ++ padding).
  assert (length X = (16 * (n + 1))%nat) as HX.
  { unfold X, padding. rewrite !length_app, length_firstn, repeat_length. lia. }
  assert (fst (encrypt_blocks m keys n iv plain)
          ++ fst (encrypt_blocks m keys 1 (snd (encrypt_blocks m keys n iv plain))
                    (r ++ padding))
          = fst (encrypt_blocks m keys (n + 1) iv X)) as HC.
  { unfold X. rewrite encrypt_blocks_app by (rewrite length_firstn; lia).
    rewrite (encrypt_blocks_firstn m keys n iv plain) by lia.
    destruct (encrypt_blocks m keys n iv (firstn (16 * n) plain)) as [out1 last1].
    cbn [fst snd].
    destruct (encrypt_blocks m keys 1 last1 (r ++ padding)) as [out2 last2].
    reflexivity. }
  rewrite HC.
  set (C := fst (encrypt_blocks m keys (n + 1) iv X)).
  assert (length C = (16 * (n + 1))%nat) as HClen
      by (unfold C; apply encrypt_blocks_length; lia).
  (* the decipher *)
  assert (aes_update_decipher d0 C
          = ({| d_mode := m; d_keys := keys;
                d_position := snd (encrypt_blocks m keys (n + 1) iv X);
                d_pending := []; d_held := r ++ padding |},
             firstn (16 * n) plain)) as Hdec.
  { assert (firstn (16 * n) X = firstn (16 * n) plain) as HXf.
    { unfold X. rewrite firstn_app, length_firstn.
      replace (16 * n - Nat.min (16 * n) (length plain))%nat with O by lia.
      rewrite firstn_O, app_nil_r, firstn_firstn. f_equal. lia. }
    assert (skipn (16 * n) X = r ++ padding) as HXs.
    { unfold X. rewrite skipn_app, length_firstn.
      replace (16 * n - Nat.min (16 * n) (length plain))%nat with O by lia.
      rewrite skipn_O, skipn_all2 by (rewrite length_firstn; lia). reflexivity. }
    assert (length C / 16 = n + 1)%nat as Hblocks
        by (rewrite HClen, Nat.mul_comm, Nat.div_mul; lia).
    pose proof (decrypt_encrypt_blocks m keys (n + 1) iv X HX) as Hback.
    fold C in Hback.
    unfold aes_update_decipher, d0.
    destruct Hm as [-> | ->];
      cbn [d_mode d_keys d_position d_pending d_held app];
      rewrite Hblocks, Hback, skipn_all2 by lia;
      replace (length X - 16)%nat with (16 * n)%nat by lia;
      rewrite HXf, HXs; reflexivity. }
  rewrite Hdec. cbn [fst snd].
  assert (aes_final_decipher
            {| d_mode := m; d_keys := keys;
               d_position := snd (encrypt_blocks m keys (n + 1) iv X);
               d_pending := []; d_held := r ++ padding |}
          = Normal r) as Hdfin.
  { assert (length (r ++ padding) = 16%nat) as Hheld
        by (unfold padding; rewrite length_app, repeat_length; lia).
    assert (nat_of_byte (last (r ++ padding) x00) = pad) as Hlast
        by (unfold padding; rewrite last_repeat by lia;
            apply nat_of_byte_of_nat; lia).
    assert (skipn (16 - pad) (r ++ padding) = padding) as Hskip.
    { replace (16 - pad)%nat with (length r) by (unfold pad; lia).
      rewrite skipn_app, Nat.sub_diag, skipn_O, skipn_all. reflexivity. }
    assert (firstn (16 - pad) (r ++ padding) = r) as Hfirst.
    { replace (16 - pad)%nat with (length r) by (unfold pad; lia).
      rewrite firstn_app, Nat.sub_diag, firstn_O, firstn_all. apply app_nil_r. }
    assert (forallb (fun b => (nat_of_byte b =? pad)%nat) padding = true) as Hall
        by (apply forallb_repeat; rewrite nat_of_byte_of_nat by lia;
            apply Nat.eqb_refl).
    assert ((pad =? 0)%nat || (16 <? pad)%nat = false) as Hrange.
    { destruct (Nat.eqb_spec pad 0) as [E|_]; [lia|].
      destruct (Nat.ltb_spec 16 pad) as [E|_]; [lia|reflexivity]. }
    unfold aes_final_decipher.
    destruct Hm as [-> | ->];
      cbn [d_mode d_pending d_held length Nat.eqb negb orb];
      rewrite Hheld; cbn [Nat.eqb negb orb];
      rewrite Hlast, Hrange, Hskip, Hall, Hfirst; reflexivity. }
  rewrite Hdfin. split; [reflexivity|].
  apply firstn_skipn.
Qed.

(** The counter modes: adding the key stream twice. *)
Lemma stream_xor_involutive (width : nat) (keys : list (list byte)) :
  forall input counter keystream,
    stream_xor width keys counter keystream
               (fst (stream_xor width keys counter keystream input))
    = (input, snd (stream_xor width keys counter keystream input)).
Proof.
  induction input as [|b input IH]; intros counter keystream; [reflexivity|].
  cbn [stream_xor].
  destruct keystream as [|k keystream].
  - destruct (Cipher keys counter) as [|k keystream] eqn:E.
    + specialize (IH counter []).
      destruct (stream_xor width keys counter [] input) as [out st].
      cbn [fst snd stream_xor] in *. rewrite E, IH. reflexivity.
    + specialize (IH (next_counter width counter) keystream).
      destruct (stream_xor width keys (next_counter width counter) keystream input)
        as [out st].
      cbn [fst snd stream_xor] in *. rewrite E, IH, byte_xor_involutive.
      reflexivity.
  - specialize (IH counter keystream).
    destruct (stream_xor width keys counter keystream input) as [out st].
    cbn [fst snd stream_xor] in *. rewrite IH, byte_xor_involutive. reflexivity.
Qed.

Lemma counter_mode_roundtrip (keys : list (list byte)) (iv plain : list byte) :
  let c0 := {| c_mode := CTR; c_keys := keys; c_position := iv; c_pending := [] |} in
  let d0 := {| d_mode := CTR; d_keys := keys; d_position := iv; d_pending := [];
               d_held := [] |} in
  exists out2 p2,
    aes_final_cipher (fst (aes_update_cipher c0 plain)) = Normal out2
    /\ aes_final_decipher
         (fst (aes_update_decipher d0 (snd (aes_update_cipher c0 plain) ++ out2)))
       = Normal p2
    /\ snd (aes_update_decipher d0 (snd (aes_update_cipher c0 plain) ++ out2)) ++ p2
       = plain.
Proof.
  intros c0 d0. exists [], [].
  unfold aes_update_cipher, aes_update_decipher, c0, d0.
  cbn [c_mode c_keys c_position c_pending d_mode d_keys d_position d_pending
       counter_width].
  pose proof (stream_xor_involutive 16 keys plain iv []) as H.
  destruct (stream_xor 16 keys iv [] plain) as [out [counter keystream]].
  cbn [fst snd] in *. rewrite app_nil_r, H.
  cbn [fst snd]. split; [reflexivity|]. split; [reflexivity|].
  apply app_nil_r.
Qed.

(** For the triples of [unauthenticated_aes] both objects are made, and
    the decipher gives back what the cipher was fed. *)
Lemma unauthenticated_aes_undone (others : cipher_suite) (alg : jsstring)
      (key iv : Buffer) :
  unauthenticated_aes alg key iv = true ->
  decipher_undoes_cipher (openssl others) alg key iv.
Proof.
  unfold unauthenticated_aes, decipher_undoes_cipher.
  destruct (parse_algorithm alg) as [[key_bytes m]|] eqn:Hparse; [|discriminate].
  intro H.
  assert ((length key =? key_bytes)%nat = true
          /\ (m = ECB /\ length iv = 0%nat /\ iv = []
              \/ (m = CBC \/ m = CTR) /\ length iv = 16%nat)) as [Hkey Hiv].
  { destruct m; try discriminate; apply andb_true_iff in H; destruct H as [H1 H2];
      apply Nat.eqb_eq in H2; (split; [exact H1|]); auto.
    left. split; [reflexivity|]. split; [exact H2|].
    destruct iv; [reflexivity|discriminate]. }
  assert (aes_init (key_bytes, m) key iv
          = Normal (m, KeyExpansion key, iv)) as Hinit.
  { unfold aes_init. rewrite Hkey.
    destruct Hiv as [[-> [Hlen ->]]|[[-> | ->] Hlen]]; try rewrite Hlen; reflexivity. }
  cbn [openssl createCipher createDecipher updateCipher updateDecipher
       finalCipher finalDecipher].
  rewrite Hparse, Hinit.
  eexists. eexists. split; [reflexivity|]. split; [reflexivity|].
  intro plain.
  assert (exists out2 p2,
    aes_final_cipher
      (fst (aes_update_cipher
              {| c_mode := m; c_keys := KeyExpansion key; c_position := iv;
                 c_pending := [] |} plain)) = Normal out2
    /\ aes_final_decipher
         (fst (aes_update_decipher
                 {| d_mode := m; d_keys := KeyExpansion key; d_position := iv;
                    d_pending := []; d_held := [] |}
                 (snd (aes_update_cipher
                         {| c_mode := m; c_keys := KeyExpansion key;
                            c_position := iv; c_pending := [] |} plain) ++ out2)))
       = Normal p2
    /\ snd (aes_update_decipher
              {| d_mode := m; d_keys := KeyExpansion key; d_position := iv;
                 d_pending := []; d_held := [] |}
              (snd (aes_update_cipher
                      {| c_mode := m; c_keys := KeyExpansion key;
                         c_position := iv; c_pending := [] |} plain) ++ out2)) ++ p2
       = plain) as [out2 [p2 [H1 [H2 H3]]]].
  { destruct Hiv as [[-> _]|[[-> | ->] _]].
    - apply block_mode_roundtrip. left. reflexivity.
    - apply block_mode_roundtrip. right. reflexivity.
    - apply counter_mode_roundtrip. }
  exists out2, p2.
  destruct (aes_update_cipher _ plain) as [c1 out1]. cbn [fst snd] in *.
  split; [exact H1|].
  destruct (aes_update_decipher _ (out1 ++ out2)) as [d1 p1]. cbn [fst snd] in *.
  split; [exact H2|exact H3].
Qed.

(** ** AES: known answers *)

Example fips197_aes128 :
  Cipher (KeyExpansion (bytes_of_hex "000102030405060708090a0b0c0d0e0f"))
         (bytes_of_hex "00112233445566778899aabbccddeeff")
  = bytes_of_hex "69c4e0d86a7b0430d8cdb78070b4c55a".
Proof. vm_compute. reflexivity. Qed.

Example fips197_aes192 :
  Cipher (KeyExpansion
            (bytes_of_hex "000102030405060708090a0b0c0d0e0f1011121314151617"))
         (bytes_of_hex "00112233445566778899aabbccddeeff")
  = bytes_of_hex "dda97ca4864cdfe06eaf70a0ec0d7191".
Proof. vm_compute. reflexivity. Qed.

Example fips197_aes256 :
  Cipher (KeyExpansion
            (bytes_of_hex
               "000102030405060708090a0b0c0d0e0f101112131415161718191a1b1c1d1e1f"))
         (bytes_of_hex "00112233445566778899aabbccddeeff")
  = bytes_of_hex "8ea2b7ca516745bfeafc49904b496089".
Proof. vm_compute. reflexivity. Qed.

Example fips197_aes256_inverse :
  InvCipher (KeyExpansion
               (bytes_of_hex
                  "000102030405060708090a0b0c0d0e0f101112131415161718191a1b1c1d1e1f"))
            (bytes_of_hex "8ea2b7ca516745bfeafc49904b496089")
  = bytes_of_hex "00112233445566778899aabbccddeeff".
Proof. vm_compute. reflexivity. Qed.

Example xtime_fips197 :
  xtime x57 = xae /\ xtime xae = x47 /\ xtime x47 = x8e /\ xtime x8e = x07.
Proof. repeat split. Qed.

Example sp800_38a_cbc_aes256 :
  cipher_outputs
    "aes-256-cbc"
    (bytes_of_hex "603deb1015ca71be2b73aef0857d77811f352c073b6108d72d9810a30914dff4")
    (bytes_of_hex "000102030405060708090a0b0c0d0e0f")
    (bytes_of_hex "6bc1bee22e409f96e93d7e117393172aae2d8a571e03ac9c9eb76fac45af8e51")
  = Normal
      (bytes_of_hex "f58c4c04d6e5f1ba779eabfb5f7bfbd69cfc4e967edb808d679f777bc6702c7d",
       Normal (bytes_of_hex "3a3aa5e0213db1a9901f9036cf5102d2")).
Proof. vm_compute. reflexivity. Qed.

Example sp800_38a_cbc_aes256_back :
  decipher_outputs
    "aes-256-cbc"
    (bytes_of_hex "603deb1015ca71be2b73aef0857d77811f352c073b6108d72d9810a30914dff4")
    (bytes_of_hex "000102030405060708090a0b0c0d0e0f")
    (bytes_of_hex "f58c4c04d6e5f1ba779eabfb5f7bfbd69cfc4e967edb808d679f777bc6702c7d3a3aa5e0213db1a9901f9036cf5102d2")
  = Normal
      (bytes_of_hex "6bc1bee22e409f96e93d7e117393172aae2d8a571e03ac9c9eb76fac45af8e51",
       Normal (bytes_of_hex "")).
Proof. vm_compute. reflexivity. Qed.

Example cbc_truncated :
  decipher_outputs
    "aes-256-cbc"
    (bytes_of_hex "603deb1015ca71be2b73aef0857d77811f352c073b6108d72d9810a30914dff4")
    (bytes_of_hex "000102030405060708090a0b0c0d0e0f")
    (bytes_of_hex "f58c4c04d6e5f1ba779eabfb5f7bfbd69cfc4e967edb808d679f777bc6702c7d3a3aa5e0213db1a9")
  = Normal
      (bytes_of_hex "6bc1bee22e409f96e93d7e117393172aae2d8a571e03ac9c9eb76fac45af8e51",
       Throw Error_wrong_final_block_length).
Proof. vm_compute. reflexivity. Qed.

Example cbc_bad_padding :
  decipher_outputs
    "aes-256-cbc"
    (bytes_of_hex "603deb1015ca71be2b73aef0857d77811f352c073b6108d72d9810a30914dff4")
    (bytes_of_hex "000102030405060708090a0b0c0d0e0f")
    (bytes_of_hex "f58c4c04d6e5f1ba779eabfb5f7bfbd69cfc4e967edb808d679f777bc6702c7d")
  = Normal
      (bytes_of_hex "6bc1bee22e409f96e93d7e117393172a",
       Throw Error_bad_decrypt).
Proof. vm_compute. reflexivity. Qed.

Example cbc_nothing :
  decipher_outputs
    "aes-256-cbc"
    (bytes_of_hex "603deb1015ca71be2b73aef0857d77811f352c073b6108d72d9810a30914dff4")
    (bytes_of_hex "000102030405060708090a0b0c0d0e0f")
    (bytes_of_hex "")
  = Normal
      (bytes_of_hex "",
       Throw Error_wrong_final_block_length).
Proof. vm_compute. reflexivity. Qed.

Example sp800_38a_ecb_aes256 :
  cipher_outputs
    "aes-256-ecb"
    (bytes_of_hex "603deb1015ca71be2b73aef0857d77811f352c073b6108d72d9810a30914dff4")
    (bytes_of_hex "")
    (bytes_of_hex "6bc1bee22e409f96e93d7e117393172a")
  = Normal
      (bytes_of_hex "f3eed1bdb5d2a03c064b5a7e3db181f8",
       Normal (bytes_of_hex "4c45dfb3b3b484ec35b0512dc8c1c4d6")).
Proof. vm_compute. reflexivity. Qed.

Example sp800_38a_ctr_aes256 :
  cipher_outputs
    "aes-256-ctr"
    (bytes_of_hex "603deb1015ca71be2b73aef0857d77811f352c073b6108d72d9810a30914dff4")
    (bytes_of_hex "f0f1f2f3f4f5f6f7f8f9fafbfcfdfeff")
    (bytes_of_hex "6bc1bee22e409f96e93d7e117393172aae2d8a571e03ac9c9eb76fac45af8e51010203")
  = Normal
      (bytes_of_hex "601ec313775789a5b7a7f504bbf3d228f443e3ca4d62b59aca84e990cacaf5c51ac32f",
       Normal (bytes_of_hex "")).
Proof. vm_compute. reflexivity. Qed.

Example ctr_counter_wraps :
  cipher_outputs
    "aes-128-ctr"
    (bytes_of_hex "2b7e151628aed2a6abf7158809cf4f3c")
    (bytes_of_hex "ffffffffffffffffffffffffffffffff")
    (bytes_of_hex "6bc1bee22e409f96e93d7e117393172aae2d8a57")
  = Normal
      (bytes_of_hex "e13338e36cb71962e00d020b4cedbd86d3dae15b",
       Normal (bytes_of_hex "")).
Proof. vm_compute. reflexivity. Qed.

Example gcm_vector_12 :
  cipher_outputs
    "aes-128-gcm"
    (bytes_of_hex "feffe9928665731c6d6a8f9467308308")
    (bytes_of_hex "cafebabefacedbaddecaf888")
    (bytes_of_hex "d9313225f88406e5a55909c5aff5269a86a7a9531534f7da2e4c303d8a318a721c3c0c9595680953")
  = Normal
      (bytes_of_hex "42831ec2217774244b7221b784d0d49ce3aa212f2c02a4e035c17e2329aca12e21d514b25466931c",
       Normal (bytes_of_hex "")).
Proof. vm_compute. reflexivity. Qed.

Example gcm_vector_12_back :
  decipher_outputs
    "aes-128-gcm"
    (bytes_of_hex "feffe9928665731c6d6a8f9467308308")
    (bytes_of_hex "cafebabefacedbaddecaf888")
    (bytes_of_hex "42831ec2217774244b7221b784d0d49ce3aa212f2c02a4e035c17e2329aca12e21d514b25466931c")
  = Normal
      (bytes_of_hex "d9313225f88406e5a55909c5aff5269a86a7a9531534f7da2e4c303d8a318a721c3c0c9595680953",
       Throw Error_unable_to_authenticate).
Proof. vm_compute. reflexivity. Qed.

Example gcm_vector_8 :
  cipher_outputs
    "aes-128-gcm"
    (bytes_of_hex "feffe9928665731c6d6a8f9467308308")
    (bytes_of_hex "cafebabefacedbad")
    (bytes_of_hex "d9313225f88406e5a55909c5aff5269a86a7a953")
  = Normal
      (bytes_of_hex "61353b4c2806934a777ff51fa22a4755699b2a71",
       Normal (bytes_of_hex "")).
Proof. vm_compute. reflexivity. Qed.

Example gcm_vector_60 :
  cipher_outputs
    "aes-128-gcm"
    (bytes_of_hex "feffe9928665731c6d6a8f9467308308")
    (bytes_of_hex "9313225df88406e555909c5aff5269aa6a7a9538534f7da1e4c303d2a318a728c3c0c95156809539fcf0e2429a6b525416aedbf5a0de6a57a637b39b")
    (bytes_of_hex "d9313225f88406e5a55909c5aff5269a86a7a953")
  = Normal
      (bytes_of_hex "8ce24998625615b603a033aca13fb894be9112a5",
       Normal (bytes_of_hex "")).
Proof. vm_compute. reflexivity. Qed.

Example hello_cbc :
  cipher_outputs
    "aes-256-cbc"
    (bytes_of_hex "6162636465666768696a6b6c6d6e6f707172737475767778797a616263646566")
    (bytes_of_hex "6162636465666768696a6b6c6d6e6f70")
    (bytes_of_hex "68656c6c6f")
  = Normal
      (bytes_of_hex "",
       Normal (bytes_of_hex "27da068f2a48b04ac73d2ef7f69d725e")).
Proof. vm_compute. reflexivity. Qed.

(** The checks of [createCipheriv]. *)
Example createCipheriv_checks :
  cipher_outputs "aes-256-cbc" (repeat x00 16) (repeat x00 16) []
  = Throw Error_invalid_key_length
  /\ cipher_outputs "aes-256-cbc" (repeat x00 32) [] [] = Throw Error_invalid_iv
  /\ cipher_outputs "aes-256-cbc" (repeat x00 32) (repeat x00 12) []
     = Throw Error_invalid_iv
  /\ cipher_outputs "aes-256-ecb" (repeat x00 32) (repeat x00 16) []
     = Throw Error_invalid_iv
  /\ cipher_outputs "aes-256-gcm" (repeat x00 32) [] [] = Throw Error_invalid_iv
  /\ cipher_outputs "aes-257-cbc" (repeat x00 32) (repeat x00 16) []
     = Throw Error_unknown_cipher.
Proof. repeat split. Qed.









(** ** The generator on sizes that are not whole numbers *)

Lemma Qceiling_nonpositive (q : Q) : (q <= 0)%Q -> Qceiling q <= 0.
Proof.
  intro H. change 0 with (Qceiling (inject_Z 0)).
  apply Qceiling_resp_le. exact H.
Qed.

Lemma Qdiv8_nonneg (q : Q) : (0 <= q)%Q -> (0 <= q / 8)%Q.
Proof.
  intro H. unfold Qdiv. apply Qmult_le_0_compat; [exact H|discriminate].
Qed.

Lemma Qdiv8_negative (q : Q) : (q < 0)%Q -> (q / 8 < 0)%Q.
Proof.
  intro H. unfold Qdiv. change (/ 8)%Q with (1 # 8)%Q.
  unfold Qlt, Qmult in *. cbn [Qnum Qden] in *. lia.
Qed.

Lemma letter_bytes_are_letters (Math_random : nat -> Q) (l : list nat) :
  unit_interval Math_random ->
  Forall (fun b => is_lower_letter_byte b = true) (map (letter_byte Math_random) l).
Proof.
  intro Hrange. apply Forall_forall. intros b Hb. apply in_map_iff in Hb.
  destruct Hb as [k [<- _]]. apply letter_byte_is_letter. exact Hrange.
Qed.

(** X1. For every [length], whole or not, positive or not,
    [getRandomString(length)] throws nothing and returns a string with
    one lowercase letter for each integer of [0, length): as many code
    units as [length] rounded up, none when [length] is zero or negative;
    it calls [Math.random] once per letter. *)
Theorem getRandomString_letters
        (Math_random : nat -> Q) (len : Q) (calls : nat) :
  unit_interval Math_random ->
  exists str,
    getRandomString Math_random len calls
    = Normal (str, (calls + Z.to_nat (Qceiling len))%nat)
    /\ length str = Z.to_nat (Qceiling len)
    /\ Forall (fun c => is_lower_letter c = true) str
    /\ ((len <= 0)%Q -> str = []).
Proof.
  intro Hrange.
  exists (draws Math_random calls (Z.to_nat (Qceiling len))).
  split; [apply getRandomString_spec|].
  rewrite (draws_letters Math_random Hrange).
  split; [rewrite length_map, length_seq; reflexivity|].
  split.
  - apply Forall_forall. intros c Hc. apply in_map_iff in Hc.
    destruct Hc as [k [<- _]].
    pose proof (letter_index_range Math_random Hrange k) as Hk.
    unfold is_lower_letter. apply andb_true_iff. split; apply N.leb_le; lia.
  - intro Hneg. apply Qceiling_nonpositive in Hneg.
    replace (Z.to_nat (Qceiling len)) with O by lia. reflexivity.
Qed.

Lemma getRandomString_letters_witness :
  exists str,
    getRandomString toy_random (5 # 2) 0%nat = Normal (str, 3%nat)
    /\ length str = 3%nat
    /\ Forall (fun c => is_lower_letter c = true) str
    /\ ((5 # 2 <= 0)%Q -> str = []).
Proof.
  exact (getRandomString_letters toy_random (5 # 2) 0%nat toy_random_range).
Defined.

(** X2. For every size that is not negative, whole or not,
    [getRandomBytes(size)] returns a buffer of [size] rounded down bytes:
    the letters of the first calls of [Math.random].  The string is drawn
    for [size] rounded up, so for a size that is not whole one more
    letter is drawn than the buffer holds. *)
Theorem getRandomBytes_rounds_down
        (Math_random : nat -> Q) (size : Q) (calls : nat) :
  unit_interval Math_random ->
  (0 <= size)%Q ->
  let buffer := map (letter_byte Math_random) (seq calls (Z.to_nat (Qfloor size))) in
  getRandomBytes Math_random size calls
  = Normal (buffer, (calls + Z.to_nat (Qceiling size))%nat)
  /\ length buffer = Z.to_nat (Qfloor size)
  /\ Forall (fun b => is_lower_letter_byte b = true) buffer
  /\ (length buffer <= Z.to_nat (Qceiling size) <= length buffer + 1)%nat.
Proof.
  intros Hrange Hsize buffer. subst buffer.
  split; [apply getRandomBytes_spec; assumption|].
  split; [rewrite length_map, length_seq; reflexivity|].
  split; [apply letter_bytes_are_letters; exact Hrange|].
  rewrite length_map, length_seq.
  pose proof (Qfloor_le_ceiling size) as Hfc.
  pose proof (Qfloor_nonneg size Hsize) as Hf.
  assert (Qceiling size <= Qfloor size + 1) as Hc1.
  { assert (Qceiling size - 1 < Qfloor size + 1) as Hlt; [|lia].
    rewrite Zlt_Qlt.
    apply Qlt_trans with size; [apply Qceiling_lt|apply Qlt_floor]. }
  lia.
Qed.

Lemma getRandomBytes_rounds_down_witness :
  getRandomBytes toy_random (5 # 2) 0%nat = Normal (["a"; "b"]%byte, 3%nat).
Proof.
  refine (proj1 (getRandomBytes_rounds_down toy_random (5 # 2) 0%nat
                   toy_random_range _)).
  discriminate.
Defined.

(** X3. For every [keyLength] that is not negative, [genAESKeyAndIv]
    returns a key of [keyLength / 8] rounded down bytes and a vector of 16
    bytes, all of them lowercase letters; the vector is drawn by the calls
    of [Math.random] that follow those of the key, so that the two never
    share a draw. *)
Theorem genAESKeyAndIv_key_then_iv
        (Math_random : nat -> Q) (keyLength : Q) (calls : nat) :
  unit_interval Math_random ->
  (0 <= keyLength)%Q ->
  let n := Z.to_nat (Qfloor (keyLength / 8)) in
  let m := Z.to_nat (Qceiling (keyLength / 8)) in
  genAESKeyAndIv Math_random (Some keyLength) calls
  = Normal ({| key := map (letter_byte Math_random) (seq calls n);
               iv := map (letter_byte Math_random) (seq (calls + m) 16) |},
            (calls + m + 16)%nat)
  /\ (n <= m)%nat
  /\ Forall (fun b => is_lower_letter_byte b = true)
            (map (letter_byte Math_random) (seq calls n))
  /\ Forall (fun b => is_lower_letter_byte b = true)
            (map (letter_byte Math_random) (seq (calls + m) 16)).
Proof.
  intros Hrange Hk n m. subst n m.
  split.
  - unfold genAESKeyAndIv, bind, ret.
    rewrite (getRandomBytes_spec Math_random Hrange _ calls (Qdiv8_nonneg _ Hk)).
    rewrite (getRandomBytes_spec Math_random Hrange (128 / 8) _ ltac:(discriminate)).
    reflexivity.
  - split.
    + pose proof (Qfloor_le_ceiling (keyLength / 8)). lia.
    + split; apply letter_bytes_are_letters; exact Hrange.
Qed.

Lemma genAESKeyAndIv_key_then_iv_witness :
  genAESKeyAndIv toy_random (Some 20%Q) 0%nat
  = Normal ({| key := ["a"; "b"]%byte;
               iv := ["d"; "e"; "f"; "g"; "h"; "i"; "j"; "k";
                      "l"; "m"; "n"; "o"; "p"; "q"; "r"; "s"]%byte |},
            19%nat).
Proof.
  refine (proj1 (genAESKeyAndIv_key_then_iv toy_random 20%Q 0%nat
                   toy_random_range _)).
  discriminate.
Defined.

(** X4. For a negative [keyLength], [genAESKeyAndIv] throws the
    [RangeError] of [Buffer.alloc] on the size [keyLength / 8]; nothing
    is drawn, neither key nor vector is made. *)
Theorem genAESKeyAndIv_negative
        (Math_random : nat -> Q) (keyLength : Q) (calls : nat) :
  (keyLength < 0)%Q ->
  genAESKeyAndIv Math_random (Some keyLength) calls
  = Throw (RangeError_size (keyLength / 8)).
Proof.
  intro Hk. unfold genAESKeyAndIv, bind.
  rewrite getRandomBytes_negative by (apply Qdiv8_negative; exact Hk).
  reflexivity.
Qed.

Lemma genAESKeyAndIv_negative_witness :
  genAESKeyAndIv toy_random (Some (-8)%Q) 0%nat
  = Throw (RangeError_size (-8 / 8)).
Proof.
  apply (genAESKeyAndIv_negative toy_random (-8)%Q 0%nat). reflexivity.
Defined.

(** ** [rsaEncrypt] for every [keyLength] *)

Lemma Qfloor_minus_Z (q : Q) (z : Z) : Qfloor (q - inject_Z z) = Qfloor q - z.
Proof.
  destruct q as [a b]. unfold Qminus, Qplus, Qopp, inject_Z, Qfloor.
  cbn [Qnum Qden]. rewrite Pos.mul_1_r, Z.mul_1_r.
  rewrite Z.div_add by lia. lia.
Qed.

Lemma Qceiling_minus_Z (q : Q) (z : Z) : Qceiling (q - inject_Z z) = Qceiling q - z.
Proof.
  unfold Qceiling.
  assert (- (q - inject_Z z) == - q - inject_Z (- z))%Q as ->
      by (rewrite inject_Z_opp; ring).
  rewrite Qfloor_minus_Z. lia.
Qed.

Lemma restLength_floor (content : Buffer) (o : rsaEncryptOptions) :
  Qfloor (restLength content o)
  = Qfloor (keyLength o / 8)
    - Z.of_nat (length (Buffer_from (enc_splitBar o)))
    - Z.of_nat (length content).
Proof.
  unfold restLength. rewrite !Qfloor_minus_Z. reflexivity.
Qed.

Lemma restLength_ceiling (content : Buffer) (o : rsaEncryptOptions) :
  Qceiling (restLength content o)
  = Qceiling (keyLength o / 8)
    - Z.of_nat (length (Buffer_from (enc_splitBar o)))
    - Z.of_nat (length content).
Proof.
  unfold restLength. rewrite !Qceiling_minus_Z. reflexivity.
Qed.

(** The block of [rsaEncrypt] when there is room for the payload. *)
Lemma contentNeedCrypt_spec
      (Math_random : nat -> Q) (content : Buffer) (o : rsaEncryptOptions)
      (calls : nat) :
  unit_interval Math_random ->
  (0 <= restLength content o)%Q ->
  let filler :=
    map (letter_byte Math_random)
        (seq calls (Z.to_nat (Qfloor (restLength content o)))) in
  contentNeedCrypt Math_random content o calls
  = Normal (filler ++ Buffer_from (enc_splitBar o) ++ content,
            (calls + Z.to_nat (Qceiling (restLength content o)))%nat)
  /\ length (filler ++ Buffer_from (enc_splitBar o) ++ content)
     = Z.to_nat (Qfloor (keyLength o / 8)).
Proof.
  intros Hrange Hroom filler. subst filler. split.
  - unfold contentNeedCrypt, bind.
    rewrite (getRandomBytes_spec Math_random Hrange _ calls Hroom).
    unfold ret, Buffer_concat. cbn [concat]. rewrite app_nil_r. reflexivity.
  - rewrite !length_app, length_map, length_seq.
    pose proof (Qfloor_nonneg _ Hroom) as H.
    rewrite restLength_floor in *. lia.
Qed.

(** X5. For every [keyLength], a multiple of eight or not, and every
    payload and delimiter that leave room ([restLength] is not negative),
    the block that [rsaEncrypt] builds is the filler, the delimiter and
    the payload, and it has [keyLength / 8] rounded down bytes: the
    fraction of a byte is lost. *)
Theorem rsaEncrypt_block_rounds_down
        (Math_random : nat -> Q) (content : Buffer) (o : rsaEncryptOptions)
        (calls : nat) :
  (0 <= restLength content o)%Q ->
  exists filler block calls',
    getRandomBytes Math_random (restLength content o) calls
    = Normal (filler, calls')
    /\ contentNeedCrypt Math_random content o calls = Normal (block, calls')
    /\ block = filler ++ Buffer_from (enc_splitBar o) ++ content
    /\ Z.of_nat (length block) = Qfloor (keyLength o / 8).
Proof.
  intro Hroom.
  destruct (getRandomBytes_length Math_random _ calls Hroom) as [filler [Hrun Hlen]].
  exists filler, (filler ++ Buffer_from (enc_splitBar o) ++ content),
    (calls + Z.to_nat (Qceiling (restLength content o)))%nat.
  split; [exact Hrun|].
  split.
  { unfold contentNeedCrypt, bind. rewrite Hrun.
    unfold ret, Buffer_concat. cbn [concat]. rewrite app_nil_r. reflexivity. }
  split; [reflexivity|].
  rewrite !length_app, Hlen.
  pose proof (Qfloor_nonneg _ Hroom) as H.
  rewrite restLength_floor in *. lia.
Qed.

Lemma rsaEncrypt_block_rounds_down_witness :
  exists filler block calls',
    getRandomBytes toy_random
                   (restLength (Buffer_from (lit "hi")) (toy_encrypt_options (lit "|") 36))
                   0%nat
    = Normal (filler, calls')
    /\ contentNeedCrypt toy_random (Buffer_from (lit "hi"))
                        (toy_encrypt_options (lit "|") 36) 0%nat
       = Normal (block, calls')
    /\ block = filler ++ Buffer_from (enc_splitBar (toy_encrypt_options (lit "|") 36))
                      ++ Buffer_from (lit "hi")
    /\ Z.of_nat (length block) = Qfloor (keyLength (toy_encrypt_options (lit "|") 36) / 8).
Proof.
  apply (rsaEncrypt_block_rounds_down toy_random (Buffer_from (lit "hi"))
           (toy_encrypt_options (lit "|") 36) 0%nat).
  vm_compute. discriminate.
Defined.

(** X6. When the block does not have the size of the modulus of the key,
    that is when [keyLength / 8] rounded down is not the number of bytes
    of the modulus in the key file, [rsaEncrypt] throws the error of the
    unpadded cipher: data too small for the key size, or too large. *)
Theorem rsaEncrypt_keyLength_mismatch
        (Math_random : nat -> Q) (fs : jsstring -> option file)
        (n e : Z) (content : Buffer) (o : rsaEncryptOptions) (calls : nat) :
  fs (pubKeyPath o) = Some (PEM_public n e) ->
  (0 <= restLength content o)%Q ->
  Qfloor (keyLength o / 8) <> Z.of_nat (RSA_size n) ->
  rsaEncrypt Math_random fs content o calls
  = Throw (if Qfloor (keyLength o / 8) <? Z.of_nat (RSA_size n)
           then Error_data_too_small_for_key_size
           else Error_data_too_large_for_key_size).
Proof.
  intros Hfile Hroom Hsize.
  destruct (getRandomBytes_length Math_random _ calls Hroom) as [filler [Hrun Hlen]].
  assert (Z.of_nat (length (filler ++ Buffer_from (enc_splitBar o) ++ content))
          = Qfloor (keyLength o / 8)) as Hblock.
  { rewrite !length_app, Hlen.
    pose proof (Qfloor_nonneg _ Hroom) as H.
    rewrite restLength_floor in *. lia. }
  unfold rsaEncrypt, bind, contentNeedCrypt, bind. rewrite Hrun.
  unfold ret, Buffer_concat. cbn [concat]. rewrite app_nil_r.
  unfold lift, readFileSync. rewrite Hfile.
  cbn [publicEncrypt]. unfold rsa_public_raw.
  set (block := filler ++ Buffer_from (enc_splitBar o) ++ content) in *.
  destruct (Z.ltb_spec (Qfloor (keyLength o / 8)) (Z.of_nat (RSA_size n))) as [Hlt|Hge].
  - destruct (Nat.ltb_spec (RSA_size n) (length block)) as [H1|H1]; [lia|].
    destruct (Nat.ltb_spec (length block) (RSA_size n)) as [H2|H2]; [reflexivity|lia].
  - destruct (Nat.ltb_spec (RSA_size n) (length block)) as [H1|H1]; [reflexivity|lia].
Qed.

Lemma rsaEncrypt_keyLength_mismatch_witness :
  rsaEncrypt toy_random toy_fs (Buffer_from (lit "hi"))
             (toy_encrypt_options (lit "|") 36) 0%nat
  = Throw Error_data_too_small_for_key_size.
Proof.
  apply (rsaEncrypt_keyLength_mismatch toy_random toy_fs toy_n toy_e
           (Buffer_from (lit "hi")) (toy_encrypt_options (lit "|") 36) 0%nat).
  - reflexivity.
  - vm_compute. discriminate.
  - vm_compute. discriminate.
Defined.

(** X7. The key file is read after the block is built: with no file at
    [pubKeyPath], [rsaEncrypt] throws the error of [readFileSync] when
    there is room for the payload, and the [RangeError] of the filler
    generator when there is not. *)
Theorem rsaEncrypt_missing_key_file
        (Math_random : nat -> Q) (fs : jsstring -> option file)
        (content : Buffer) (o : rsaEncryptOptions) (calls : nat) :
  fs (pubKeyPath o) = None ->
  rsaEncrypt Math_random fs content o calls
  = Throw (if Qle_bool 0 (restLength content o)
           then Error_ENOENT
           else RangeError_size (restLength content o)).
Proof.
  intro Hfile. unfold rsaEncrypt, bind.
  destruct (Qle_bool 0 (restLength content o)) eqn:Hroom.
  - apply Qle_bool_iff in Hroom.
    destruct (getRandomBytes_length Math_random _ calls Hroom) as [filler [Hrun _]].
    unfold contentNeedCrypt, bind. rewrite Hrun.
    unfold ret, lift, readFileSync. rewrite Hfile. reflexivity.
  - rewrite contentNeedCrypt_negative; [reflexivity|].
    apply Qnot_le_lt. intro H. apply Qle_bool_iff in H. congruence.
Qed.

Lemma rsaEncrypt_missing_key_file_witness :
  rsaEncrypt toy_random toy_fs (Buffer_from (lit "hi"))
             {| enc_splitBar := lit "|"; pubKeyPath := lit "nowhere.pem";
                keyLength := 40; enc_outputEncoding := None |} 0%nat
  = Throw Error_ENOENT.
Proof.
  apply (rsaEncrypt_missing_key_file toy_random toy_fs (Buffer_from (lit "hi"))
           {| enc_splitBar := lit "|"; pubKeyPath := lit "nowhere.pem";
              keyLength := 40; enc_outputEncoding := None |} 0%nat).
  reflexivity.
Defined.

(** ** The block on its way through the cipher *)

Lemma letter_is_ascii (b : byte) :
  is_lower_letter_byte b = true -> is_ascii (Byte.to_N b) = true.
Proof.
  unfold is_lower_letter_byte, is_lower_letter, is_ascii. intro H.
  apply andb_true_iff in H. destruct H as [_ H]. apply N.leb_le in H.
  apply N.ltb_lt. lia.
Qed.


Lemma contentNeedCrypt_padded_block
      (Math_random : nat -> Q) (content : Buffer) (o : rsaEncryptOptions)
      (calls : nat) :
  unit_interval Math_random ->
  (0 <= restLength content o)%Q ->
  contentNeedCrypt Math_random content o calls
  = Normal (padded_block Math_random content o calls,
            (calls + Z.to_nat (Qceiling (restLength content o)))%nat).
Proof.
  intros Hrange Hroom.
  exact (proj1 (contentNeedCrypt_spec Math_random content o calls Hrange Hroom)).
Qed.

Section Transport.

Variable Math_random : nat -> Q.
Variable fs : jsstring -> option file.
Hypothesis Math_random_range : unit_interval Math_random.

Variables (n e : Z) (k : nat).
Hypothesis modulus_bits : 2 ^ (8 * Z.of_nat k - 1) <= n < 2 ^ (8 * Z.of_nat k).

Variable content : Buffer.
Variable eo : rsaEncryptOptions.
Hypothesis public_file : fs (pubKeyPath eo) = Some (PEM_public n e).
Hypothesis key_length : (keyLength eo == inject_Z (8 * Z.of_nat k))%Q.
Hypothesis room : (0 <= restLength content eo)%Q.

Variable calls : nat.

Lemma keyLength_bytes : (keyLength eo / 8 == inject_Z (Z.of_nat k))%Q.
Proof. rewrite key_length. apply Qdiv8_inject. Qed.

Lemma padded_block_length :
  length (padded_block Math_random content eo calls) = k.
Proof.
  unfold padded_block, filler_bytes.
  rewrite (proj2 (contentNeedCrypt_spec Math_random content eo calls
                    Math_random_range room)).
  rewrite (Qfloor_comp _ _ keyLength_bytes), Qfloor_Z. apply Nat2Z.id.
Qed.

Lemma restLength_draws :
  Z.to_nat (Qceiling (restLength content eo))
  = (k - length (Buffer_from (enc_splitBar eo)) - length content)%nat.
Proof.
  rewrite restLength_ceiling, (Qceiling_comp _ _ keyLength_bytes), Qceiling_Z. lia.
Qed.

(** With a byte of filler the block, as a number, lies below the
    modulus, whatever the bytes of the delimiter and of the payload. *)
Lemma padded_block_below :
  (1 <= restLength content eo)%Q ->
  OS2IP (padded_block Math_random content eo calls) < n.
Proof.
  intro Hone.
  pose proof padded_block_length as Hlen.
  assert (1 <= Qfloor (restLength content eo)) as Hfloor.
  { change 1 with (Qfloor 1). apply Qfloor_resp_le. exact Hone. }
  unfold padded_block, filler_bytes in *.
  destruct (Z.to_nat (Qfloor (restLength content eo))) as [|m] eqn:Hm; [lia|].
  cbn [seq map app] in *.
  pose proof (OS2IP_ascii_head
                (letter_byte Math_random calls)
                (map (letter_byte Math_random) (seq (S calls) m)
                     ++ Buffer_from (enc_splitBar eo) ++ content)
                (letter_is_ascii _ (letter_byte_is_letter Math_random
                                      Math_random_range calls))) as H.
  rewrite Hlen in H. lia.
Qed.

Lemma rsaEncrypt_padded_block :
  OS2IP (padded_block Math_random content eo calls) < n ->
  rsaEncrypt Math_random fs content eo calls
  = Normal (Buffer_toString
              (I2OSP k (Zpow_mod (OS2IP (padded_block Math_random content eo calls))
                                 e n))
              (default base64 (enc_outputEncoding eo)),
            (calls + Z.to_nat (Qceiling (restLength content eo)))%nat).
Proof.
  intro Hbelow.
  assert (0 < k)%nat as Hk.
  { pose proof (OS2IP_range (padded_block Math_random content eo calls)) as Hr.
    destruct k; [|lia]. cbn in modulus_bits. lia. }
  unfold rsaEncrypt, bind.
  rewrite contentNeedCrypt_padded_block by assumption.
  unfold lift, readFileSync. rewrite public_file. cbn [publicEncrypt].
  rewrite (rsa_public_raw_block n e k modulus_bits Hk _ padded_block_length Hbelow).
  reflexivity.
Qed.

Variable d : Z.
Hypothesis pair : rsa_key_pair n e d.

Variable do : rsaDecryptOptions.
Hypothesis private_file : fs (priKeyPath do) = Some (PEM_private n e d).
Hypothesis same_encoding :
  default base64 (dec_inputEncoding do) = default base64 (enc_outputEncoding eo).
Hypothesis safe_encoding : binary_safe (default base64 (enc_outputEncoding eo)) = true.


End Transport.

(** ** Occurrences of the delimiter *)

Lemma before_first_prefix (R S : jsstring) : exists t, S = before_first R S ++ t.
Proof.
  induction S as [|c S [t IH]]; [exists []; reflexivity|].
  cbn [before_first]. destruct (prefixb R (c :: S)).
  - exists (c :: S). reflexivity.
  - exists t. cbn [app]. f_equal. exact IH.
Qed.


(** The part before the first occurrence holds no occurrence. *)
Lemma before_first_clean (R S : jsstring) :
  R <> [] -> ~ occurs R (before_first R S).
Proof.
  intros HR [a [b E]].
  destruct (before_first_prefix R S) as [t Ht].
  pose proof (before_first_minimal R a (b ++ t)) as Hmin.
  replace (a ++ R ++ b ++ t) with S in Hmin
    by (rewrite Ht at 1; rewrite E, <- !app_assoc; reflexivity).
  rewrite E, !length_app in Hmin.
  destruct R; [congruence|cbn [length] in Hmin; lia].
Qed.







Lemma toy_n_bits : 2 ^ (8 * Z.of_nat 5 - 1) <= toy_n < 2 ^ (8 * Z.of_nat 5).
Proof. unfold toy_n. cbn. lia. Qed.

(** X8. With a key of [keyLength] bits and at least one byte of filler,
    [rsaEncrypt] returns, whatever the bytes of the payload and of the
    delimiter and whatever letters are drawn: the first byte of the
    block is a letter, so that the block lies below the modulus.  What
    is returned renders a buffer of exactly [keyLength / 8] bytes, and
    [Math.random] was called once for each byte of filler. *)
Theorem rsaEncrypt_returns_modulus_size
        (Math_random : nat -> Q) (fs : jsstring -> option file)
        (n e : Z) (k : nat) (content : Buffer) (o : rsaEncryptOptions)
        (calls : nat) :
  unit_interval Math_random ->
  2 ^ (8 * Z.of_nat k - 1) <= n < 2 ^ (8 * Z.of_nat k) ->
  fs (pubKeyPath o) = Some (PEM_public n e) ->
  (keyLength o == inject_Z (8 * Z.of_nat k))%Q ->
  (1 <= restLength content o)%Q ->
  exists res,
    rsaEncrypt Math_random fs content o calls
    = Normal (Buffer_toString res (default base64 (enc_outputEncoding o)),
              (calls + (k - length (Buffer_from (enc_splitBar o))
                        - length content))%nat)
    /\ length res = k
    /\ (binary_safe (default base64 (enc_outputEncoding o)) = true ->
        Buffer_from_encoded
          (Buffer_toString res (default base64 (enc_outputEncoding o)))
          (default base64 (enc_outputEncoding o)) = res).
Proof.
  intros Hrange Hbits Hfile Hkey Hone.
  assert (0 <= restLength content o)%Q as Hroom
      by (apply Qle_trans with 1%Q; [discriminate|exact Hone]).
  pose proof (padded_block_below Math_random Hrange n k Hbits content o
                Hkey Hroom calls Hone) as Hbelow.
  eexists. split; [|split].
  - rewrite (rsaEncrypt_padded_block Math_random fs Hrange n e k Hbits content o
               Hfile Hkey Hroom calls Hbelow).
    rewrite (restLength_draws k content o Hkey). reflexivity.
  - apply I2OSP_length.
  - intro Hsafe. apply Buffer_from_toString. exact Hsafe.
Qed.

Lemma rsaEncrypt_returns_modulus_size_witness :
  exists res,
    rsaEncrypt toy_random toy_fs [xff; x00] (toy_encrypt_options (lit "|") 40) 0%nat
    = Normal (Buffer_toString res base64, 2%nat)
    /\ length res = 5%nat
    /\ (true = true -> Buffer_from_encoded (Buffer_toString res base64) base64 = res).
Proof.
  apply (rsaEncrypt_returns_modulus_size toy_random toy_fs toy_n toy_e 5
           [xff; x00] (toy_encrypt_options (lit "|") 40) 0%nat).
  - exact toy_random_range.
  - exact toy_n_bits.
  - reflexivity.
  - reflexivity.
  - vm_compute. discriminate.
Defined.







(** X12. What [rsaDecrypt] returns never holds the delimiter.  For a
    delimiter that is not empty and a text that decrypts, the result is
    [undefined] exactly when the delimiter does not occur in the
    decrypted text, and otherwise a string in which the delimiter does
    not occur. *)
Theorem rsaDecrypt_result_without_delimiter
        (fs : jsstring -> option file) (content : jsstring)
        (o : rsaDecryptOptions) (text : jsstring) :
  dec_splitBar o <> [] ->
  decryptedData fs content o = Normal text ->
  exists res,
    rsaDecrypt fs content o = Normal res
    /\ match res with
       | Undefined => ~ occurs (dec_splitBar o) text
       | Str s => occurs (dec_splitBar o) text /\ ~ occurs (dec_splitBar o) s
       end.
Proof.
  intros HR Htext.
  rewrite (rsaDecrypt_text fs content o text Htext).
  rewrite split_index_1 by exact HR.
  destruct (after_first (dec_splitBar o) text) as [rest|] eqn:E.
  - eexists. split; [reflexivity|]. cbv beta iota. split.
    + apply after_first_Some in E. eexists. eexists. exact E.
    + apply before_first_clean. exact HR.
  - eexists. split; [reflexivity|]. cbv beta iota.
    apply after_first_None_iff. exact E.
Qed.

Lemma rsaDecrypt_result_without_delimiter_witness :
  exists res,
    rsaDecrypt toy_fs (toy_ciphertext (lit "a|b|c")) (toy_decrypt_options (lit "|"))
    = Normal res
    /\ match res with
       | Undefined => ~ occurs (lit "|") (lit "a|b|c")
       | Str s => occurs (lit "|") (lit "a|b|c") /\ ~ occurs (lit "|") s
       end.
Proof.
  apply (rsaDecrypt_result_without_delimiter toy_fs (toy_ciphertext (lit "a|b|c"))
           (toy_decrypt_options (lit "|")) (lit "a|b|c")).
  - discriminate.
  - vm_compute. reflexivity.
Defined.

(** ** More on [aesEncrypt] and [aesDecrypt] *)

Section MoreAESFacts.

Variable suite : cipher_suite.
Variables (alg : jsstring) (key iv : Buffer).
Hypothesis undone : decipher_undoes_cipher suite alg key iv.

(** A Buffer comes back as its rendering, whatever [inputEncoding] of
    [aesEncrypt], and also when the ciphertext is handed over as a
    Buffer. *)
Lemma aes_roundtrip_buffer_bytes (b : Buffer)
      (anyEncoding plaintextEncoding ciphertextEncoding : option encoding) :
  binary_safe (default base64 ciphertextEncoding) = true ->
  exists c,
    aesEncrypt suite (OfBuffer b)
               {| algorithm := alg; aes_key := key; aes_iv := iv;
                  inputEncoding := anyEncoding;
                  outputEncoding := ciphertextEncoding |}
    = Normal c
    /\ aesDecrypt suite (OfString c)
                  {| algorithm := alg; aes_key := key; aes_iv := iv;
                     inputEncoding := ciphertextEncoding;
                     outputEncoding := plaintextEncoding |}
       = Normal (Buffer_toString b (default utf8 plaintextEncoding))
    /\ aesDecrypt suite
                  (OfBuffer (Buffer_from_encoded c (default base64 ciphertextEncoding)))
                  {| algorithm := alg; aes_key := key; aes_iv := iv;
                     inputEncoding := anyEncoding;
                     outputEncoding := plaintextEncoding |}
       = Normal (Buffer_toString b (default utf8 plaintextEncoding)).
Proof.
  intro Hsafe.
  destruct (aes_roundtrip_bytes suite alg key iv undone (OfBuffer b)
              plaintextEncoding ciphertextEncoding Hsafe) as [c [He Hd]].
  exists c. split; [exact He|]. split; exact Hd.
Qed.

End MoreAESFacts.

(** X13. The round trip for a Buffer.  For AES in a mode without
    authentication, with a key and a vector of the sizes of the
    algorithm, and binary-safe encodings (base64, hex or latin1) both of
    the ciphertext and of the output of [aesDecrypt], the text that
    [aesDecrypt] returns for what [aesEncrypt] made of a Buffer renders
    that Buffer: reading it in the output encoding gives the Buffer
    back.  The [inputEncoding] of [aesEncrypt] plays no part for a
    Buffer, and the ciphertext may be handed to [aesDecrypt] as a Buffer
    as well. *)
Theorem aes_roundtrip_buffer
        (others : cipher_suite) (alg : jsstring) (key iv : Buffer) (b : Buffer)
        (anyEncoding plaintextEncoding ciphertextEncoding : option encoding) :
  unauthenticated_aes alg key iv = true ->
  binary_safe (default base64 ciphertextEncoding) = true ->
  binary_safe (default utf8 plaintextEncoding) = true ->
  exists c t,
    aesEncrypt (openssl others) (OfBuffer b)
               {| algorithm := alg; aes_key := key; aes_iv := iv;
                  inputEncoding := anyEncoding;
                  outputEncoding := ciphertextEncoding |}
    = Normal c
    /\ aesDecrypt (openssl others) (OfString c)
                  {| algorithm := alg; aes_key := key; aes_iv := iv;
                     inputEncoding := ciphertextEncoding;
                     outputEncoding := plaintextEncoding |}
       = Normal t
    /\ aesDecrypt (openssl others)
                  (OfBuffer (Buffer_from_encoded c (default base64 ciphertextEncoding)))
                  {| algorithm := alg; aes_key := key; aes_iv := iv;
                     inputEncoding := anyEncoding;
                     outputEncoding := plaintextEncoding |}
       = Normal t
    /\ Buffer_from_encoded t (default utf8 plaintextEncoding) = b.
Proof.
  intros Htriple Hsafe Hplain.
  destruct (aes_roundtrip_buffer_bytes (openssl others) alg key iv
              (unauthenticated_aes_undone others alg key iv Htriple) b
              anyEncoding plaintextEncoding ciphertextEncoding Hsafe)
    as [c [He [Hd Hd']]].
  exists c, (Buffer_toString b (default utf8 plaintextEncoding)).
  split; [exact He|]. split; [exact Hd|]. split; [exact Hd'|].
  apply Buffer_from_toString. exact Hplain.
Qed.

Lemma aes_roundtrip_buffer_witness :
  exists c t,
    aesEncrypt (openssl no_other_cipher) (OfBuffer [x00; xff])
               {| algorithm := toy_algorithm; aes_key := toy_key; aes_iv := toy_iv;
                  inputEncoding := Some utf8; outputEncoding := Some hex |}
    = Normal c
    /\ aesDecrypt (openssl no_other_cipher) (OfString c)
                  {| algorithm := toy_algorithm; aes_key := toy_key;
                     aes_iv := toy_iv;
                     inputEncoding := Some hex; outputEncoding := Some latin1 |}
       = Normal t
    /\ aesDecrypt (openssl no_other_cipher)
                  (OfBuffer (Buffer_from_encoded c (default base64 (Some hex))))
                  {| algorithm := toy_algorithm; aes_key := toy_key;
                     aes_iv := toy_iv;
                     inputEncoding := Some utf8; outputEncoding := Some latin1 |}
       = Normal t
    /\ Buffer_from_encoded t (default utf8 (Some latin1)) = [x00; xff].
Proof.
  apply (aes_roundtrip_buffer no_other_cipher toy_algorithm toy_key toy_iv
           [x00; xff] (Some utf8) (Some latin1) (Some hex)).
  - reflexivity.
  - reflexivity.
  - reflexivity.
Defined.



(** X15. Key material of another size is refused by the cipher, not by
    [genAESKeyAndIv]: with the key and the vector of
    [genAESKeyAndIv(keyLength)], [aesEncrypt] and [aesDecrypt] throw for
    an AES algorithm whose key does not have [keyLength / 8] rounded
    down bytes, the error of the key length (of the vector in ECB mode,
    which takes none). *)
Theorem aes_generated_key_of_wrong_size
        (Math_random : nat -> Q) (others : cipher_suite) (alg : jsstring)
        (key_bytes : nat) (m : aes_mode) (keyLength : Q) (calls : nat)
        (content : data) (inEnc outEnc : option encoding) :
  parse_algorithm alg = Some (key_bytes, m) ->
  (0 <= keyLength)%Q ->
  Z.to_nat (Qfloor (keyLength / 8)) <> key_bytes ->
  exists material calls',
    genAESKeyAndIv Math_random (Some keyLength) calls = Normal (material, calls')
    /\ aesEncrypt (openssl others) content
                  {| algorithm := alg; aes_key := key material;
                     aes_iv := iv material;
                     inputEncoding := inEnc; outputEncoding := outEnc |}
       = Throw (match m with
                | ECB => Error_invalid_iv
                | _ => Error_invalid_key_length
                end)
    /\ aesDecrypt (openssl others) content
                  {| algorithm := alg; aes_key := key material;
                     aes_iv := iv material;
                     inputEncoding := inEnc; outputEncoding := outEnc |}
       = Throw (match m with
                | ECB => Error_invalid_iv
                | _ => Error_invalid_key_length
                end).
Proof.
  intros Hparse Hpos Hsize.
  destruct (getRandomBytes_length Math_random (keyLength / 8) calls
              (Qdiv8_nonneg _ Hpos)) as [k [Hk Hklen]].
  destruct (getRandomBytes_length Math_random (128 / 8)
              (calls + Z.to_nat (Qceiling (keyLength / 8))) ltac:(discriminate))
    as [i [Hi Hilen]].
  change (Z.to_nat (Qfloor (128 / 8))) with 16%nat in Hilen.
  exists {| key := k; iv := i |}. eexists.
  split.
  { unfold genAESKeyAndIv, bind, ret. rewrite Hk, Hi. reflexivity. }
  assert (aes_init (key_bytes, m) k i
          = Throw (match m with
                   | ECB => Error_invalid_iv
                   | _ => Error_invalid_key_length
                   end)) as Hinit.
  { unfold aes_init. rewrite Hilen, Hklen.
    destruct (Nat.eqb_spec (Z.to_nat (Qfloor (keyLength / 8))) key_bytes)
      as [E|_]; [contradiction|].
    destruct m; reflexivity. }
  unfold aesEncrypt, aesDecrypt.
  cbn [openssl createCipher createDecipher algorithm aes_key aes_iv
       key iv].
  rewrite Hparse, Hinit. split; reflexivity.
Qed.

Lemma aes_generated_key_of_wrong_size_witness :
  exists material calls',
    genAESKeyAndIv toy_random (Some 128%Q) 0%nat = Normal (material, calls')
    /\ aesEncrypt (openssl no_other_cipher) (OfString (lit "hello"))
                  {| algorithm := lit "aes-256-cbc";
                     aes_key := key material;
                     aes_iv := iv material;
                     inputEncoding := None; outputEncoding := None |}
       = Throw Error_invalid_key_length
    /\ aesDecrypt (openssl no_other_cipher) (OfString (lit "hello"))
                  {| algorithm := lit "aes-256-cbc";
                     aes_key := key material;
                     aes_iv := iv material;
                     inputEncoding := None; outputEncoding := None |}
       = Throw Error_invalid_key_length.
Proof.
  apply (aes_generated_key_of_wrong_size toy_random no_other_cipher
           (lit "aes-256-cbc") 32 CBC 128%Q 0%nat (OfString (lit "hello"))
           None None).
  - reflexivity.
  - discriminate.
  - vm_compute. discriminate.
Defined.

(** ** The size of the ciphertext, and ciphertexts of the wrong size *)










(** ** Decrypting with another delimiter *)


